(** * The type/model builder of coze-sdk-gen (parser/parser.go)

    A shallow embedding of the parser package: the type graph ([Ty],
    [TyField]) lives in an explicit heap indexed by addresses, because the
    Go code shares and mutates [*Ty] values; handlers, modules, the rule
    engine, schema conversion and the per-module topological sort are
    functions over that heap and the parser state. *)

From stdpp Require Import gmap strings list fin_maps sorting.
From Stdlib Require Import ZArith Lia Ascii.

#[local] Set Warnings "-register-all".
Local Open Scope string_scope.
Local Open Scope list_scope.

(** ** Results of fallible code

    A Go function returning [(T, error)] yields [Ok] or [Err]; a run-time
    panic (nil dereference, failed type assertion, gonum's self-edge check)
    is [Panic]; [OutOfFuel] marks a recursion cut off by the fuel bound of
    the embedding and is never a result of the Go program. *)

Inductive result (A : Type) : Type :=
| Ok (a : A)
| Err (msg : string)
| Panic (msg : string)
| OutOfFuel.
Arguments Ok {A} a.
Arguments Err {A} msg.
Arguments Panic {A} msg.
Arguments OutOfFuel {A}.

#[global] Instance result_ret : MRet result := λ A a, Ok a.
#[global] Instance result_bind : MBind result := λ A B f r,
  match r with
  | Ok a => f a
  | Err e => Err e
  | Panic m => Panic m
  | OutOfFuel => OutOfFuel
  end.

(** [fmt.Errorf("... %w", err)]: the wrapped error's text follows the prefix. *)
Definition wrap {A} (pre : string) (r : result A) : result A :=
  match r with
  | Err e => Err (pre +:+ e)
  | other => other
  end.

(** A [for] loop over a slice whose body may return early with an error. *)
Fixpoint forM {A S} (body : S → A → result S) (s : S) (l : list A) : result S :=
  match l with
  | [] => Ok s
  | a :: l' => s' ← body s a; forM body s' l'
  end.

(** ** Data model (parser.go, lines 17-131 and 237-261) *)

Inductive TyKind := TyKindUnset | TyKindPrimitive | TyKindObject | TyKindArray | TyKindMap.
Inductive PrimitiveKind :=
  PrimitiveInt | PrimitiveFloat | PrimitiveString | PrimitiveBool | PrimitiveBinary | PrimitiveUnknown.
Inductive ContentType := ContentTypeJson | ContentTypeFile.
Inductive FieldRequirementChange :=
  FieldRequirementNoChange | FieldRequirementRequired | FieldRequirementOptional.

#[global] Instance TyKind_eq_dec : EqDecision TyKind.
Proof. solve_decision. Defined.
#[global] Instance ContentType_eq_dec : EqDecision ContentType.
Proof. solve_decision. Defined.

(** Values of Go's [interface{}] as they come out of the document loader. *)
Inductive Any : Type :=
| ANil
| AString (s : string)
| ANumber (z : Z)
| ABool (b : bool)
| AList (l : list Any).

(** Addresses of [Ty] values; [*Ty] is [option ptr], with [None] for nil. *)
Abbreviation ptr := positive.

Record TyEnumValue := { evName : string; evVal : Any }.

Record TyField := {
  fName : string;
  fDescription : string;
  fType : option ptr;
  fRequired : bool;
  fDefault : string
}.

Record Ty := {
  Name : string;
  Description : string;
  Kind : TyKind;
  Module_ : string;
  PrimitiveKind_ : PrimitiveKind;
  EnumValues : list TyEnumValue;
  Fields : list TyField;
  ElementType : option ptr;
  ValueType : option ptr;
  IsNamed : bool
}.

Record HttpHandler := {
  hName : string;
  hDescription : string;
  hPath : string;
  hMethod : string;
  hContentType : ContentType;
  HeaderParams : list TyField;
  PathParams : list TyField;
  QueryParams : list TyField;
  RequestBody : option ptr;
  ResponseBody : option ptr
}.

Record PageInfo := {
  ItemType : option ptr;
  PageIndexName : string;
  PageSizeName : string
}.

Record FieldModification := {
  Requirement : FieldRequirementChange;
  Default : string
}.

(** The store of all [Ty] values allocated so far. *)
Abbreviation heap := (gmap positive Ty).

(** Reading through a [*Ty]: nil (and an address that holds nothing, which Go
    cannot produce) is the run-time panic of a nil dereference. *)
Definition deref (σ : heap) (p : option ptr) : result Ty :=
  match p with
  | None => Panic "invalid memory address or nil pointer dereference"
  | Some q =>
      match σ !! q with
      | Some t => Ok t
      | None => Panic "invalid memory address or nil pointer dereference"
      end
  end.

(** ** Semantic inference (parser.go, lines 120-235) *)

Definition DefaultPageIndexCandidates : list string := ["page_index"; "page_num"].
Definition DefaultPageSizeCandidates : list string := ["page_size"; "page_num"].

(** [GetActualResponseBody], lines 201-212. *)
Definition GetActualResponseBody (σ : heap) (h : HttpHandler) : result (option ptr) :=
  match ResponseBody h with
  | None => Ok None
  | Some _ =>
      t ← deref σ (ResponseBody h);
      if decide (Kind t ≠ TyKindObject) then Ok None
      else
        match find (λ f, bool_decide (fName f = "data")) (Fields t) with
        | Some f => Ok (fType f)
        | None => Ok None
        end
  end.

(** The loop of lines 187-195: the first field whose type is an array. *)
Fixpoint firstArrayField (σ : heap) (fields : list TyField) : result (option Ty) :=
  match fields with
  | [] => Ok None
  | f :: rest =>
      ft ← deref σ (fType f);
      if decide (Kind ft = TyKindArray) then Ok (Some ft)
      else firstArrayField σ rest
  end.

(** [GetPageInfo], lines 139-197. *)
Definition GetPageInfo (σ : heap) (h : HttpHandler)
    (pageIndexCandidates pageSizeCandidates : list string) : result (option PageInfo) :=
  let pageIndexCandidates :=
    if decide (length pageIndexCandidates = 0) then DefaultPageIndexCandidates
    else pageIndexCandidates in
  let pageSizeCandidates :=
    if decide (length pageSizeCandidates = 0) then DefaultPageSizeCandidates
    else pageSizeCandidates in
  if decide (hMethod h ≠ "GET") then Ok None
  else
    let paramNames : gset string := list_to_set (fName <$> QueryParams h) in
    let pageIndex :=
      default "" (find (λ c, bool_decide (c ∈ paramNames)) pageIndexCandidates) in
    let pageSize :=
      default "" (find (λ c, bool_decide (c ∈ paramNames) && bool_decide (c ≠ pageIndex))
                       pageSizeCandidates) in
    if decide (pageIndex = "" ∨ pageSize = "") then Ok None
    else
      actualBody ← GetActualResponseBody σ h;
      match actualBody with
      | None => Ok None
      | Some _ =>
          body ← deref σ actualBody;
          if decide (Kind body ≠ TyKindObject) then Ok None
          else
            arr ← firstArrayField σ (Fields body);
            match arr with
            | Some a =>
                Ok (Some {| ItemType := ElementType a;
                            PageIndexName := pageIndex;
                            PageSizeName := pageSize |})
            | None => Ok None
            end
      end.

(** [HasOnlyStatusFields], lines 216-235, on a non-nil receiver. *)
Definition statusFields : gset string := {["code"; "msg"; "detail"; "logid"]}.

Definition HasOnlyStatusFields (t : Ty) : bool :=
  if decide (Kind t ≠ TyKindObject) then false
  else if forallb (λ f, bool_decide (fName f ∈ statusFields)) (Fields t)
       then bool_decide (0 < length (Fields t))
       else false.

(** ** Groupings and configuration (parser.go, lines 237-261) *)

Record Module := {
  mName : string;
  HttpHandlers : list HttpHandler;
  Types : list ptr
}.

Record ModuleConfig := {
  TypeModuleMap : gmap string string;
  GenerateUnnamedResponseType : option (heap → HttpHandler → string * bool);
  ChangeHttpHandlerResponseType : gmap string string;
  RenameTypes : gmap string string;
  RenameHandlers : gmap string string;
  ChangeFields : gmap string (gmap string (option FieldModification));
  HandlerOrdering : gmap string (list string)
}.

(** ** The interface description handed over by the document loader

    The part of kin-openapi's [openapi3.T] that the parser reads. A
    [*SchemaRef] is [option SchemaRef]. In a node whose [Ref] is set the
    loader points [Value] at the resolved component; the parser reads only
    [Title] and [Description] through it, so the embedding keeps a finite
    [Schema] there and follows the reference through [Components]. *)

Inductive SchemaRef : Type :=
  mkSchemaRef (Ref : string) (Value : option Schema)
with Schema : Type :=
  mkSchema (Title sDescription : string) (Type_ : list string) (Format : string)
    (Items : option SchemaRef) (Properties : gmap string (option SchemaRef))
    (Required : list string) (AdditionalProperties : option SchemaRef)
    (Enum : list Any) (Extensions : gmap string Any).

Definition Ref (s : SchemaRef) : string := let 'mkSchemaRef r _ := s in r.
Definition Value (s : SchemaRef) : option Schema := let 'mkSchemaRef _ v := s in v.
Definition Title (v : Schema) : string := let 'mkSchema t _ _ _ _ _ _ _ _ _ := v in t.
Definition sDescription (v : Schema) : string := let 'mkSchema _ d _ _ _ _ _ _ _ _ := v in d.
Definition Type_ (v : Schema) : list string := let 'mkSchema _ _ t _ _ _ _ _ _ _ := v in t.
Definition Format (v : Schema) : string := let 'mkSchema _ _ _ f _ _ _ _ _ _ := v in f.
Definition Items (v : Schema) : option SchemaRef := let 'mkSchema _ _ _ _ i _ _ _ _ _ := v in i.
Definition Properties (v : Schema) : gmap string (option SchemaRef) :=
  let 'mkSchema _ _ _ _ _ ps _ _ _ _ := v in ps.
Definition Required (v : Schema) : list string := let 'mkSchema _ _ _ _ _ _ r _ _ _ := v in r.
Definition AdditionalProperties (v : Schema) : option SchemaRef :=
  let 'mkSchema _ _ _ _ _ _ _ a _ _ := v in a.
Definition Enum (v : Schema) : list Any := let 'mkSchema _ _ _ _ _ _ _ _ e _ := v in e.
Definition Extensions (v : Schema) : gmap string Any :=
  let 'mkSchema _ _ _ _ _ _ _ _ _ x := v in x.

Record OpParameter := {
  paramName : string;
  paramIn : string;
  paramDescription : string;
  paramRequired : bool;
  paramSchema : option SchemaRef
}.

Record MediaType := { mtSchema : option SchemaRef }.

Record Operation := {
  OperationID : string;
  opDescription : string;
  Tags : list string;
  (* [[]*ParameterRef]: each entry's [Value], nil when unresolved *)
  Parameters : list (option OpParameter);
  (* [RequestBody.Value.Content]; [None] when the body or its value is nil *)
  opRequestBody : option (gmap string MediaType);
  (* [Responses.Map()]: status code to [Value.Content] *)
  Responses : gmap string (gmap string MediaType)
}.

Record Document := {
  (* [Components.Schemas]; [None] when [Components] is nil *)
  Components : option (gmap string (option SchemaRef));
  (* [Paths.Map()], each path item as its [Operations()] map *)
  Paths : gmap string (gmap string Operation)
}.

(** ** Parser state (parser.go, lines 255-274) *)

Record Parser := {
  σ : heap;
  nextPtr : ptr;
  (* only non-nil [*Ty] values are ever stored *)
  namedTypes : gmap string ptr;
  modules : gmap string Module
}.

Definition NewParser : Parser :=
  {| σ := ∅; nextPtr := 1%positive; namedTypes := ∅; modules := ∅ |}.

Definition setHeap (p : Parser) (h : heap) : Parser :=
  {| σ := h; nextPtr := nextPtr p; namedTypes := namedTypes p; modules := modules p |}.
Definition setNamedTypes (p : Parser) (nt : gmap string ptr) : Parser :=
  {| σ := σ p; nextPtr := nextPtr p; namedTypes := nt; modules := modules p |}.
Definition setModules (p : Parser) (ms : gmap string Module) : Parser :=
  {| σ := σ p; nextPtr := nextPtr p; namedTypes := namedTypes p; modules := ms |}.

(** [&Ty{...}]: a fresh address holding [t]. *)
Definition alloc (p : Parser) (t : Ty) : ptr * Parser :=
  (nextPtr p,
   {| σ := <[nextPtr p := t]> (σ p); nextPtr := Pos.succ (nextPtr p);
      namedTypes := namedTypes p; modules := modules p |}).

(** An in-place update of the [Ty] at address [a]. *)
Definition store (p : Parser) (a : ptr) (t : Ty) : Parser := setHeap p (<[a := t]> (σ p)).

Definition withName (t : Ty) (n : string) : Ty :=
  {| Name := n; Description := Description t; Kind := Kind t; Module_ := Module_ t;
     PrimitiveKind_ := PrimitiveKind_ t; EnumValues := EnumValues t; Fields := Fields t;
     ElementType := ElementType t; ValueType := ValueType t; IsNamed := IsNamed t |}.
Definition withDescription (t : Ty) (d : string) : Ty :=
  {| Name := Name t; Description := d; Kind := Kind t; Module_ := Module_ t;
     PrimitiveKind_ := PrimitiveKind_ t; EnumValues := EnumValues t; Fields := Fields t;
     ElementType := ElementType t; ValueType := ValueType t; IsNamed := IsNamed t |}.
Definition withKind (t : Ty) (k : TyKind) : Ty :=
  {| Name := Name t; Description := Description t; Kind := k; Module_ := Module_ t;
     PrimitiveKind_ := PrimitiveKind_ t; EnumValues := EnumValues t; Fields := Fields t;
     ElementType := ElementType t; ValueType := ValueType t; IsNamed := IsNamed t |}.
Definition withModule (t : Ty) (m : string) : Ty :=
  {| Name := Name t; Description := Description t; Kind := Kind t; Module_ := m;
     PrimitiveKind_ := PrimitiveKind_ t; EnumValues := EnumValues t; Fields := Fields t;
     ElementType := ElementType t; ValueType := ValueType t; IsNamed := IsNamed t |}.
Definition withPrimitive (t : Ty) (k : PrimitiveKind) (evs : list TyEnumValue) : Ty :=
  {| Name := Name t; Description := Description t; Kind := Kind t; Module_ := Module_ t;
     PrimitiveKind_ := k; EnumValues := evs; Fields := Fields t;
     ElementType := ElementType t; ValueType := ValueType t; IsNamed := IsNamed t |}.
Definition withFields (t : Ty) (fs : list TyField) : Ty :=
  {| Name := Name t; Description := Description t; Kind := Kind t; Module_ := Module_ t;
     PrimitiveKind_ := PrimitiveKind_ t; EnumValues := EnumValues t; Fields := fs;
     ElementType := ElementType t; ValueType := ValueType t; IsNamed := IsNamed t |}.
Definition withElementType (t : Ty) (e : option ptr) : Ty :=
  {| Name := Name t; Description := Description t; Kind := Kind t; Module_ := Module_ t;
     PrimitiveKind_ := PrimitiveKind_ t; EnumValues := EnumValues t; Fields := Fields t;
     ElementType := e; ValueType := ValueType t; IsNamed := IsNamed t |}.
Definition withValueType (t : Ty) (v : option ptr) : Ty :=
  {| Name := Name t; Description := Description t; Kind := Kind t; Module_ := Module_ t;
     PrimitiveKind_ := PrimitiveKind_ t; EnumValues := EnumValues t; Fields := Fields t;
     ElementType := ElementType t; ValueType := v; IsNamed := IsNamed t |}.
Definition withIsNamed (t : Ty) (b : bool) : Ty :=
  {| Name := Name t; Description := Description t; Kind := Kind t; Module_ := Module_ t;
     PrimitiveKind_ := PrimitiveKind_ t; EnumValues := EnumValues t; Fields := Fields t;
     ElementType := ElementType t; ValueType := ValueType t; IsNamed := b |}.

(** [util.Choose] (util/util.go). *)
Definition Choose {T} (cond : bool) (a b : T) : T := if cond then a else b.

(** [getRefName], lines 1008-1011: the part after the last slash. *)
Fixpoint afterLastSlash (s : string) : option string :=
  match s with
  | EmptyString => None
  | String c r =>
      match afterLastSlash r with
      | Some t => Some t
      | None => if Ascii.eqb c "/"%char then Some r else None
      end
  end.
Definition getRefName (ref : string) : string := default ref (afterLastSlash ref).

(** [convertPrimitiveType], lines 985-1005. *)
Definition convertPrimitiveType (typ : list string) (format : string) : PrimitiveKind :=
  match typ with
  | [] => PrimitiveUnknown
  | t0 :: _ =>
      if decide (t0 = "integer") then PrimitiveInt
      else if decide (t0 = "number") then PrimitiveFloat
      else if decide (t0 = "string") then
        (if decide (format = "binary") then PrimitiveBinary else PrimitiveString)
      else if decide (t0 = "boolean") then PrimitiveBool
      else PrimitiveUnknown
  end.

(** ** Schema and operation conversion (parser.go, lines 522-771)

    Go does not fix the order in which [range] visits a map; [range] stands
    for the order the run-time picks, and every loop over a map goes through
    it. *)

Section Build.

Context (range : ∀ V : Type, gmap string V → list (string * V)).
Context (doc : Document).

(** The type assertions [pname.(string)] of lines 624 and 656. *)
Definition assertString (a : Any) : result string :=
  match a with
  | AString s => Ok s
  | _ => Panic "interface conversion: interface {} is not string"
  end.

(** Lines 650-659: the enum literals, named when the name list has their length. *)
Definition convertEnum (v : Schema) : result (list TyEnumValue) :=
  let evs := (λ val, {| evName := ""; evVal := val |}) <$> Enum v in
  match Extensions v !! "x-coze-enum-names" with
  | Some (AList enumNames) =>
      if decide (length enumNames = length (Enum v)) then
        forM (λ acc '(ev, n), s ← assertString n;
                Ok (acc ++ [{| evName := s; evVal := evVal ev |}]))
             [] (zip evs enumNames)
      else Ok evs
  | _ => Ok evs
  end.

(** [convertField], lines 674-694, over the converter it calls back. *)
Definition convertField
    (convert : Parser → option SchemaRef → string → bool → result (ptr * Parser))
    (p : Parser) (name : string) (schema : option SchemaRef) (required : list string)
    : result (TyField * Parser) :=
  '(fieldType, p) ← convert p schema "" false;
  let isRequired := bool_decide (name ∈ required) in
  match schema with
  | Some (mkSchemaRef _ (Some v)) =>
      Ok ({| fName := name;
             fDescription := Choose (bool_decide (Title v ≠ "")) (Title v) (sDescription v);
             fType := Some fieldType;
             fRequired := isRequired;
             fDefault := "" |}, p)
  | _ => Panic "invalid memory address or nil pointer dereference"
  end.

(** Lines 630-634 and 639-643: one property becomes one more field. *)
Definition appendField
    (convert : Parser → option SchemaRef → string → bool → result (ptr * Parser))
    (required : list string) (acc : list TyField * Parser) (propName : string)
    (prop : option SchemaRef) : result (list TyField * Parser) :=
  '(field, p) ← wrap ("failed to convert field " +:+ propName +:+ ": ")
                  (convertField convert acc.2 propName prop required);
  Ok (acc.1 ++ [field], p).

(** Lines 621-645: the fields of an object, in the order [x-coze-order]
    declares when it is present and not nil, else in map order. *)
Definition convertProperties
    (convert : Parser → option SchemaRef → string → bool → result (ptr * Parser))
    (v : Schema) (p : Parser) : result (list TyField * Parser) :=
  match Extensions v !! "x-coze-order" with
  | Some (AList order) =>
      forM (λ acc pname,
              propName ← assertString pname;
              match mjoin (Properties v !! propName) with
              | None => Ok acc
              | Some prop => appendField convert (Required v) acc propName (Some prop)
              end)
           ([], p) order
  | Some (AString _) | Some (ANumber _) | Some (ABool _) =>
      Panic "interface conversion: interface {} is not []interface {}"
  | Some ANil | None =>
      forM (λ acc '(propName, prop), appendField convert (Required v) acc propName prop)
           ([], p) (range _ (Properties v))
  end.

(** [convertSchema], lines 570-671. The new [Ty] is allocated at line 588 and
    completed in place; it enters [namedTypes] at line 665, after its fields,
    element and value types have been converted. *)
Fixpoint convertSchema (fuel : nat) (p : Parser) (schema : option SchemaRef)
    (name : string) (isNamed : bool) : result (ptr * Parser) :=
  match fuel with
  | O => OutOfFuel
  | S fuel =>
    match schema with
    | None => Err "nil schema. s=null"
    | Some (mkSchemaRef _ None) => Err "nil schema value. v=null"
    | Some (mkSchemaRef ref (Some v)) =>
      if decide (ref ≠ "") then
        let refName := getRefName ref in
        match namedTypes p !! refName with
        | Some existing => Ok (existing, p)
        | None =>
            match Components doc with
            | None => Panic "invalid memory address or nil pointer dereference"
            | Some schemas =>
                convertSchema fuel p (mjoin (schemas !! refName)) refName true
            end
        end
      else
        let t0 :=
          {| Name := name;
             Description := Choose (bool_decide (Title v ≠ "")) (Title v) (sDescription v);
             Kind := TyKindUnset; Module_ := "";
             PrimitiveKind_ := PrimitiveUnknown; EnumValues := []; Fields := [];
             ElementType := None; ValueType := None; IsNamed := isNamed |} in
        let '(ty, p) := alloc p t0 in
        match AdditionalProperties v with
        | Some ap =>
            '(valueType, p) ← wrap "failed to convert map value type: "
                                (convertSchema fuel p (Some ap) "" false);
            Ok (ty, store p ty (withValueType (withKind t0 TyKindMap) (Some valueType)))
        | None =>
            '(t, p) ←
              match Type_ v with
              | [] => Ok (t0, p)
              | ty0 :: _ =>
                if decide (ty0 = "array") then
                  match Items v with
                  | Some items =>
                      '(elementType, p) ← wrap "failed to convert array element type: "
                                            (convertSchema fuel p (Some items) "" false);
                      Ok (withElementType (withKind t0 TyKindArray) (Some elementType), p)
                  | None => Ok (withKind t0 TyKindArray, p)
                  end
                else if decide (ty0 = "object") then
                  '(fields, p) ← convertProperties (convertSchema fuel) v p;
                  Ok (withFields (withKind t0 TyKindObject) fields, p)
                else
                  evs ← convertEnum v;
                  Ok (withPrimitive (withKind t0 TyKindPrimitive)
                                    (convertPrimitiveType (Type_ v) (Format v)) evs, p)
              end;
            if isNamed then
              Ok (ty, setNamedTypes (store p ty t) (<[name := ty]> (namedTypes p)))
            else
              Ok (ty, store p ty (withDescription t ""))
        end
    end
  end.

Definition appendParam (h : HttpHandler) (loc : string) (f : TyField) : HttpHandler :=
  {| hName := hName h; hDescription := hDescription h; hPath := hPath h;
     hMethod := hMethod h; hContentType := hContentType h;
     HeaderParams := if decide (loc = "header") then HeaderParams h ++ [f] else HeaderParams h;
     PathParams := if decide (loc = "path") then PathParams h ++ [f] else PathParams h;
     QueryParams := if decide (loc = "query") then QueryParams h ++ [f] else QueryParams h;
     RequestBody := RequestBody h; ResponseBody := ResponseBody h |}.

Definition setRequest (h : HttpHandler) (body : option ptr) (ct : ContentType) : HttpHandler :=
  {| hName := hName h; hDescription := hDescription h; hPath := hPath h;
     hMethod := hMethod h; hContentType := ct;
     HeaderParams := HeaderParams h; PathParams := PathParams h;
     QueryParams := QueryParams h;
     RequestBody := body; ResponseBody := ResponseBody h |}.

Definition setResponseBody (h : HttpHandler) (body : option ptr) : HttpHandler :=
  {| hName := hName h; hDescription := hDescription h; hPath := hPath h;
     hMethod := hMethod h; hContentType := hContentType h;
     HeaderParams := HeaderParams h; PathParams := PathParams h;
     QueryParams := QueryParams h;
     RequestBody := RequestBody h; ResponseBody := body |}.

Definition setHandlerName (h : HttpHandler) (n : string) : HttpHandler :=
  {| hName := n; hDescription := hDescription h; hPath := hPath h;
     hMethod := hMethod h; hContentType := hContentType h;
     HeaderParams := HeaderParams h; PathParams := PathParams h;
     QueryParams := QueryParams h;
     RequestBody := RequestBody h; ResponseBody := ResponseBody h |}.

(** The [for ... range content] loops of lines 736 and 758 stop at the first
    entry that carries a schema. *)
Definition firstWithSchema (content : gmap string MediaType)
    : option (string * SchemaRef) :=
  head (omap (λ '(contentType, c), (λ s, (contentType, s)) <$> mtSchema c)
             (range _ content)).

(** [convertOperation], lines 697-771. *)
Definition convertOperation (fuel : nat) (p : Parser) (path method : string)
    (op : Operation) : result (HttpHandler * Parser) :=
  let handler :=
    {| hName := OperationID op; hDescription := opDescription op; hPath := path;
       hMethod := method; hContentType := ContentTypeJson;
       HeaderParams := []; PathParams := []; QueryParams := [];
       RequestBody := None; ResponseBody := None |} in
  '(handler, p) ←
    forM (λ '(handler, p) param,
            match param with
            | None => Ok (handler, p)
            | Some pv =>
                '(paramType, p) ← wrap "failed to convert parameter schema: "
                                    (convertSchema fuel p (paramSchema pv) "" false);
                Ok (appendParam handler (paramIn pv)
                      {| fName := paramName pv; fDescription := paramDescription pv;
                         fType := Some paramType; fRequired := paramRequired pv;
                         fDefault := "" |}, p)
            end)
         (handler, p) (Parameters op);
  '(handler, p) ←
    match opRequestBody op ≫= firstWithSchema with
    | Some (contentType, schema) =>
        '(requestType, p) ← wrap "failed to convert request body schema: "
                              (convertSchema fuel p (Some schema) "" false);
        Ok (setRequest handler (Some requestType)
              (if decide (contentType = "multipart/form-data") then ContentTypeFile
               else if decide (contentType = "application/json") then ContentTypeJson
               else hContentType handler), p)
    | None => Ok (handler, p)
    end;
  match Responses op !! "200" ≫= firstWithSchema with
  | Some (_, schema) =>
      '(responseType, p) ← wrap "failed to convert response schema: "
                             (convertSchema fuel p (Some schema) "" false);
      Ok (setResponseBody handler (Some responseType), p)
  | None => Ok (handler, p)
  end.

(** [processNamedTypes], lines 523-540. The [%+v] rendering of the schema in
    the error text is left out. *)
Definition processNamedTypes (fuel : nat) (p : Parser) : result Parser :=
  match Components doc with
  | None => Ok p
  | Some schemas =>
      forM (λ p '(name, schema),
              match namedTypes p !! name with
              | Some _ => Ok p
              | None =>
                  '(ty, p) ← wrap ("failed to convert schema " +:+ name +:+ ": err: ")
                               (convertSchema fuel p schema name true);
                  Ok (setNamedTypes p (<[name := ty]> (namedTypes p)))
              end)
           p (range _ schemas)
  end.

(** [strings.Join(tags, ".")]. *)
Fixpoint joinDot (tags : list string) : string :=
  match tags with
  | [] => ""
  | [t] => t
  | t :: rest => t +:+ "." +:+ joinDot rest
  end.

Definition appendHandler (m : Module) (h : HttpHandler) : Module :=
  {| mName := mName m; HttpHandlers := HttpHandlers m ++ [h]; Types := Types m |}.
Definition appendType (m : Module) (ty : ptr) : Module :=
  {| mName := mName m; HttpHandlers := HttpHandlers m; Types := Types m ++ [ty] |}.
Definition setHandlers (m : Module) (hs : list HttpHandler) : Module :=
  {| mName := mName m; HttpHandlers := hs; Types := Types m |}.
Definition setTypes (m : Module) (tys : list ptr) : Module :=
  {| mName := mName m; HttpHandlers := HttpHandlers m; Types := tys |}.

(** [processOperations], lines 543-567. *)
Definition processOperations (fuel : nat) (p : Parser) : result Parser :=
  forM (λ p '(path, pathItem),
          forM (λ p '(method, op),
                  '(handler, p) ← wrap ("failed to convert operation " +:+ OperationID op +:+ ": ")
                                    (convertOperation fuel p path method op);
                  let moduleName :=
                    if decide (0 < length (Tags op)) then joinDot (Tags op) else "default" in
                  let module :=
                    default {| mName := moduleName; HttpHandlers := []; Types := [] |}
                            (modules p !! moduleName) in
                  Ok (setModules p (<[moduleName := appendHandler module handler]> (modules p))))
               p (range _ pathItem))
       p (range _ (Paths doc)).

(** ** Rule engine (parser.go, lines 282-457)

    A rule mutates the parser in place and may return an error part-way; the
    state it leaves behind is part of its outcome. *)

Context (config : ModuleConfig).

Abbreviation outcome := (Parser * result unit)%type.

(** A loop over a slice or an enumerated map that stops at the first error,
    keeping the state reached. *)
Fixpoint forS {A} (body : Parser → A → outcome) (p : Parser) (l : list A) : outcome :=
  match l with
  | [] => (p, Ok ())
  | a :: l' =>
      match body p a with
      | (p', Ok _) => forS body p' l'
      | stop => stop
      end
  end.

Definition withR {A} (p : Parser) (r : result A) (k : A → outcome) : outcome :=
  match r with
  | Ok a => k a
  | Err e => (p, Err e)
  | Panic m => (p, Panic m)
  | OutOfFuel => (p, OutOfFuel)
  end.

(** What the caller of a rule sees: [if err := rule(); err != nil { return nil, err }]. *)
Definition checked (o : outcome) : result Parser :=
  match o.2 with
  | Ok _ => Ok o.1
  | Err e => Err e
  | Panic m => Panic m
  | OutOfFuel => OutOfFuel
  end.

(** [generateUnnamedResponseTypes], lines 283-305. *)
Definition generateUnnamedResponseTypes (p : Parser) : outcome :=
  match GenerateUnnamedResponseType config with
  | None => (p, Ok ())
  | Some generate =>
      forS (λ p '(key, module),
              forS (λ p h,
                      match ResponseBody h with
                      | None => (p, Ok ())
                      | Some rb =>
                          withR p (deref (σ p) (Some rb)) (λ t,
                            if IsNamed t then (p, Ok ())
                            else
                              let '(name, gen) := generate (σ p) h in
                              if negb gen then (p, Ok ())
                              else
                                let p := store p rb (withIsNamed (withName t name) true) in
                                let m := default module (modules p !! key) in
                                (setModules p (<[key := appendType m rb]> (modules p)), Ok ()))
                      end)
                   p (HttpHandlers module))
           p (range _ (modules p))
  end.

Definition applyModification (f : TyField) (m : FieldModification) : TyField :=
  {| fName := fName f; fDescription := fDescription f; fType := fType f;
     fRequired := match Requirement m with
                  | FieldRequirementRequired => true
                  | FieldRequirementOptional => false
                  | FieldRequirementNoChange => fRequired f
                  end;
     fDefault := if decide (Default m ≠ "") then Default m else fDefault f |}.

(** Lines 328-347: the change lands on the first field of that name. *)
Fixpoint modifyField (fields : list TyField) (fieldName : string) (m : FieldModification)
    : option (list TyField) :=
  match fields with
  | [] => None
  | f :: rest =>
      if decide (fName f = fieldName) then Some (applyModification f m :: rest)
      else (f ::.) <$> modifyField rest fieldName m
  end.

(** Lines 323-352: the modifications of one type, in enumeration order. *)
Definition changeFieldsOf (typeName : string) (ty : ptr) (p : Parser)
    (fieldModifications : list (string * option FieldModification)) : outcome :=
  forS (λ p '(fieldName, modification),
          match modification with
          | None => (p, Ok ())
          | Some m =>
              withR p (deref (σ p) (Some ty)) (λ t,
                match modifyField (Fields t) fieldName m with
                | Some fields => (store p ty (withFields t fields), Ok ())
                | None => (p, Err ("field " +:+ fieldName +:+ " not found in type "
                                   +:+ typeName))
                end)
          end)
       p fieldModifications.

(** [changeFieldRequirements], lines 308-355. *)
Definition changeFieldRequirements (p : Parser) : outcome :=
  if decide (size (ChangeFields config) = 0) then (p, Ok ())
  else
    forS (λ p '(typeName, fieldModifications),
            match namedTypes p !! typeName with
            | None => (p, Err ("type " +:+ typeName +:+ " not found"))
            | Some ty =>
                withR p (deref (σ p) (Some ty)) (λ t,
                  if decide (Kind t ≠ TyKindObject)
                  then (p, Err ("type " +:+ typeName +:+ " is not an object type"))
                  else changeFieldsOf typeName ty p (range _ fieldModifications))
            end)
         p (range _ (ChangeFields config)).

(** [strings.Compare]. *)
Definition stringsCompare (a b : string) : Z :=
  match String.compare a b with
  | Lt => (-1)%Z
  | Eq => 0%Z
  | Gt => 1%Z
  end.

(** [slices.SortStableFunc]: an element moves left past every element it is
    strictly smaller than. *)
Fixpoint insertLeft {A} (cmp : A → A → Z) (x : A) (revPrefix : list A) : list A :=
  match revPrefix with
  | [] => [x]
  | y :: rest =>
      if (cmp x y <? 0)%Z then y :: insertLeft cmp x rest else x :: y :: rest
  end.
Definition SortStableFunc {A} (cmp : A → A → Z) (l : list A) : list A :=
  rev (foldl (λ acc x, insertLeft cmp x acc) [] l).

(** Lines 370-373: a later occurrence of a name overwrites its position. *)
Definition orderMapOf (orderedNames : list string) : gmap string Z :=
  foldl (λ m '(i, name), <[name := Z.of_nat i]> m) ∅ (imap pair orderedNames).

(** The comparison function of lines 376-393. *)
Definition handlerCmp (orderMap : gmap string Z) (a b : HttpHandler) : Z :=
  match orderMap !! hName a, orderMap !! hName b with
  | Some aPos, Some bPos => (aPos - bPos)%Z
  | Some _, None => (-1)%Z
  | None, Some _ => 1%Z
  | None, None => stringsCompare (hName a) (hName b)
  end.

(** [orderHandlers], lines 358-396. *)
Definition orderHandlers (p : Parser) : outcome :=
  if decide (size (HandlerOrdering config) = 0) then (p, Ok ())
  else
    forS (λ p '(moduleName, orderedNames),
            match modules p !! moduleName with
            | None => (p, Err ("module " +:+ moduleName +:+ " not found"))
            | Some module =>
                let sorted := SortStableFunc (handlerCmp (orderMapOf orderedNames))
                                             (HttpHandlers module) in
                (setModules p (<[moduleName := setHandlers module sorted]> (modules p)), Ok ())
            end)
         p (range _ (HandlerOrdering config)).

(** The handlers of every module, rewritten in place. *)
Definition mapHandlers (f : HttpHandler → HttpHandler) (p : Parser) : Parser :=
  foldl (λ p '(key, module),
           setModules p (<[key := setHandlers module (f <$> HttpHandlers module)]> (modules p)))
        p (range _ (modules p)).

(** [changeResponseTypes], lines 399-415. *)
Definition changeResponseTypes (p : Parser) : outcome :=
  forS (λ p '(handlerName, responseType),
          match namedTypes p !! responseType with
          | None => (p, Err ("type " +:+ responseType +:+ " not found for handler "
                             +:+ handlerName))
          | Some newType =>
              (mapHandlers (λ h, if decide (hName h = handlerName)
                                 then setResponseBody h (Some newType) else h) p, Ok ())
          end)
       p (range _ (ChangeHttpHandlerResponseType config)).

(** [renameTypes], lines 418-441. *)
Definition renameTypes (p : Parser) : outcome :=
  if decide (size (RenameTypes config) = 0) then (p, Ok ())
  else
    match forS (λ p '(_, newName),
                  match namedTypes p !! newName with
                  | Some _ => (p, Err ("cannot rename to " +:+ newName
                                       +:+ ": type already exists"))
                  | None => (p, Ok ())
                  end)
               p (range _ (RenameTypes config)) with
    | (p, Ok _) =>
        (foldl (λ p '(oldName, newName),
                  match namedTypes p !! oldName with
                  | Some ty =>
                      let p := setHeap p (alter (λ t, withName t newName) ty (σ p)) in
                      setNamedTypes p (<[newName := ty]> (delete oldName (namedTypes p)))
                  | None => p
                  end)
               p (range _ (RenameTypes config)), Ok ())
    | stop => stop
    end.

(** [renameHandlers], lines 444-457. *)
Definition renameHandlers (p : Parser) : outcome :=
  if decide (size (RenameHandlers config) = 0) then (p, Ok ())
  else
    (mapHandlers (λ h, match RenameHandlers config !! hName h with
                       | Some newName => setHandlerName h newName
                       | None => h
                       end) p, Ok ()).

(** ** Dependency graph and topological sort (parser.go, lines 775-856)

    The graph is gonum's [simple.DirectedGraph]; node identifiers are the
    [int64] values handed out from [nextID]. *)

Record DirectedGraph := {
  gNodes : gset Z;
  gEdges : gset (Z * Z)
}.

Definition NewDirectedGraph : DirectedGraph := {| gNodes := ∅; gEdges := ∅ |}.

(** [AddNode] panics on an identifier that is already present. *)
Definition AddNode (g : DirectedGraph) (n : Z) : result DirectedGraph :=
  if decide (n ∈ gNodes g) then Panic "simple: node ID collision"
  else Ok {| gNodes := {[n]} ∪ gNodes g; gEdges := gEdges g |}.

(** [SetEdge] panics on a self edge and adds missing end points. *)
Definition SetEdge (g : DirectedGraph) (from to : Z) : result DirectedGraph :=
  if decide (from = to) then Panic "simple: adding self edge"
  else Ok {| gNodes := {[from; to]} ∪ gNodes g; gEdges := {[(from, to)]} ∪ gEdges g |}.

(** gonum's [topo.SortStabilized] is outside the repository. It receives the
    graph and the order used to break ties, and yields the sorted node
    identifiers or [None] for its [Unorderable] error. *)
Context (SortStabilized : DirectedGraph → (Z → Z → bool) → option (list Z)).

Record GraphState := {
  g : DirectedGraph;
  typeToID : gmap positive Z;
  idToType : gmap Z positive;
  nextID : Z
}.

Definition setGraph (s : GraphState) (g' : DirectedGraph) : GraphState :=
  {| g := g'; typeToID := typeToID s; idToType := idToType s; nextID := nextID s |}.

(** The [if id, ok := typeToID[t]; ok { g.SetEdge(...) }] of lines 813, 820, 828. *)
Definition edgeFrom (s : GraphState) (dep : ptr) (id : Z) : result GraphState :=
  match typeToID s !! dep with
  | Some depID => g' ← SetEdge (g s) depID id; Ok (setGraph s g')
  | None => Ok s
  end.

(** Lines 811-823, for one field of an object with node [id], over the
    function it calls back: the field's type, then the element type of the
    field's type. *)
Definition addField (add : GraphState → option ptr → result GraphState) (σ : heap)
    (id : Z) (s : GraphState) (field : TyField) : result GraphState :=
  s ← add s (fType field);
  match fType field with
  | None => Ok s
  | Some ft =>
      s ← edgeFrom s ft id;
      fty ← deref σ (Some ft);
      match ElementType fty with
      | None => Ok s
      | Some elem =>
          s ← add s (Some elem);
          edgeFrom s elem id
      end
  end.

(** [addTypeToGraph], lines 789-833; [σ] is only read. *)
Fixpoint addTypeToGraph (σ : heap) (fuel : nat) (s : GraphState) (ty : option ptr)
    : result GraphState :=
  match fuel with
  | O => OutOfFuel
  | S fuel =>
    match ty with
    | None => Ok s
    | Some a =>
      match typeToID s !! a with
      | Some _ => Ok s
      | None =>
        let id := nextID s in
        g' ← AddNode (g s) id;
        let s := {| g := g'; typeToID := <[a := id]> (typeToID s);
                    idToType := <[id := a]> (idToType s); nextID := (id + 1)%Z |} in
        t ← deref σ (Some a);
        match Kind t with
        | TyKindObject => forM (addField (addTypeToGraph σ fuel) σ id) s (Fields t)
        | TyKindArray =>
            match ElementType t with
            | None => Ok s
            | Some elem =>
                s ← addTypeToGraph σ fuel s (Some elem);
                edgeFrom s elem id
            end
        | _ => Ok s
        end
      end
    end
  end.

(** The order handed to the sort at lines 842-844: by type name. *)
Definition nameLess (σ : heap) (idToType : gmap Z positive) (i j : Z) : bool :=
  let nameOf id := default "" (Name <$> (idToType !! id ≫= (σ !!.))) in
  String.ltb (nameOf i) (nameOf j).

(** [topologicalSortTypes], lines 775-856. The list of cyclic components
    that ends gonum's error text is left out of the message. *)
Definition topologicalSortTypes (σ : heap) (fuel : nat) (entryTypes : list ptr)
    : result (list (option ptr)) :=
  if decide (length entryTypes = 0) then Ok []
  else
    s ← forM (λ s ty, addTypeToGraph σ fuel s (Some ty))
             {| g := NewDirectedGraph; typeToID := ∅; idToType := ∅; nextID := 1%Z |}
             entryTypes;
    match SortStabilized (g s) (nameLess σ (idToType s)) with
    | None => Err "cycle detected in type dependencies: topo: no topological ordering"
    | Some sorted => Ok ((λ id, idToType s !! id) <$> sorted)
    end.

(** ** Module assignment (parser.go, lines 859-982) *)

(** [collectFromType], lines 949-964; [deps] is the set of keys of the Go map. *)
Fixpoint collectFromType (σ : heap) (fuel : nat) (deps : gset positive) (t : option ptr)
    : result (gset positive) :=
  match fuel with
  | O => OutOfFuel
  | S fuel =>
    match t with
    | None => Ok deps
    | Some a =>
      if decide (a ∈ deps) then Ok deps
      else
        let deps := {[a]} ∪ deps in
        ty ← deref σ (Some a);
        match Kind ty with
        | TyKindObject => forM (λ deps field, collectFromType σ fuel deps (fType field))
                               deps (Fields ty)
        | TyKindArray => collectFromType σ fuel deps (ElementType ty)
        | _ => Ok deps
        end
    end
  end.

(** [collectHandlerTypes], lines 947-982. *)
Definition collectHandlerTypes (σ : heap) (fuel : nat) (handler : HttpHandler)
    (deps : gset positive) : result (gset positive) :=
  deps ← collectFromType σ fuel deps (RequestBody handler);
  deps ← collectFromType σ fuel deps (ResponseBody handler);
  deps ← forM (λ deps param, collectFromType σ fuel deps (fType param))
              deps (HeaderParams handler);
  deps ← forM (λ deps param, collectFromType σ fuel deps (fType param))
              deps (PathParams handler);
  forM (λ deps param, collectFromType σ fuel deps (fType param))
       deps (QueryParams handler).

(** [handlerDeps] is keyed by [&module.HttpHandlers[i]]: a module and an index. *)
Abbreviation HandlerDeps := (gmap (string * nat) (gset positive)).

(** [isTypeUsedInModule], lines 937-944. *)
Definition isTypeUsedInModule (ty : ptr) (key : string) (module : Module)
    (handlerDeps : HandlerDeps) : bool :=
  existsb (λ i, match handlerDeps !! (key, i) with
                | Some deps => bool_decide (ty ∈ deps)
                | None => false
                end)
          (seq 0 (length (HttpHandlers module))).

(** [slices.Compact]: runs of equal neighbours shrink to one element. *)
Fixpoint Compact {A} `{EqDecision A} (l : list A) : list A :=
  match l with
  | [] => []
  | x :: rest =>
      match rest with
      | y :: _ => if decide (x = y) then Compact rest else x :: Compact rest
      | [] => [x]
      end
  end.

(** Lines 915-917 compare the [%p] renderings of two addresses; the embedding
    takes the order of its own addresses for it. *)
Definition addrCmp (a b : ptr) : Z :=
  match Pos.compare a b with
  | Lt => (-1)%Z
  | Eq => 0%Z
  | Gt => 1%Z
  end.

(** Lines 904-912. *)
Definition entryTypesOf (hs : list HttpHandler) : list ptr :=
  hs ≫= (λ h, option_list (RequestBody h) ++ option_list (ResponseBody h)).

(** Lines 926-928: [slices.DeleteFunc] with [!ty.IsNamed]. *)
Fixpoint filterNamed (σ : heap) (l : list (option ptr)) : result (list ptr) :=
  match l with
  | [] => Ok []
  | None :: _ => Panic "invalid memory address or nil pointer dereference"
  | Some a :: rest =>
      t ← deref σ (Some a);
      r ← filterNamed σ rest;
      Ok (if IsNamed t then a :: r else r)
  end.

(** Lines 861-870: the types the configuration assigns outright. *)
Definition assignConfigured (p : Parser) : Parser :=
  foldl (λ p '(typeName, moduleName),
           match namedTypes p !! typeName with
           | Some ty =>
               let p := setHeap p (alter (λ t, withModule t moduleName) ty (σ p)) in
               match modules p !! moduleName with
               | Some module =>
                   setModules p (<[moduleName := appendType module ty]> (modules p))
               | None => p
               end
           | None => p
           end)
        p (range _ (TypeModuleMap config)).

(** Lines 873-880: the types each handler uses. *)
Definition handlerDepsOf (fuel : nat) (p : Parser) : result HandlerDeps :=
  forM (λ (hd : HandlerDeps) '(key, module),
          forM (λ (hd : HandlerDeps) '(i, h),
                  deps ← collectHandlerTypes (σ p) fuel h ∅;
                  Ok (<[(key, i) := deps]> hd))
               hd (imap pair (HttpHandlers module)))
       ∅ (range _ (modules p)).

(** Lines 883-895: an unassigned type goes to the first module using it. *)
Definition assignByUsage (handlerDeps : HandlerDeps) (p : Parser) : result Parser :=
  forM (λ p '(_, ty),
          t ← deref (σ p) (Some ty);
          if decide (Module_ t ≠ "") then Ok p
          else
            match find (λ '(key, module), isTypeUsedInModule ty key module handlerDeps)
                       (range _ (modules p)) with
            | Some (key, module) =>
                let p := setHeap p (alter (λ t, withModule t (mName module)) ty (σ p)) in
                Ok (setModules p (<[key := appendType module ty]> (modules p)))
            | None => Ok p
            end)
       p (range _ (namedTypes p)).

(** Lines 899-930, for one module: its type list is replaced by the named
    types of the sort rooted at its handlers' bodies, unless it is empty. *)
Definition sortModule (fuel : nat) (p : Parser) (entry : string * Module) : result Parser :=
  let '(key, module) := entry in
  if decide (length (Types module) = 0) then Ok p
  else
    let entryTypes := Compact (SortStableFunc addrCmp
                                 (entryTypesOf (HttpHandlers module))) in
    sortedTypes ← wrap ("cycle detected in type dependencies for module "
                        +:+ mName module +:+ ": ")
                    (topologicalSortTypes (σ p) fuel entryTypes);
    named ← filterNamed (σ p) sortedTypes;
    Ok (setModules p (<[key := setTypes module named]> (modules p))).

(** [assignTypesToModules], lines 859-934. *)
Definition assignTypesToModules (fuel : nat) (p : Parser) : result Parser :=
  let p := assignConfigured p in
  handlerDeps ← handlerDepsOf fuel p;
  p ← assignByUsage handlerDeps p;
  forM (sortModule fuel) p (range _ (modules p)).

(** [ParseOpenAPI], lines 460-515, from the loaded document on. It returns
    [p.modules]; the store is returned with it, since the modules hold
    addresses into it. *)
Definition ParseOpenAPI (fuel : nat) (p : Parser) : result (gmap string Module * heap) :=
  p ← processNamedTypes fuel p;
  p ← processOperations fuel p;
  p ← checked (generateUnnamedResponseTypes p);
  p ← checked (changeFieldRequirements p);
  p ← checked (orderHandlers p);
  p ← checked (changeResponseTypes p);
  p ← checked (renameTypes p);
  p ← checked (renameHandlers p);
  p ← assignTypesToModules fuel p;
  Ok (modules p, σ p).

End Build.

(** ** A sort meeting the contract of [topo.SortStabilized]

    Kahn's scheme over the nodes in tie-break order: the first node with no
    unsorted dependency is emitted next; when none is left to pick, the graph
    has a cycle. It instantiates the sort wherever a run is evaluated. *)

Definition noPending (edges : list (Z * Z)) (remaining : list Z) (n : Z) : bool :=
  forallb (λ '(u, v), negb (bool_decide (v = n)) || negb (bool_decide (u ∈ remaining))) edges.

Fixpoint kahnLoop (fuel : nat) (edges : list (Z * Z)) (remaining : list Z)
    : option (list Z) :=
  match remaining with
  | [] => Some []
  | _ :: _ =>
      match fuel with
      | O => None
      | S fuel =>
          match find (noPending edges remaining) remaining with
          | None => None
          | Some n => (n ::.) <$> kahnLoop fuel edges (filter (λ m, m ≠ n) remaining)
          end
      end
  end.

Definition kahnSort (g : DirectedGraph) (less : Z → Z → bool) : option (list Z) :=
  let cmp a b := if less a b then (-1)%Z else if less b a then 1%Z else 0%Z in
  let nodes := SortStableFunc cmp (elements (gNodes g)) in
  kahnLoop (length nodes) (elements (gEdges g)) nodes.

(** The two enumeration orders used when a run is evaluated. *)
Definition rangeAsc : ∀ V : Type, gmap string V → list (string * V) :=
  λ V m, map_to_list m.
Definition rangeDesc : ∀ V : Type, gmap string V → list (string * V) :=
  λ V m, reverse (map_to_list m).

(** ** Observations and specification predicates *)

(** What a renderer reads off the result: per grouping, the type names with
    their field names in order, and the handler names in order. *)
Definition typeView (σ : heap) (a : ptr) : string * list string :=
  match σ !! a with
  | Some t => (Name t, fName <$> Fields t)
  | None => ("", [])
  end.
Definition moduleView (σ : heap) (m : Module) : list (string * list string) * list string :=
  (typeView σ <$> Types m, hName <$> HttpHandlers m).
Definition observe (out : gmap string Module * heap)
    : gmap string (list (string * list string) * list string) :=
  moduleView out.2 <$> out.1.


(** Every order [range] may take enumerates each entry of the map once. *)
Definition enumerates (range : ∀ V : Type, gmap string V → list (string * V)) : Prop :=
  ∀ (V : Type) (m : gmap string V), range V m ≡ₚ map_to_list m.

(** Every registered address holds a type (Go pointers never dangle). *)
Definition registryValid (p : Parser) : Prop :=
  ∀ n a, namedTypes p !! n = Some a → is_Some (σ p !! a).






(** ** The dependency order, as the specification words it *)

(** One step of the walk: from an object to the type of one of its fields,
    from an array to its element type. *)
Inductive child (σ0 : heap) : ptr → ptr → Prop :=
| child_field a t f b :
    σ0 !! a = Some t → Kind t = TyKindObject → f ∈ Fields t → fType f = Some b →
    child σ0 a b
| child_elem a t b :
    σ0 !! a = Some t → Kind t = TyKindArray → ElementType t = Some b →
    child σ0 a b.

(** [u] stands at a smaller index than [v]. *)
Definition before {A} (l : list A) (u v : A) : Prop :=
  ∃ i j, l !! i = Some u ∧ l !! j = Some v ∧ i < j.

Definition isNamedAt (σ0 : heap) (a : ptr) : bool :=
  match σ0 !! a with
  | Some t => IsNamed t
  | None => false
  end.

(** Only arrays carry an element type (what [convertSchema] builds). *)
Definition wfHeap (σ0 : heap) : Prop :=
  ∀ a t, σ0 !! a = Some t → is_Some (ElementType t) → Kind t = TyKindArray.

(** A graph as [SetEdge] builds it: both ends of an edge are nodes. *)
Definition closedGraph (g0 : DirectedGraph) : Prop :=
  ∀ u v, (u, v) ∈ gEdges g0 → u ∈ gNodes g0 ∧ v ∈ gNodes g0.

(** The contract of [topo.SortStabilized]: when it returns no error, the
    result lists every node once and every edge runs from an earlier node to
    a later one. *)
Definition sortContract (sorter : DirectedGraph → (Z → Z → bool) → option (list Z)) : Prop :=
  ∀ g0 less sorted, closedGraph g0 → sorter g0 less = Some sorted →
    NoDup sorted ∧ (∀ n, n ∈ sorted ↔ n ∈ gNodes g0) ∧
    (∀ u v, (u, v) ∈ gEdges g0 → before sorted u v).

(** Invariants of the graph under construction in [topologicalSortTypes]. *)
Record graphWF (s : GraphState) : Prop := {
  wf_to_from : ∀ a id, typeToID s !! a = Some id → idToType s !! id = Some a;
  wf_from_to : ∀ a id, idToType s !! id = Some a → typeToID s !! a = Some id;
  wf_nodes : ∀ id, id ∈ gNodes (g s) ↔ is_Some (idToType s !! id);
  wf_closed : closedGraph (g s);
  wf_fresh : ∀ id, is_Some (idToType s !! id) → (id < nextID s)%Z
}.

Definition gext (s s' : GraphState) : Prop :=
  typeToID s ⊆ typeToID s' ∧ gEdges (g s) ⊆ gEdges (g s').

(** Every dependency of [b] is in the graph, with its edge into [b]. *)
Definition complete (σ0 : heap) (s : GraphState) (b : ptr) : Prop :=
  ∀ c, child σ0 b c →
    ∃ idb idc, typeToID s !! b = Some idb ∧ typeToID s !! c = Some idc ∧
               (idc, idb) ∈ gEdges (g s).

(** What [addTypeToGraph] has achieved when it returns: the root is in the
    graph, and every node it added has all its dependencies and their edges
    and is reached from the root. *)
Definition addPost (σ0 : heap) (root : option ptr) (s s' : GraphState) : Prop :=
  graphWF s' ∧ gext s s' ∧
  (∀ a, root = Some a → is_Some (typeToID s' !! a)) ∧
  (∀ b, is_Some (typeToID s' !! b) → typeToID s !! b = None →
        complete σ0 s' b ∧ (wfHeap σ0 → ∃ a, root = Some a ∧ rtc (child σ0) a b)).

(** The string held by a value of an [x-coze-order] list. *)
Definition asString (a : Any) : option string :=
  match a with
  | AString s => Some s
  | _ => None
  end.

(** ** Sample inputs *)

Definition inlineSchema (ty : list string) (props : gmap string (option SchemaRef))
    (items : option SchemaRef) (ext : gmap string Any) : SchemaRef :=
  mkSchemaRef "" (Some (mkSchema "" "" ty "" items props [] None [] ext)).
Definition refTo (n : string) : SchemaRef :=
  mkSchemaRef ("#/components/schemas/" +:+ n)
              (Some (mkSchema "" "" [] "" None ∅ [] None [] ∅)).
Definition primSchema (t : string) : SchemaRef := inlineSchema [t] ∅ None ∅.

Definition emptyConfig : ModuleConfig :=
  {| TypeModuleMap := ∅; GenerateUnnamedResponseType := None;
     ChangeHttpHandlerResponseType := ∅; RenameTypes := ∅; RenameHandlers := ∅;
     ChangeFields := ∅; HandlerOrdering := ∅ |}.

Definition mkField (n : string) (ty : ptr) : TyField :=
  {| fName := n; fDescription := ""; fType := Some ty; fRequired := false; fDefault := "" |}.
Definition objTy (n : string) (named : bool) (fs : list TyField) : Ty :=
  {| Name := n; Description := ""; Kind := TyKindObject; Module_ := "";
     PrimitiveKind_ := PrimitiveUnknown; EnumValues := []; Fields := fs;
     ElementType := None; ValueType := None; IsNamed := named |}.
Definition arrTy (elem : ptr) : Ty :=
  {| Name := ""; Description := ""; Kind := TyKindArray; Module_ := "";
     PrimitiveKind_ := PrimitiveUnknown; EnumValues := []; Fields := [];
     ElementType := Some elem; ValueType := None; IsNamed := false |}.
Definition primTy (k : PrimitiveKind) : Ty :=
  {| Name := ""; Description := ""; Kind := TyKindPrimitive; Module_ := "";
     PrimitiveKind_ := k; EnumValues := []; Fields := [];
     ElementType := None; ValueType := None; IsNamed := false |}.
Definition getHandler (n : string) (query : list TyField) (resp : option ptr) : HttpHandler :=
  {| hName := n; hDescription := ""; hPath := "/" +:+ n; hMethod := "GET";
     hContentType := ContentTypeJson; HeaderParams := []; PathParams := [];
     QueryParams := query; RequestBody := None; ResponseBody := resp |}.

(** A status-only response [{code, msg}] at address 1. *)
Definition statusHeap : heap :=
  {[ 1%positive := objTy "" false [mkField "code" 2; mkField "msg" 3];
     2%positive := primTy PrimitiveInt;
     3%positive := primTy PrimitiveString ]}.
Definition statusHandler : HttpHandler := getHandler "Ping" [] (Some 1%positive).

(** [{code, data: {items: [Item], total}}] at address 1, [Item] at address 6. *)
Definition pagedHeap : heap :=
  {[ 1%positive := objTy "ListResp" true [mkField "code" 2; mkField "data" 3];
     2%positive := primTy PrimitiveInt;
     3%positive := objTy "ListData" true [mkField "items" 4; mkField "total" 5];
     4%positive := arrTy 6;
     5%positive := primTy PrimitiveInt;
     6%positive := objTy "Item" true [mkField "id" 7];
     7%positive := primTy PrimitiveString ]}.
Definition pagedHandler : HttpHandler :=
  getHandler "ListItems" [mkField "page_num" 5; mkField "page_size" 5] (Some 1%positive).
Definition pagedHandler3 : HttpHandler :=
  getHandler "ListItems"
             [mkField "page_index" 5; mkField "page_num" 5; mkField "page_size" 5]
             (Some 1%positive).

(** An operation whose request body is declared as [text/plain]. *)
Definition textPlainOp : Operation :=
  {| OperationID := "PostNote"; opDescription := ""; Tags := [];
     Parameters := [];
     opRequestBody := Some {[ "text/plain" := {| mtSchema := Some (primSchema "string") |} ]};
     Responses := ∅ |}.
Definition emptyDocument : Document := {| Components := None; Paths := ∅ |}.

(** A registry with [Bot] at address 1 and [BotInfo] at address 3. *)
Definition botParser : Parser :=
  {| σ := {[ 1%positive := objTy "Bot" true [mkField "id" 2; mkField "name" 2];
             2%positive := primTy PrimitiveString;
             3%positive := objTy "BotInfo" true [mkField "id" 2] ]};
     nextPtr := 4%positive;
     namedTypes := {[ "Bot" := 1%positive; "BotInfo" := 3%positive ]};
     modules := ∅ |}.
Definition collidingRename : ModuleConfig :=
  {| TypeModuleMap := ∅; GenerateUnnamedResponseType := None;
     ChangeHttpHandlerResponseType := ∅;
     RenameTypes := {[ "BotInfo" := "Bot" ]};
     RenameHandlers := ∅; ChangeFields := ∅; HandlerOrdering := ∅ |}.
Definition requireField : FieldModification :=
  {| Requirement := FieldRequirementRequired; Default := "" |}.
(** [Bot.id] exists, [Bot.owner] does not. *)
Definition halfValidChange : ModuleConfig :=
  {| TypeModuleMap := ∅; GenerateUnnamedResponseType := None;
     ChangeHttpHandlerResponseType := ∅; RenameTypes := ∅; RenameHandlers := ∅;
     ChangeFields := {[ "Bot" := {[ "id" := Some requireField;
                                    "owner" := Some requireField ]} ]};
     HandlerOrdering := ∅ |}.

(** A component that refers to itself: [Node { next: $ref Node }]. *)
Definition nodeSchema : SchemaRef :=
  inlineSchema ["object"] {[ "next" := Some (refTo "Node") ]} None ∅.
Definition selfDocument : Document :=
  {| Components := Some {[ "Node" := Some nodeSchema ]}; Paths := ∅ |}.

(** Two components that refer to each other, [A { b: $ref B }] and
    [B { a: $ref A }], and an operation answering with [A]. *)
Definition schemaA : SchemaRef :=
  inlineSchema ["object"] {[ "b" := Some (refTo "B") ]} None ∅.
Definition schemaB : SchemaRef :=
  inlineSchema ["object"] {[ "a" := Some (refTo "A") ]} None ∅.
Definition getA : Operation :=
  {| OperationID := "GetA"; opDescription := ""; Tags := ["things"];
     Parameters := []; opRequestBody := None;
     Responses := {[ "200" := {[ "application/json" := {| mtSchema := Some (refTo "A") |} ]} ]} |}.
Definition mutualDocument : Document :=
  {| Components := Some {[ "A" := Some schemaA; "B" := Some schemaB ]};
     Paths := {[ "/a" := {[ "GET" := getA ]} ]} |}.

(** The paged listing as a parser state: one grouping [items] whose handler
    answers with [ListResp]; [Orphan], at address 8, is registered but used
    by no handler. *)
Definition pagedParser : Parser :=
  {| σ := <[8%positive := objTy "Orphan" true [mkField "id" 7]]> pagedHeap;
     nextPtr := 9%positive;
     namedTypes := {[ "ListResp" := 1%positive; "ListData" := 3%positive;
                      "Item" := 6%positive; "Orphan" := 8%positive ]};
     modules := {[ "items" := {| mName := "items"; HttpHandlers := [pagedHandler];
                                 Types := [] |} ]} |}.
(** The configuration puts [Orphan] into [items]. *)
Definition orphanConfig : ModuleConfig :=
  {| TypeModuleMap := {[ "Orphan" := "items" ]}; GenerateUnnamedResponseType := None;
     ChangeHttpHandlerResponseType := ∅; RenameTypes := ∅; RenameHandlers := ∅;
     ChangeFields := ∅; HandlerOrdering := ∅ |}.
Definition pagedSorted : Parser :=
  match assignTypesToModules rangeAsc orphanConfig kahnSort 20 pagedParser with
  | Ok q => q
  | _ => pagedParser
  end.
Definition itemsModule : Module :=
  default {| mName := ""; HttpHandlers := []; Types := [] |} (modules pagedSorted !! "items").

(** The paged listing as a document: [GET /items] answers with
    [ListResp { code, data: ListData { items: [Item], total } }]; no object
    declares [x-coze-order]. *)
Definition queryParam (n : string) : option OpParameter :=
  Some {| paramName := n; paramIn := "query"; paramDescription := "";
          paramRequired := false; paramSchema := Some (primSchema "integer") |}.
Definition listItems : Operation :=
  {| OperationID := "ListItems"; opDescription := ""; Tags := ["items"];
     Parameters := [queryParam "page_num"; queryParam "page_size"];
     opRequestBody := None;
     Responses := {[ "200" := {[ "application/json" :=
                                   {| mtSchema := Some (refTo "ListResp") |} ]} ]} |}.
Definition pagedDocument : Document :=
  {| Components :=
       Some {[ "Item" := Some (inlineSchema ["object"]
                                 {[ "id" := Some (primSchema "string");
                                    "name" := Some (primSchema "string") ]} None ∅);
               "ListData" := Some (inlineSchema ["object"]
                                     {[ "items" := Some (inlineSchema ["array"] ∅
                                                           (Some (refTo "Item")) ∅);
                                        "total" := Some (primSchema "integer") ]} None ∅);
               "ListResp" := Some (inlineSchema ["object"]
                                     {[ "code" := Some (primSchema "integer");
                                        "data" := Some (refTo "ListData") ]} None ∅) ]};
     Paths := {[ "/items" := {[ "GET" := listItems ]} ]} |}.

(** Two groupings, [bots] and [chats], whose handlers both answer with the
    component [Shared]. *)
Definition getShared (id tag : string) : Operation :=
  {| OperationID := id; opDescription := ""; Tags := [tag];
     Parameters := []; opRequestBody := None;
     Responses := {[ "200" := {[ "application/json" :=
                                   {| mtSchema := Some (refTo "Shared") |} ]} ]} |}.
Definition sharedDocument : Document :=
  {| Components :=
       Some {[ "Shared" := Some (inlineSchema ["object"]
                                   {[ "id" := Some (primSchema "string") ]} None ∅) ]};
     Paths := {[ "/bots" := {[ "GET" := getShared "GetBot" "bots" ]};
                 "/chats" := {[ "GET" := getShared "GetChat" "chats" ]} ]} |}.

Definition pagedRunAsc : gmap string Module * heap :=
  match ParseOpenAPI rangeAsc pagedDocument emptyConfig kahnSort 20 NewParser with
  | Ok out => out
  | _ => (∅, ∅)
  end.
Definition pagedRunDesc : gmap string Module * heap :=
  match ParseOpenAPI rangeDesc pagedDocument emptyConfig kahnSort 20 NewParser with
  | Ok out => out
  | _ => (∅, ∅)
  end.

Definition pagedItems : Module :=
  default {| mName := ""; HttpHandlers := []; Types := [] |} (pagedRunAsc.1 !! "items").

(** An object that declares its field order. *)
Definition orderedSchema : Schema :=
  mkSchema "" "" ["object"] "" None
           {[ "id" := Some (primSchema "string"); "name" := Some (primSchema "string") ]}
           [] None []
           {[ "x-coze-order" := AList [AString "name"; AString "missing"; AString "id"] ]}.

(** Two object types in the store, each with a field of the other's type. *)
Definition cyclicHeap : heap :=
  {[ 1%positive := objTy "A" true [mkField "b" 2];
     2%positive := objTy "B" true [mkField "a" 1] ]}.

(** [Bot.owner] does not exist and its modification is nil. *)
Definition nilChange : ModuleConfig :=
  {| TypeModuleMap := ∅; GenerateUnnamedResponseType := None;
     ChangeHttpHandlerResponseType := ∅; RenameTypes := ∅; RenameHandlers := ∅;
     ChangeFields := {[ "Bot" := {[ "owner" := None ]} ]};
     HandlerOrdering := ∅ |}.

(** A grouping with the handlers [Zebra, Alpha, Beta], to be ordered
    [Beta, Alpha]. *)
Definition zooParser : Parser :=
  {| σ := ∅; nextPtr := 1%positive; namedTypes := ∅;
     modules := {[ "zoo" := {| mName := "zoo";
                               HttpHandlers := [getHandler "Zebra" [] None;
                                                getHandler "Alpha" [] None;
                                                getHandler "Beta" [] None];
                               Types := [] |} ]} |}.
Definition zooOrdering : ModuleConfig :=
  {| TypeModuleMap := ∅; GenerateUnnamedResponseType := None;
     ChangeHttpHandlerResponseType := ∅; RenameTypes := ∅; RenameHandlers := ∅;
     ChangeFields := ∅; HandlerOrdering := {[ "zoo" := ["Beta"; "Alpha"] ]} |}.

(** ** Specification predicates for the rest of the parser *)

(** Whether a string holds a slash, the separator [getRefName] splits at. *)
Fixpoint hasSlash (s : string) : bool :=
  match s with
  | EmptyString => false
  | String c r => Ascii.eqb c "/"%char || hasSlash r
  end.

(** Lines 140-146: the candidates [GetPageInfo] tries, the defaults when
    the caller passes none. *)
Definition candidatesOr (given defaults : list string) : list string :=
  if decide (length given = 0) then defaults else given.

(** Every address in use was handed out by [alloc]. *)
Definition allocated (p : Parser) : Prop :=
  ∀ a, is_Some (σ p !! a) → (a < nextPtr p)%positive.

(** What a conversion leaves alone: the modules, every type that existed
    before it started, and every registered name. *)
Definition frameOf (p q : Parser) : Prop :=
  modules q = modules p ∧ (nextPtr p ≤ nextPtr q)%positive ∧
  (∀ a, (a < nextPtr p)%positive → σ q !! a = σ p !! a) ∧
  (∀ a, is_Some (σ p !! a) → is_Some (σ q !! a)) ∧
  (∀ n, is_Some (namedTypes p !! n) → is_Some (namedTypes q !! n)).

Definition extends (p q : Parser) : Prop :=
  frameOf p q ∧ (allocated p → allocated q) ∧ (registryValid p → registryValid q).

(** The parameters an operation declares at one location, in order. *)
Definition declaredParams (loc : string) (op : Operation) : list OpParameter :=
  filter (λ pv, paramIn pv = loc) (omap id (Parameters op)).

(** A handler parameter as [convertOperation] builds it from a declared one. *)
Definition fieldOfParam (f : TyField) (pv : OpParameter) : Prop :=
  fName f = paramName pv ∧ fDescription f = paramDescription pv ∧
  fRequired f = paramRequired pv ∧ fDefault f = "" ∧ is_Some (fType f).

(** Lines 552-555: the module an operation goes to. *)
Definition moduleNameOf (op : Operation) : string :=
  if decide (0 < length (Tags op)) then joinDot (Tags op) else "default".

(** The handler of the operation [op] found at [path] under [method]. *)
Definition handlerOf (h : HttpHandler) (path method : string) (op : Operation) : Prop :=
  hName h = OperationID op ∧ hDescription h = opDescription op ∧
  hPath h = path ∧ hMethod h = method.

(** A handler that stems from an operation of the document tagged for the
    module [key]. *)
Definition fromOperation (doc : Document) (key : string) (h : HttpHandler) : Prop :=
  ∃ path item method op,
    Paths doc !! path = Some item ∧ item !! method = Some op ∧
    handlerOf h path method op ∧ moduleNameOf op = key.

(** A module as [processOperations] leaves it: the handlers it had in [p],
    followed by handlers of operations tagged for it; its types and name are
    as before (a new module is named by its key). *)
Definition moduleGrown (doc : Document) (p : Parser) (key : string) (m' : Module) : Prop :=
  ∃ new, HttpHandlers m' = default [] (HttpHandlers <$> modules p !! key) ++ new ∧
         Forall (fromOperation doc key) new ∧
         Types m' = default [] (Types <$> modules p !! key) ∧
         mName m' = default key (mName <$> modules p !! key).

(** ** Termination of the conversion

    [unfolds doc n s]: the schema [s], with every reference replaced by the
    component it names, is nested at most [n] levels deep along the parts
    [convertSchema] descends into. No [n] exists for a component that
    reaches itself through references. *)
Fixpoint unfolds (doc : Document) (n : nat) (s : option SchemaRef) : Prop :=
  match n with
  | O => False
  | S n =>
    match s with
    | None | Some (mkSchemaRef _ None) => True
    | Some (mkSchemaRef ref (Some v)) =>
      if decide (ref ≠ "") then
        match Components doc with
        | None => True
        | Some schemas => unfolds doc n (mjoin (schemas !! getRefName ref))
        end
      else
        match AdditionalProperties v with
        | Some ap => unfolds doc n (Some ap)
        | None =>
          match Type_ v with
          | [] => True
          | ty0 :: _ =>
            if decide (ty0 = "array") then
              match Items v with
              | Some items => unfolds doc n (Some items)
              | None => True
              end
            else if decide (ty0 = "object") then
              map_Forall (λ _ prop, unfolds doc n prop) (Properties v)
            else True
          end
        end
    end
  end.

(** The schemas [convertOperation] may convert for one operation. *)
Definition opUnfolds (doc : Document) (n : nat) (op : Operation) : Prop :=
  Forall (λ param, match param with
                   | Some pv => unfolds doc n (paramSchema pv)
                   | None => True
                   end) (Parameters op)
  ∧ match opRequestBody op with
    | Some content => map_Forall (λ _ mt, unfolds doc n (mtSchema mt)) content
    | None => True
    end
  ∧ match Responses op !! "200" with
    | Some content => map_Forall (λ _ mt, unfolds doc n (mtSchema mt)) content
    | None => True
    end.

(** Every schema of the document unfolds within [n] levels. *)
Definition docUnfolds (doc : Document) (n : nat) : Prop :=
  match Components doc with
  | Some schemas => map_Forall (λ _ s, unfolds doc n s) schemas
  | None => True
  end
  ∧ map_Forall (λ _ item, map_Forall (λ _ op, opUnfolds doc n op) item) (Paths doc).

#[global] Instance unfolds_dec doc n s : Decision (unfolds doc n s).
Proof.
  revert s. induction n as [|n IH]; intros s; simpl; [apply _|].
  destruct s as [[ref [v|]]|]; try apply _.
  destruct (decide (ref ≠ "")); [destruct (Components doc); apply _|].
  destruct (AdditionalProperties v); [apply _|].
  destruct (Type_ v) as [|ty0 rest]; [apply _|].
  destruct (decide (ty0 = "array")); [destruct (Items v); apply _|].
  destruct (decide (ty0 = "object")); apply _.
Defined.

#[global] Instance opUnfolds_dec doc n op : Decision (opUnfolds doc n op).
Proof.
  unfold opUnfolds. apply and_dec; [|apply and_dec].
  - apply Forall_dec. intros [pv|]; apply _.
  - destruct (opRequestBody op); apply _.
  - destruct (Responses op !! "200"); apply _.
Defined.

#[global] Instance docUnfolds_dec doc n : Decision (docUnfolds doc n).
Proof.
  unfold docUnfolds. apply and_dec; [destruct (Components doc); apply _|apply _].
Defined.

(** [r2] is [r1] unless [r1] ran out of fuel. *)
Definition fuelLe {A} (r1 r2 : result A) : Prop := r1 ≠ OutOfFuel → r2 = r1.

(** The operations of the document in the order [processOperations] meets
    them: the paths as the run enumerates them and, within a path, its
    methods as the run enumerates them. *)
Definition operationsOf (range : ∀ V : Type, gmap string V → list (string * V))
    (doc : Document) : list (string * string * Operation) :=
  range _ (Paths doc) ≫=
    (λ '(path, item), (λ '(method, op), (path, method, op)) <$> range _ item).

(** Lines 546-563: one operation, from its conversion to its place at the
    end of its module's handlers. *)
Definition operationStep (range : ∀ V : Type, gmap string V → list (string * V))
    (doc : Document) (fuel : nat) (p : Parser) (e : string * string * Operation)
    : result Parser :=
  let '(path, method, op) := e in
  '(handler, p) ← wrap ("failed to convert operation " +:+ OperationID op +:+ ": ")
                    (convertOperation range doc fuel p path method op);
  let moduleName :=
    if decide (0 < length (Tags op)) then joinDot (Tags op) else "default" in
  let module :=
    default {| mName := moduleName; HttpHandlers := []; Types := [] |}
            (modules p !! moduleName) in
  Ok (setModules p (<[moduleName := appendHandler module handler]> (modules p))).

(** Two runs of the build on one document and one configuration, each
    enumerating maps in an order of its own. *)
Definition twoRuns (doc : Document) (config : ModuleConfig)
    (out1 out2 : gmap string Module * heap) : Prop :=
  ∃ (range1 range2 : ∀ V : Type, gmap string V → list (string * V))
    (sorter : DirectedGraph → (Z → Z → bool) → option (list Z)) (fuel : nat),
    enumerates range1 ∧ enumerates range2 ∧ sortContract sorter ∧
    ParseOpenAPI range1 doc config sorter fuel NewParser = Ok out1 ∧
    ParseOpenAPI range2 doc config sorter fuel NewParser = Ok out2.

(** One grouping, [bots], with two handlers on two paths. *)
Definition pairedDocument : Document :=
  {| Components :=
       Some {[ "Shared" := Some (inlineSchema ["object"]
                                   {[ "id" := Some (primSchema "string") ]} None ∅) ]};
     Paths := {[ "/bots" := {[ "GET" := getShared "GetBot" "bots" ]};
                 "/chats" := {[ "GET" := getShared "GetChat" "bots" ]} ]} |}.

Definition runOf (range : ∀ V : Type, gmap string V → list (string * V))
    (doc : Document) : gmap string Module * heap :=
  match ParseOpenAPI range doc emptyConfig kahnSort 20 NewParser with
  | Ok out => out
  | _ => (∅, ∅)
  end.

Definition is_Ok {A} (r : result A) : bool :=
  match r with Ok _ => true | _ => false end.

Definition orderedRun : ptr * Parser :=
  match convertSchema rangeDesc emptyDocument 5 NewParser
          (Some (mkSchemaRef "" (Some orderedSchema))) "Bot" true with
  | Ok r => r
  | _ => (1%positive, NewParser)
  end.

(** The handler of the grouping [items] after the build of the paged listing. *)
Definition pagedItemsHandler : HttpHandler :=
  Eval vm_compute in default (getHandler "" [] None) (head (HttpHandlers pagedItems)).

(** The sort of the paged listing, entered at [ListResp]. *)
Definition pagedSortedTypes : list (option ptr) :=
  Eval vm_compute in
    match topologicalSortTypes kahnSort pagedHeap 20 [1%positive] with
    | Ok l => l
    | _ => []
    end.

(** ** Specification predicates for the rules *)

(** Two parser states with the same store, registry and groupings, where a
    grouping of the second has its handlers in another order. *)
Definition reordered (p p' : Parser) : Prop :=
  σ p' = σ p ∧ namedTypes p' = namedTypes p ∧ nextPtr p' = nextPtr p ∧
  ∀ key, match modules p !! key, modules p' !! key with
         | Some m, Some m' =>
             HttpHandlers m' ≡ₚ HttpHandlers m ∧ Types m' = Types m ∧ mName m' = mName m
         | None, None => True
         | _, _ => False
         end.

(** Lines 451-453: the new name of one handler. *)
Definition renamedHandler (config : ModuleConfig) (h : HttpHandler) : HttpHandler :=
  match RenameHandlers config !! hName h with
  | Some newName => setHandlerName h newName
  | None => h
  end.

(** A grouping with every handler rewritten by [f]. *)
Definition mapModule (f : HttpHandler → HttpHandler) (m : Module) : Module :=
  setHandlers m (f <$> HttpHandlers m).

(** Lines 400-413: the handler after [changeResponseTypes], when every
    type the map names is registered. *)
Definition retypedHandler (config : ModuleConfig) (p : Parser) (h : HttpHandler)
    : HttpHandler :=
  match ChangeHttpHandlerResponseType config !! hName h with
  | Some responseType => setResponseBody h (namedTypes p !! responseType)
  | None => h
  end.

(** [Alpha] and [Beta] trade names. *)
Definition zooRename : ModuleConfig :=
  {| TypeModuleMap := ∅; GenerateUnnamedResponseType := None;
     ChangeHttpHandlerResponseType := ∅; RenameTypes := ∅;
     RenameHandlers := {[ "Alpha" := "Beta"; "Beta" := "Alpha" ]};
     ChangeFields := ∅; HandlerOrdering := ∅ |}.

(** The handler of [items] is to answer with [Item]. *)
Definition itemResponse : ModuleConfig :=
  {| TypeModuleMap := ∅; GenerateUnnamedResponseType := None;
     ChangeHttpHandlerResponseType := {[ "ListItems" := "Item" ]}; RenameTypes := ∅;
     RenameHandlers := ∅; ChangeFields := ∅; HandlerOrdering := ∅ |}.

(** * Properties *)

(** ** The result monad *)

Lemma bind_Ok {A B} (r : result A) (f : A → result B) (b : B) :
  r ≫= f = Ok b → ∃ a, r = Ok a ∧ f a = Ok b.
Proof. destruct r; simpl; intros; try discriminate; eauto. Qed.

Lemma wrap_Ok {A} pre (r : result A) a : wrap pre r = Ok a → r = Ok a.
Proof. by destruct r. Qed.

Lemma deref_Some (σ0 : heap) a t : σ0 !! a = Some t → deref σ0 (Some a) = Ok t.
Proof. intros H; simpl; by rewrite H. Qed.

Lemma deref_Ok (σ0 : heap) p t : deref σ0 p = Ok t → ∃ a, p = Some a ∧ σ0 !! a = Some t.
Proof.
  destruct p as [a|]; simpl; [|done].
  destruct (σ0 !! a) eqn:E; [|done]. intros [= ->]; eauto.
Qed.

(** ** Envelope unwrap *)

Lemma find_data_first (pre post : list TyField) f :
  fName f = "data" → Forall (λ g, fName g ≠ "data") pre →
  find (λ f, bool_decide (fName f = "data")) (pre ++ f :: post) = Some f.
Proof.
  intros Hf Hpre. induction Hpre as [|g pre Hg _ IH]; simpl.
  - by rewrite bool_decide_true.
  - by rewrite bool_decide_false.
Qed.

Lemma find_data_none (fs : list TyField) :
  Forall (λ g, fName g ≠ "data") fs →
  find (λ f, bool_decide (fName f = "data")) fs = None.
Proof.
  induction 1 as [|g fs Hg _ IH]; simpl; [done|]. by rewrite bool_decide_false.
Qed.

Lemma GetActualResponseBody_object (σ0 : heap) (h : HttpHandler) (rp : ptr) (t : Ty) :
  ResponseBody h = Some rp → σ0 !! rp = Some t → Kind t = TyKindObject →
  GetActualResponseBody σ0 h =
    match find (λ f, bool_decide (fName f = "data")) (Fields t) with
    | Some f => Ok (fType f)
    | None => Ok None
    end.
Proof.
  intros Hrb Ht Hk. unfold GetActualResponseBody. rewrite Hrb.
  rewrite (deref_Some _ _ _ Ht). simpl. rewrite Hk.
  by destruct (decide (TyKindObject ≠ TyKindObject)).
Qed.

Lemma GetActualResponseBody_data (σ0 : heap) (h : HttpHandler) (rp : ptr) (t : Ty)
    (pre post : list TyField) (f : TyField) :
  ResponseBody h = Some rp → σ0 !! rp = Some t → Kind t = TyKindObject →
  Fields t = pre ++ f :: post → fName f = "data" →
  Forall (λ g, fName g ≠ "data") pre →
  GetActualResponseBody σ0 h = Ok (fType f).
Proof.
  intros Hrb Ht Hk Hfs Hf Hpre.
  rewrite (GetActualResponseBody_object σ0 h rp t Hrb Ht Hk), Hfs.
  by rewrite find_data_first.
Qed.

(** C2, as the code has it: on an object response the unwrap yields the type
    of the first field named [data]; with no such field it yields nil, and
    not the declared response body. *)
Theorem GetActualResponseBody_spec (σ0 : heap) (h : HttpHandler) (rp : ptr) (t : Ty) :
  ResponseBody h = Some rp → σ0 !! rp = Some t → Kind t = TyKindObject →
  (∀ pre f post, Fields t = pre ++ f :: post → fName f = "data" →
     Forall (λ g, fName g ≠ "data") pre →
     GetActualResponseBody σ0 h = Ok (fType f))
  ∧ (Forall (λ g, fName g ≠ "data") (Fields t) → GetActualResponseBody σ0 h = Ok None).
Proof.
  intros Hrb Ht Hk. split.
  - intros pre f post Hfs Hf Hpre. by eapply GetActualResponseBody_data.
  - intros Hall. rewrite (GetActualResponseBody_object σ0 h rp t Hrb Ht Hk).
    by rewrite find_data_none.
Qed.

Lemma GetActualResponseBody_spec_witness :
  GetActualResponseBody pagedHeap pagedHandler = Ok (Some 3%positive)
  ∧ GetActualResponseBody statusHeap statusHandler = Ok None.
Proof.
  split.
  - eapply (proj1 (GetActualResponseBody_spec pagedHeap pagedHandler 1%positive
                     (objTy "ListResp" true [mkField "code" 2; mkField "data" 3])
                     eq_refl eq_refl eq_refl)
              [mkField "code" 2] (mkField "data" 3) []); [done|done|].
    repeat constructor; done.
  - apply (proj2 (GetActualResponseBody_spec statusHeap statusHandler 1%positive
                    (objTy "" false [mkField "code" 2; mkField "msg" 3])
                    eq_refl eq_refl eq_refl)).
    repeat constructor; done.
Defined.

(** C2, as stated, fails: a response body without a [data] field does not
    unwrap to itself. *)
Lemma GetActualResponseBody_no_data_counterexample :
  ¬ (∀ (σ0 : heap) (h : HttpHandler) (rp : ptr) (t : Ty),
       ResponseBody h = Some rp → σ0 !! rp = Some t →
       Forall (λ g, fName g ≠ "data") (Fields t) →
       GetActualResponseBody σ0 h = Ok (Some rp)).
Proof.
  intros H.
  specialize (H statusHeap statusHandler 1%positive
                (objTy "" false [mkField "code" 2; mkField "msg" 3]) eq_refl eq_refl).
  assert (Hall : Forall (λ g, fName g ≠ "data")
                        (Fields (objTy "" false [mkField "code" 2; mkField "msg" 3])))
    by (repeat constructor; done).
  specialize (H Hall). vm_compute in H. discriminate H.
Qed.

(** ** Pagination detection *)

Lemma firstArrayField_first (σ0 : heap) (pre post : list TyField) f ap aty :
  Forall (λ g, ∃ q tq, fType g = Some q ∧ σ0 !! q = Some tq ∧ Kind tq ≠ TyKindArray) pre →
  fType f = Some ap → σ0 !! ap = Some aty → Kind aty = TyKindArray →
  firstArrayField σ0 (pre ++ f :: post) = Ok (Some aty).
Proof.
  intros Hpre Hf Hap Hk. induction Hpre as [|g pre (q & tq & Hg & Hq & Hnk) _ IH]; simpl.
  - rewrite Hf. simpl. rewrite Hap. simpl. by rewrite decide_True.
  - rewrite Hg. simpl. rewrite Hq. simpl. by rewrite decide_False.
Qed.

Lemma GetPageInfo_names_differ (σ0 : heap) h ic sc pi :
  GetPageInfo σ0 h ic sc = Ok (Some pi) → PageIndexName pi ≠ PageSizeName pi.
Proof.
  unfold GetPageInfo.
  set (ic' := if decide (length ic = 0) then _ else ic).
  set (sc' := if decide (length sc = 0) then _ else sc).
  destruct (decide (hMethod h ≠ "GET")); [done|].
  set (names := list_to_set (fName <$> QueryParams h) : gset string).
  set (pageIndex := default "" (find _ ic')).
  destruct (find (λ c, bool_decide (c ∈ names) && bool_decide (c ≠ pageIndex)) sc')
    as [c|] eqn:Hfind; simpl.
  - apply find_some in Hfind as [_ Hc].
    apply andb_prop in Hc as [_ Hne]. apply bool_decide_eq_true in Hne.
    destruct (decide (pageIndex = "" ∨ c = "")); [done|].
    destruct (GetActualResponseBody σ0 h) as [[ab|]| | |]; simpl; try done.
    destruct (σ0 !! ab); simpl; [|done].
    destruct (decide (Kind _ ≠ TyKindObject)); [done|].
    destruct (firstArrayField σ0 _) as [[a|]| | |]; simpl; try done.
    intros [= <-]; simpl. congruence.
  - destruct (decide (pageIndex = "" ∨ "" = "")) as [_|Hn]; [done|].
    exfalso; apply Hn; by right.
Qed.

(** C9, as the code has it: a GET handler whose query parameters include
    [page_num] and [page_size] but not [page_index], and whose response is an
    object whose first [data] field is an object whose first array-typed
    field has element type [ItemType], is paginated with that element type,
    index [page_num] and size [page_size]; and whatever the candidate lists,
    the size name found is never the name chosen for the index. *)
Theorem GetPageInfo_example (σ0 : heap) (h : HttpHandler) (rp dp ap : ptr)
    (t dt aty : Ty) (pre post pre2 post2 : list TyField) (dataF arrF : TyField) :
  hMethod h = "GET" →
  "page_num" ∈ (fName <$> QueryParams h) →
  "page_size" ∈ (fName <$> QueryParams h) →
  "page_index" ∉ (fName <$> QueryParams h) →
  ResponseBody h = Some rp → σ0 !! rp = Some t → Kind t = TyKindObject →
  Fields t = pre ++ dataF :: post → fName dataF = "data" →
  Forall (λ g, fName g ≠ "data") pre →
  fType dataF = Some dp → σ0 !! dp = Some dt → Kind dt = TyKindObject →
  Fields dt = pre2 ++ arrF :: post2 →
  Forall (λ g, ∃ q tq, fType g = Some q ∧ σ0 !! q = Some tq ∧ Kind tq ≠ TyKindArray) pre2 →
  fType arrF = Some ap → σ0 !! ap = Some aty → Kind aty = TyKindArray →
  GetPageInfo σ0 h [] [] =
    Ok (Some {| ItemType := ElementType aty;
                PageIndexName := "page_num"; PageSizeName := "page_size" |})
  ∧ (∀ ic sc pi, GetPageInfo σ0 h ic sc = Ok (Some pi) →
       PageIndexName pi ≠ PageSizeName pi).
Proof.
  intros Hget Hnum Hsize Hidx Hrb Ht Hk Hfs Hdata Hpre Hdp Hdt Hdk Hfs2 Hpre2 Hap Haty Hak.
  split; [|intros; by eapply GetPageInfo_names_differ].
  unfold GetPageInfo. simpl.
  destruct (decide (hMethod h ≠ "GET")); [done|].
  unfold DefaultPageIndexCandidates, DefaultPageSizeCandidates. simpl.
  rewrite (bool_decide_false ("page_index" ∈ _)) by (rewrite elem_of_list_to_set; done).
  rewrite (bool_decide_true ("page_num" ∈ _)) by (rewrite elem_of_list_to_set; done).
  simpl.
  rewrite (bool_decide_true ("page_size" ∈ _)) by (rewrite elem_of_list_to_set; done).
  simpl.
  destruct (decide ("page_num" = "" ∨ "page_size" = "")) as [[?|?]|_]; [done|done|].
  rewrite (GetActualResponseBody_data σ0 h rp t pre post dataF Hrb Ht Hk Hfs Hdata Hpre), Hdp.
  simpl.
  rewrite Hdt. simpl. rewrite decide_False by (rewrite Hdk; intros ?; done).
  rewrite Hfs2, (firstArrayField_first σ0 pre2 post2 arrF ap aty) by done.
  done.
Qed.

Lemma GetPageInfo_example_witness :
  GetPageInfo pagedHeap pagedHandler [] [] =
    Ok (Some {| ItemType := Some 6%positive;
                PageIndexName := "page_num"; PageSizeName := "page_size" |})
  ∧ (∀ ic sc pi, GetPageInfo pagedHeap pagedHandler ic sc = Ok (Some pi) →
       PageIndexName pi ≠ PageSizeName pi).
Proof.
  apply (GetPageInfo_example pagedHeap pagedHandler 1%positive 3%positive 4%positive
           (objTy "ListResp" true [mkField "code" 2; mkField "data" 3])
           (objTy "ListData" true [mkField "items" 4; mkField "total" 5])
           (arrTy 6)
           [mkField "code" 2] [] [] [mkField "total" 5]
           (mkField "data" 3) (mkField "items" 4)); try reflexivity.
  - apply (bool_decide_unpack _). vm_compute. exact I.
  - apply (bool_decide_unpack _). vm_compute. exact I.
  - apply (bool_decide_unpack _). vm_compute. exact I.
  - by repeat apply Forall_cons_2; try apply Forall_nil_2.
  - apply Forall_nil_2.
Defined.

(** C9, as stated, fails: when the query parameters also include
    [page_index], that name takes the index role and [page_num] does not. *)
Lemma GetPageInfo_page_index_counterexample :
  ¬ (∀ (σ0 : heap) (h : HttpHandler) (rp dp ap : ptr) (t dt aty : Ty)
       (dataF arrF : TyField),
       hMethod h = "GET" →
       "page_num" ∈ (fName <$> QueryParams h) →
       "page_size" ∈ (fName <$> QueryParams h) →
       ResponseBody h = Some rp → σ0 !! rp = Some t → Kind t = TyKindObject →
       dataF ∈ Fields t → fName dataF = "data" →
       fType dataF = Some dp → σ0 !! dp = Some dt → Kind dt = TyKindObject →
       arrF ∈ Fields dt → fType arrF = Some ap → σ0 !! ap = Some aty →
       Kind aty = TyKindArray →
       GetPageInfo σ0 h [] [] =
         Ok (Some {| ItemType := ElementType aty;
                     PageIndexName := "page_num"; PageSizeName := "page_size" |})).
Proof.
  intros H.
  specialize (H pagedHeap pagedHandler3 1%positive 3%positive 4%positive
                (objTy "ListResp" true [mkField "code" 2; mkField "data" 3])
                (objTy "ListData" true [mkField "items" 4; mkField "total" 5])
                (arrTy 6) (mkField "data" 3) (mkField "items" 4)).
  assert (Hres : GetPageInfo pagedHeap pagedHandler3 [] [] =
            Ok (Some {| ItemType := Some 6%positive;
                        PageIndexName := "page_index"; PageSizeName := "page_size" |}))
    by (vm_compute; reflexivity).
  rewrite Hres in H.
  assert (Hbad : Ok (Some {| ItemType := Some 6%positive; PageIndexName := "page_index";
                             PageSizeName := "page_size" |})
                 = Ok (Some {| ItemType := ElementType (arrTy 6);
                               PageIndexName := "page_num"; PageSizeName := "page_size" |})).
  { apply H; try reflexivity; simpl; set_solver. }
  discriminate Hbad.
Qed.

(** ** Operation conversion *)

Section OperationConversion.

Context (range : ∀ V : Type, gmap string V → list (string * V)).
Context (doc : Document).



End OperationConversion.



Example convertOperation_text_plain :
  (λ r, match r with Ok (h, _) => Some (hContentType h, RequestBody h) | _ => None end)
    (convertOperation rangeAsc emptyDocument 5 NewParser "/note" "POST" textPlainOp)
  = Some (ContentTypeJson, Some 1%positive).
Proof. vm_compute. reflexivity. Qed.

(** ** Enumeration orders *)

Lemma rangeAsc_enumerates : enumerates rangeAsc.
Proof. intros V m. reflexivity. Qed.

Lemma rangeDesc_enumerates : enumerates rangeDesc.
Proof. intros V m. unfold rangeDesc. apply reverse_Permutation. Qed.

Lemma enumerates_lookup range {V} (m : gmap string V) k v :
  enumerates range → (k, v) ∈ range V m ↔ m !! k = Some v.
Proof. intros Hr. rewrite (Hr V m). apply elem_of_map_to_list. Qed.

Lemma size_lookup_ne_0 {V} (m : gmap string V) k v : m !! k = Some v → size m ≠ 0.
Proof. intros Hk Hs. apply map_size_empty_iff in Hs. subst m. by rewrite lookup_empty in Hk. Qed.

(** ** Handler reordering *)

Example orderHandlers_zoo :
  (λ o, (λ m, hName <$> HttpHandlers m) <$> (modules o.1 !! "zoo"))
    (orderHandlers rangeAsc zooOrdering zooParser)
  = Some ["Beta"; "Alpha"; "Zebra"].
Proof. vm_compute. reflexivity. Qed.

(** ** Type rename *)

Section Rename.

Context (range : ∀ V : Type, gmap string V → list (string * V)).
Context (config : ModuleConfig).

(** The check of lines 424-428 reads the registry and changes nothing. *)
Lemma rename_check_spec (p : Parser) (l : list (string * string)) :
  (Forall (λ e, namedTypes p !! e.2 = None) l ∧
   forS (λ p '(_, newName),
           match namedTypes p !! newName with
           | Some _ => (p, Err ("cannot rename to " +:+ newName +:+ ": type already exists"))
           | None => (p, Ok ())
           end) p l = (p, Ok ()))
  ∨ (∃ e, e ∈ l ∧ is_Some (namedTypes p !! e.2) ∧
     forS (λ p '(_, newName),
           match namedTypes p !! newName with
           | Some _ => (p, Err ("cannot rename to " +:+ newName +:+ ": type already exists"))
           | None => (p, Ok ())
           end) p l
     = (p, Err ("cannot rename to " +:+ e.2 +:+ ": type already exists"))).
Proof.
  induction l as [|[o n] l IH]; simpl.
  - left. by split.
  - destruct (namedTypes p !! n) as [a|] eqn:Hn.
    + right. exists (o, n). simpl. rewrite Hn.
      split; [apply elem_of_cons; by left|]. split; [by eexists|done].
    + destruct IH as [[Hall Hok]|(e & He & Hsome & Herr)].
      * left. split; [by constructor|done].
      * right. exists e. split; [apply elem_of_cons; by right|]. by split.
Qed.

(** C5: when a destination name of the batch is the name of a registered
    type, the rename rule returns an error and leaves the parser as it was:
    the registry and every type's name are unchanged. *)
Theorem renameTypes_collision (p : Parser) (oldName newName : string) :
  enumerates range →
  RenameTypes config !! oldName = Some newName →
  is_Some (namedTypes p !! newName) →
  ∃ msg, renameTypes range config p = (p, Err msg).
Proof.
  intros Hr Hentry Hreg. unfold renameTypes.
  rewrite decide_False by (by eapply size_lookup_ne_0).
  destruct (rename_check_spec p (range string (RenameTypes config)))
    as [[Hall Hok]|(e & He & Hsome & Herr)].
  - exfalso. rewrite Forall_forall in Hall.
    assert (Hin : (oldName, newName) ∈ range string (RenameTypes config))
      by (by apply enumerates_lookup).
    specialize (Hall _ Hin). simpl in Hall. rewrite Hall in Hreg. by destruct Hreg.
  - rewrite Herr. eauto.
Qed.

End Rename.

Lemma renameTypes_collision_witness :
  ∃ msg, renameTypes rangeAsc collidingRename botParser = (botParser, Err msg).
Proof.
  apply (renameTypes_collision rangeAsc collidingRename botParser "BotInfo" "Bot").
  - exact rangeAsc_enumerates.
  - reflexivity.
  - exists 1%positive. reflexivity.
Defined.

(** ** Field requirement and default overrides *)









Section FieldOverrides.

Context (range : ∀ V : Type, gmap string V → list (string * V)).
Context (config : ModuleConfig).





End FieldOverrides.





(** A nil modification is skipped by the guard of line 324, also when its
    field does not exist: no error is returned. *)
Example changeFieldRequirements_nil_modification :
  changeFieldRequirements rangeAsc nilChange botParser = (botParser, Ok ()).
Proof. vm_compute. reflexivity. Qed.

Example changeFieldRequirements_partial_state :
  (λ o, ((λ t, fRequired <$> Fields t) <$> (σ o.1 !! 1%positive), o.2))
    (changeFieldRequirements rangeDesc halfValidChange botParser)
  = (Some [true; false], Err "field owner not found in type Bot").
Proof. vm_compute. reflexivity. Qed.

(** ** Self-referential schemas *)

Lemma range_singleton range {V} k (v : V) :
  enumerates range → range V {[ k := v ]} = [(k, v)].
Proof.
  intros Hr. apply Permutation_singleton_r. rewrite (Hr V). by rewrite map_to_list_singleton.
Qed.

Section Divergence.

Context (range : ∀ V : Type, gmap string V → list (string * V)).
Context (Hrange : enumerates range).

Lemma convertSchema_Node_diverges (fuel : nat) (p : Parser) (name : string) (isNamed : bool) :
  namedTypes p !! "Node" = None →
  convertSchema range selfDocument fuel p (Some nodeSchema) name isNamed = OutOfFuel
  ∧ convertSchema range selfDocument fuel p (Some (refTo "Node")) "" false = OutOfFuel.
Proof.
  revert p name isNamed. induction fuel as [|fuel IH]; intros p name isNamed Hp; [done|].
  split.
  - simpl.
    unfold convertProperties, appendField, convertField; simpl.
    rewrite lookup_empty, (range_singleton range) by done. simpl.
    match goal with
    | |- context [convertSchema _ _ fuel ?q (Some (refTo "Node")) "" false] =>
        destruct (IH q "" false Hp) as [_ ->]
    end.
    done.
  - simpl. change (getRefName ("#/components/schemas/" +:+ "Node")) with "Node".
    rewrite Hp, lookup_singleton_eq. simpl. exact (proj1 (IH p "Node" true Hp)).
Qed.

(** C4 fails on the code: converting the component [Node { next: $ref Node }]
    never returns. The type enters the registry only after its fields are
    converted, so the reference to [Node] finds nothing registered and
    converts the component again, at every depth. *)
Theorem convertSchema_self_reference_diverges (fuel : nat) (p : Parser) :
  namedTypes p !! "Node" = None →
  convertSchema range selfDocument fuel p (Some nodeSchema) "Node" true = OutOfFuel
  ∧ processNamedTypes range selfDocument fuel p = OutOfFuel.
Proof.
  intros Hp. split; [exact (proj1 (convertSchema_Node_diverges fuel p "Node" true Hp))|].
  unfold processNamedTypes. simpl. rewrite (range_singleton range) by done. simpl.
  rewrite Hp. by rewrite (proj1 (convertSchema_Node_diverges fuel p "Node" true Hp)).
Qed.

End Divergence.

Lemma convertSchema_self_reference_diverges_witness :
  convertSchema rangeAsc selfDocument 1000 NewParser (Some nodeSchema) "Node" true = OutOfFuel
  ∧ processNamedTypes rangeAsc selfDocument 1000 NewParser = OutOfFuel.
Proof.
  apply (convertSchema_self_reference_diverges rangeAsc rangeAsc_enumerates 1000 NewParser).
  reflexivity.
Defined.

(** ** Mutually referring schemas *)

Section MutualDivergence.

Context (range : ∀ V : Type, gmap string V → list (string * V)).
Context (Hrange : enumerates range).

Lemma convertSchema_mutual_diverges (fuel : nat) (p : Parser) (name : string)
    (isNamed : bool) :
  namedTypes p !! "A" = None → namedTypes p !! "B" = None →
  convertSchema range mutualDocument fuel p (Some schemaA) name isNamed = OutOfFuel
  ∧ convertSchema range mutualDocument fuel p (Some schemaB) name isNamed = OutOfFuel
  ∧ convertSchema range mutualDocument fuel p (Some (refTo "A")) "" false = OutOfFuel
  ∧ convertSchema range mutualDocument fuel p (Some (refTo "B")) "" false = OutOfFuel.
Proof.
  revert p name isNamed.
  induction fuel as [|fuel IH]; intros p name isNamed HA HB; [done|].
  repeat split.
  - simpl.
    unfold convertProperties, appendField, convertField; simpl.
    rewrite lookup_empty, (range_singleton range) by done. simpl.
    match goal with
    | |- context [convertSchema _ _ fuel ?q (Some (refTo "B")) "" false] =>
        destruct (IH q "" false HA HB) as (_ & _ & _ & ->)
    end.
    done.
  - simpl.
    unfold convertProperties, appendField, convertField; simpl.
    rewrite lookup_empty, (range_singleton range) by done. simpl.
    match goal with
    | |- context [convertSchema _ _ fuel ?q (Some (refTo "A")) "" false] =>
        destruct (IH q "" false HA HB) as (_ & _ & -> & _)
    end.
    done.
  - simpl. change (getRefName ("#/components/schemas/" +:+ "A")) with "A".
    rewrite HA, lookup_insert_eq. simpl. exact (proj1 (IH p "A" true HA HB)).
  - simpl. change (getRefName ("#/components/schemas/" +:+ "B")) with "B".
    rewrite HB, lookup_insert_ne, lookup_singleton_eq by done. simpl.
    exact (proj1 (proj2 (IH p "B" true HA HB))).
Qed.

(** C8 fails on the code: on a document whose components [A] and [B] each
    have a field of the other's type, the build never returns, neither an
    error nor a model. Schema conversion recurses without end, as it does on
    a self-referential schema, before the cycle check of the topological
    sort is reached. *)
Theorem ParseOpenAPI_mutual_reference_diverges (config : ModuleConfig)
    (sorter : DirectedGraph → (Z → Z → bool) → option (list Z)) (fuel : nat) (p : Parser) :
  namedTypes p !! "A" = None → namedTypes p !! "B" = None →
  ParseOpenAPI range mutualDocument config sorter fuel p = OutOfFuel.
Proof.
  intros HA HB. unfold ParseOpenAPI, processNamedTypes. simpl.
  set (schemas := ({[ "A" := Some schemaA; "B" := Some schemaB ]}
                   : gmap string (option SchemaRef))).
  destruct (range _ schemas) as [|[k v] rest] eqn:Hlist.
  - exfalso. pose proof (Hrange _ schemas) as Hperm. rewrite Hlist in Hperm.
    symmetry in Hperm. apply Permutation_nil_r in Hperm.
    apply map_to_list_empty_iff in Hperm.
    apply (f_equal (λ m, m !! "A")) in Hperm. unfold schemas in Hperm.
    by rewrite lookup_insert_eq, lookup_empty in Hperm.
  - assert (Hkv : schemas !! k = Some v).
    { apply (enumerates_lookup range); [done|]. rewrite Hlist. apply elem_of_cons; by left. }
    apply lookup_insert_Some in Hkv as [[<- <-]|[_ Hkv]].
    + simpl. rewrite HA.
      by rewrite (proj1 (convertSchema_mutual_diverges fuel p "A" true HA HB)).
    + apply lookup_singleton_Some in Hkv as [<- <-]. simpl. rewrite HB.
      by rewrite (proj1 (proj2 (convertSchema_mutual_diverges fuel p "B" true HA HB))).
Qed.

End MutualDivergence.

Lemma ParseOpenAPI_mutual_reference_diverges_witness :
  ParseOpenAPI rangeAsc mutualDocument emptyConfig kahnSort 1000 NewParser = OutOfFuel.
Proof.
  apply (ParseOpenAPI_mutual_reference_diverges rangeAsc rangeAsc_enumerates
           emptyConfig kahnSort 1000 NewParser); reflexivity.
Defined.

(** ** The dependency graph *)

Section Graph.

Context (σ0 : heap).

Lemma gext_refl s : gext s s.
Proof. by split. Qed.

Lemma gext_trans s1 s2 s3 : gext s1 s2 → gext s2 s3 → gext s1 s3.
Proof. intros [? ?] [? ?]. split; etrans; eauto. Qed.

Lemma gext_lookup s s' a id : gext s s' → typeToID s !! a = Some id → typeToID s' !! a = Some id.
Proof. intros [Hsub _] Ha. by eapply lookup_weaken. Qed.

Lemma complete_mono s s' b : gext s s' → complete σ0 s b → complete σ0 s' b.
Proof.
  intros Hext Hc c Hchild. destruct (Hc c Hchild) as (idb & idc & Hb & Hcc & He).
  exists idb, idc. split; [by eapply gext_lookup|]. split; [by eapply gext_lookup|].
  destruct Hext as [_ Hsub]. by apply Hsub.
Qed.

Lemma graphWF_init :
  graphWF {| g := NewDirectedGraph; typeToID := ∅; idToType := ∅; nextID := 1%Z |}.
Proof.
  split; simpl.
  - intros a id H. by rewrite lookup_empty in H.
  - intros a id H. by rewrite lookup_empty in H.
  - intros id. rewrite lookup_empty. split; [intros H; by apply not_elem_of_empty in H|].
    intros [? ?]; done.
  - intros u v H. by apply not_elem_of_empty in H.
  - intros id [? H]. by rewrite lookup_empty in H.
Qed.

(** Lines 801-805: a new node for [a]. *)
Lemma newNode_spec s a g' :
  graphWF s → typeToID s !! a = None → AddNode (g s) (nextID s) = Ok g' →
  let s1 := {| g := g'; typeToID := <[a := nextID s]> (typeToID s);
               idToType := <[nextID s := a]> (idToType s);
               nextID := (nextID s + 1)%Z |} in
  graphWF s1 ∧ gext s s1.
Proof.
  intros Hwf Ha Hadd. unfold AddNode in Hadd.
  destruct (decide (nextID s ∈ gNodes (g s))); [done|]. injection Hadd as <-.
  assert (Hfresh : idToType s !! nextID s = None).
  { destruct (idToType s !! nextID s) eqn:E; [|done].
    assert (nextID s < nextID s)%Z by (apply (wf_fresh s Hwf); by eexists). lia. }
  simpl. split; [split; simpl|].
  - intros b id Hb. apply lookup_insert_Some in Hb as [[<- <-]|[Hne Hb]].
    + by rewrite lookup_insert_eq.
    + rewrite lookup_insert_ne; [by apply (wf_to_from s Hwf)|].
      intros <-. apply (wf_to_from s Hwf) in Hb. congruence.
  - intros b id Hb. apply lookup_insert_Some in Hb as [[<- <-]|[Hne Hb]].
    + by rewrite lookup_insert_eq.
    + rewrite lookup_insert_ne; [by apply (wf_from_to s Hwf)|].
      intros <-. apply (wf_from_to s Hwf) in Hb. congruence.
  - intros id. rewrite elem_of_union, elem_of_singleton, (wf_nodes s Hwf).
    destruct (decide (id = nextID s)) as [->|Hne].
    + rewrite lookup_insert_eq. split; [by eexists|by left].
    + rewrite lookup_insert_ne by done. split; [by intros [?|?]|by right].
  - intros u v Huv. destruct (wf_closed s Hwf u v Huv) as [Hu Hv].
    split; apply elem_of_union; by right.
  - intros id [b Hb]. apply lookup_insert_Some in Hb as [[<- <-]|[Hne Hb]]; [lia|].
    assert (id < nextID s)%Z by (apply (wf_fresh s Hwf); by eexists). lia.
  - split; simpl; [by apply insert_subseteq|done].
Qed.

(** Lines 813-815, 820-822, 828-830: the edge from a dependency to [id]. *)
Lemma edgeFrom_spec s dep a id s' :
  graphWF s → typeToID s !! a = Some id → edgeFrom s dep id = Ok s' →
  graphWF s' ∧ gext s s' ∧ typeToID s' = typeToID s ∧
  (∀ depID, typeToID s !! dep = Some depID → (depID, id) ∈ gEdges (g s')).
Proof.
  intros Hwf Ha. unfold edgeFrom.
  destruct (typeToID s !! dep) as [depID|] eqn:Hdep.
  - unfold SetEdge. destruct (decide (depID = id)); [done|]. simpl. intros [= <-].
    assert (Hn1 : depID ∈ gNodes (g s))
      by (apply (wf_nodes s Hwf); exists dep; by apply (wf_to_from s Hwf)).
    assert (Hn2 : id ∈ gNodes (g s))
      by (apply (wf_nodes s Hwf); exists a; by apply (wf_to_from s Hwf)).
    split; [split; simpl|].
    + apply (wf_to_from s Hwf).
    + apply (wf_from_to s Hwf).
    + intros i. rewrite <- (wf_nodes s Hwf). rewrite elem_of_union.
      split; [|by right]. intros [Hi|Hi]; [|done].
      apply elem_of_union in Hi as [Hi|Hi]; apply elem_of_singleton in Hi; by subst.
    + intros u v Huv. apply elem_of_union in Huv as [Huv|Huv].
      * apply elem_of_singleton in Huv. injection Huv as -> ->.
        split; apply elem_of_union; by right.
      * destruct (wf_closed s Hwf u v Huv). split; apply elem_of_union; by right.
    + apply (wf_fresh s Hwf).
    + split; [split; simpl; [done|]|split; [done|]].
      * intros e He. apply elem_of_union; by right.
      * intros d [= <-]. simpl. apply elem_of_union; left. by apply elem_of_singleton.
  - intros [= <-]. split; [done|]. split; [apply gext_refl|]. split; [done|]. intros ? [=].
Qed.

End Graph.

Section AddStep.

Context (σ0 : heap) (add : GraphState → option ptr → result GraphState).
Context (add_ok : ∀ s ty s', graphWF s → add s ty = Ok s' → addPost σ0 ty s s').

(** A dependency [dep] of the node [id] of [a]: added, then linked. *)
Lemma dependency_spec a id dep s s1 s2 :
  graphWF s → typeToID s !! a = Some id →
  add s (Some dep) = Ok s1 → edgeFrom s1 dep id = Ok s2 →
  graphWF s2 ∧ gext s s2 ∧
  (∃ idd, typeToID s2 !! dep = Some idd ∧ (idd, id) ∈ gEdges (g s2)) ∧
  (∀ b, is_Some (typeToID s2 !! b) → typeToID s !! b = None →
        complete σ0 s2 b ∧ (wfHeap σ0 → rtc (child σ0) dep b)).
Proof.
  intros Hwf Ha Hadd Hedge.
  destruct (add_ok _ _ _ Hwf Hadd) as (Hwf1 & Hext1 & Hroot & Hnew).
  destruct (Hroot dep eq_refl) as [idd Hidd].
  destruct (edgeFrom_spec _ _ a id _ Hwf1 (gext_lookup _ _ _ _ Hext1 Ha) Hedge)
    as (Hwf2 & Hext2 & Hsame & He).
  split; [done|]. split; [by eapply gext_trans|]. split.
  - exists idd. split; [by rewrite Hsame|by apply He].
  - intros b Hb Hnone. rewrite Hsame in Hb. destruct (Hnew b Hb Hnone) as [Hc Hr].
    split; [by eapply complete_mono|]. intros Hh. destruct (Hr Hh) as (a0 & [= <-] & Hrtc).
    done.
Qed.

Lemma addField_spec a id t f s s' :
  σ0 !! a = Some t → Kind t = TyKindObject → f ∈ Fields t →
  graphWF s → typeToID s !! a = Some id → addField add σ0 id s f = Ok s' →
  graphWF s' ∧ gext s s' ∧
  (∀ b, fType f = Some b → ∃ idb, typeToID s' !! b = Some idb ∧ (idb, id) ∈ gEdges (g s')) ∧
  (∀ b, is_Some (typeToID s' !! b) → typeToID s !! b = None →
        complete σ0 s' b ∧ (wfHeap σ0 → rtc (child σ0) a b)).
Proof.
  intros Ht Hk Hf Hwf Ha. unfold addField. intros Hrun.
  apply bind_Ok in Hrun as (s1 & Hadd1 & Hrun).
  destruct (fType f) as [ft|] eqn:Hft.
  - apply bind_Ok in Hrun as (s2 & Hedge1 & Hrun).
    apply bind_Ok in Hrun as (fty & Hfty & Hrun).
    apply deref_Ok in Hfty as (? & [= <-] & Hfty).
    assert (Hchild : child σ0 a ft) by (by eapply child_field).
    destruct (dependency_spec a id ft s s1 s2 Hwf Ha Hadd1 Hedge1)
      as (Hwf2 & Hext2 & (idft & Hidft & Heft) & Hnew2).
    destruct (ElementType fty) as [elem|] eqn:Helem.
    + apply bind_Ok in Hrun as (s3 & Hadd2 & Hedge2).
      destruct (dependency_spec a id elem s2 s3 s' Hwf2 (gext_lookup _ _ _ _ Hext2 Ha)
                  Hadd2 Hedge2) as (Hwf3 & Hext3 & _ & Hnew3).
      split; [done|]. split; [by eapply gext_trans|]. split.
      * intros b [= <-]. exists idft. split; [by eapply gext_lookup|].
        destruct Hext3 as [_ Hsub]. by apply Hsub.
      * intros b Hb Hnone. destruct (typeToID s2 !! b) as [idb|] eqn:Hb2.
        -- destruct (Hnew2 b (mk_is_Some _ _ Hb2) Hnone) as [Hc Hr].
           split; [by eapply complete_mono|]. intros Hh. eapply rtc_l; [exact Hchild|auto].
        -- destruct (Hnew3 b Hb Hb2) as [Hc Hr]. split; [done|]. intros Hh.
           eapply rtc_l; [exact Hchild|]. eapply rtc_l; [|by apply Hr].
           eapply child_elem; [exact Hfty| |exact Helem].
           apply (Hh _ _ Hfty). rewrite Helem. by eexists.
    + injection Hrun as <-. split; [done|]. split; [done|]. split.
      * intros b [= <-]. by exists idft.
      * intros b Hb Hnone. destruct (Hnew2 b Hb Hnone) as [Hc Hr].
        split; [done|]. intros Hh. eapply rtc_l; [exact Hchild|auto].
  - injection Hrun as <-.
    destruct (add_ok _ _ _ Hwf Hadd1) as (Hwf1 & Hext1 & _ & Hnew).
    split; [done|]. split; [done|]. split; [intros b [=]|].
    intros b Hb Hnone. destruct (Hnew b Hb Hnone) as [Hc Hr].
    split; [done|]. intros Hh. by destruct (Hr Hh) as (? & [=] & _).
Qed.

Lemma fields_loop_spec a id t fs s s' :
  σ0 !! a = Some t → Kind t = TyKindObject → (∀ f, f ∈ fs → f ∈ Fields t) →
  graphWF s → typeToID s !! a = Some id →
  forM (addField add σ0 id) s fs = Ok s' →
  graphWF s' ∧ gext s s' ∧
  (∀ f b, f ∈ fs → fType f = Some b →
          ∃ idb, typeToID s' !! b = Some idb ∧ (idb, id) ∈ gEdges (g s')) ∧
  (∀ b, is_Some (typeToID s' !! b) → typeToID s !! b = None →
        complete σ0 s' b ∧ (wfHeap σ0 → rtc (child σ0) a b)).
Proof.
  intros Ht Hk. revert s. induction fs as [|f fs IH]; intros s Hin Hwf Ha Hrun.
  - injection Hrun as <-. split; [done|]. split; [apply gext_refl|]. split.
    + intros f b Hf. by apply elem_of_nil in Hf.
    + intros b [? Hb] Hnone. congruence.
  - simpl in Hrun. apply bind_Ok in Hrun as (s1 & Hstep & Hrun).
    destruct (addField_spec a id t f s s1 Ht Hk) as (Hwf1 & Hext1 & Hedge1 & Hnew1);
      [apply Hin, elem_of_cons; by left|done|done|done|].
    destruct (IH s1) as (Hwf2 & Hext2 & Hedge2 & Hnew2);
      [intros f' Hf'; apply Hin, elem_of_cons; by right|done|by eapply gext_lookup|done|].
    split; [done|]. split; [by eapply gext_trans|]. split.
    + intros f' b Hf' Hb. apply elem_of_cons in Hf' as [->|Hf']; [|by eapply Hedge2].
      destruct (Hedge1 b Hb) as (idb & Hidb & He). exists idb.
      split; [by eapply gext_lookup|]. destruct Hext2 as [_ Hsub]. by apply Hsub.
    + intros b Hb Hnone. destruct (typeToID s1 !! b) as [idb|] eqn:Hb1.
      * destruct (Hnew1 b (mk_is_Some _ _ Hb1) Hnone) as [Hc Hr].
        split; [by eapply complete_mono|done].
      * by apply Hnew2.
Qed.

End AddStep.

(** [addTypeToGraph] meets [addPost], whatever the fuel it returns with. *)
Lemma addTypeToGraph_spec (σ0 : heap) (fuel : nat) s ty s' :
  graphWF s → addTypeToGraph σ0 fuel s ty = Ok s' → addPost σ0 ty s s'.
Proof.
  revert s ty s'. induction fuel as [|fuel IH]; intros s ty s' Hwf Hrun; [done|].
  simpl in Hrun. destruct ty as [a|].
  2:{ injection Hrun as <-. split; [done|]. split; [apply gext_refl|].
      split; [intros ? [=]|]. intros b [? Hb] Hnone. congruence. }
  destruct (typeToID s !! a) as [ida|] eqn:Ha.
  { injection Hrun as <-. split; [done|]. split; [apply gext_refl|].
    split; [intros ? [= <-]; by eexists|]. intros b [? Hb] Hnone. congruence. }
  apply bind_Ok in Hrun as (g' & Hnode & Hrun).
  destruct (newNode_spec s a g' Hwf Ha Hnode) as [Hwf1 Hext1].
  set (s1 := {| g := g'; typeToID := <[a := nextID s]> (typeToID s);
                idToType := <[nextID s := a]> (idToType s);
                nextID := (nextID s + 1)%Z |}) in *.
  assert (Ha1 : typeToID s1 !! a = Some (nextID s)) by apply lookup_insert_eq.
  assert (Hold : ∀ b, typeToID s !! b = None → b ≠ a → typeToID s1 !! b = None).
  { intros b Hb Hne. subst s1; simpl. by rewrite lookup_insert_ne. }
  apply bind_Ok in Hrun as (t & Ht & Hrun).
  destruct (σ0 !! a) as [t'|] eqn:Ht'; [|done]. injection Ht as ->. rename Ht' into Ht.
  (* what is left to show once the node [a] itself is complete *)
  assert (Hfin : graphWF s' → gext s1 s' →
                 complete σ0 s' a →
                 (∀ b, is_Some (typeToID s' !! b) → typeToID s1 !! b = None →
                       complete σ0 s' b ∧ (wfHeap σ0 → rtc (child σ0) a b)) →
                 addPost σ0 (Some a) s s').
  { intros Hwf' Hext' Hca Hnew. split; [done|]. split; [by eapply gext_trans|]. split.
    - intros ? [= <-]. exists (nextID s). by eapply gext_lookup.
    - intros b Hb Hnone. destruct (decide (b = a)) as [->|Hne].
      + split; [done|]. intros _. by exists a.
      + destruct (Hnew b Hb (Hold b Hnone Hne)) as [Hc Hr]. split; [done|].
        intros Hh. exists a. split; [done|auto]. }
  destruct (Kind t) eqn:Hk.
  - injection Hrun as <-. apply Hfin; [done|apply gext_refl| |].
    + intros c Hc. inversion Hc; simplify_eq; congruence.
    + intros b [? Hb] Hnone. congruence.
  - injection Hrun as <-. apply Hfin; [done|apply gext_refl| |].
    + intros c Hc. inversion Hc; simplify_eq; congruence.
    + intros b [? Hb] Hnone. congruence.
  - destruct (fields_loop_spec σ0 (addTypeToGraph σ0 fuel) IH a (nextID s) t (Fields t) s1 s'
                Ht Hk) as (Hwf2 & Hext2 & Hedges & Hnew); [done|done|done|done|].
    apply Hfin; [done|done| |done].
    intros c Hc. inversion Hc as [? t' f ? Ht' Hk' Hf Hft|? t' ? Ht' Hk' He]; simplify_eq.
    + destruct (Hedges f c Hf Hft) as (idc & Hidc & He).
      exists (nextID s), idc. split; [by eapply gext_lookup|done].
    + congruence.
  - destruct (ElementType t) as [elem|] eqn:Helem.
    + apply bind_Ok in Hrun as (s2 & Hadd & Hedge).
      destruct (dependency_spec σ0 (addTypeToGraph σ0 fuel) IH a (nextID s) elem s1 s2 s'
                  Hwf1 Ha1 Hadd Hedge) as (Hwf2 & Hext2 & (ide & Hide & He) & Hnew).
      apply Hfin; [done|done| |].
      * intros c Hc.
        inversion Hc as [? t' f ? Ht' Hk' Hf Hft|? t' ? Ht' Hk' He']; simplify_eq;
          [congruence|].
        exists (nextID s), ide. split; [by eapply gext_lookup|done].
      * intros b Hb Hnone. destruct (Hnew b Hb Hnone) as [Hc Hr]. split; [done|].
        intros Hh. eapply rtc_l; [|by apply Hr]. by eapply child_elem.
    + injection Hrun as <-. apply Hfin; [done|apply gext_refl| |].
      * intros c Hc. inversion Hc; simplify_eq; congruence.
      * intros b [? Hb] Hnone. congruence.
  - injection Hrun as <-. apply Hfin; [done|apply gext_refl| |].
    + intros c Hc. inversion Hc; simplify_eq; congruence.
    + intros b [? Hb] Hnone. congruence.
Qed.

(** ** Positions in a list *)

Lemma before_trans {A} (l : list A) x y z :
  NoDup l → before l x y → before l y z → before l x z.
Proof.
  intros Hnd (i & j & Hi & Hj & Hij) (j' & k & Hj' & Hk & Hjk).
  assert (j = j') by (by eapply NoDup_lookup). subst j'.
  exists i, k. split; [done|split; [done|lia]].
Qed.

Lemma before_irrefl {A} (l : list A) x : NoDup l → ¬ before l x x.
Proof.
  intros Hnd (i & j & Hi & Hj & Hij).
  assert (i = j) by (by eapply NoDup_lookup). lia.
Qed.

Lemma before_cons {A} (l : list A) a x y : before l x y → before (a :: l) x y.
Proof. intros (i & j & Hi & Hj & Hij). exists (S i), (S j). split; [done|split; [done|lia]]. Qed.

Lemma before_filter {A} (P : A → Prop) `{∀ x, Decision (P x)} (l : list A) x y :
  before l x y → P x → P y → before (filter P l) x y.
Proof.
  intros Hb Hx Hy. induction l as [|a l IH]; destruct Hb as (i & j & Hi & Hj & Hij).
  - by rewrite lookup_nil in Hi.
  - destruct i as [|i].
    + injection Hi as ->. destruct j as [|j]; [lia|]. simpl in Hj.
      rewrite filter_cons_True by done.
      assert (Hyin : y ∈ filter P l)
        by (apply list_elem_of_filter; split; [done|by eapply list_elem_of_lookup_2]).
      apply list_elem_of_lookup_1 in Hyin as [k Hk].
      exists 0, (S k). split; [done|split; [done|lia]].
    + destruct j as [|j]; [lia|]. simpl in Hi, Hj.
      assert (Hb' : before (filter P l) x y) by (apply IH; exists i, j; split; [done|split; [done|lia]]).
      rewrite filter_cons. destruct (decide (P a)); [by apply before_cons|done].
Qed.

Lemma before_index {A} (l : list A) x y i :
  NoDup l → before l x y → l !! i = Some y → ∃ j, j < i ∧ l !! j = Some x.
Proof.
  intros Hnd (j & k & Hj & Hk & Hjk) Hi.
  assert (k = i) by (by eapply NoDup_lookup). subst k. by exists j.
Qed.

(** ** The filter on named types *)

Lemma filterNamed_spec (σ0 : heap) (l : list (option ptr)) (named : list ptr) :
  filterNamed σ0 l = Ok named →
  ∃ l', l = Some <$> l' ∧ named = filter (λ a, isNamedAt σ0 a) l'.
Proof.
  revert named. induction l as [|[a|] l IH]; intros named Hrun; simpl in Hrun.
  - injection Hrun as <-. by exists [].
  - destruct (σ0 !! a) as [t|] eqn:Ht; [|done]. simpl in Hrun.
    apply bind_Ok in Hrun as (r & Hr & Hrun). injection Hrun as <-.
    destruct (IH r Hr) as (l' & -> & ->). exists (a :: l'). split; [done|].
    assert (Hn : isNamedAt σ0 a = IsNamed t) by (unfold isNamedAt; by rewrite Ht).
    destruct (IsNamed t).
    + rewrite filter_cons_True; [done|by rewrite Hn].
    + rewrite filter_cons_False; [done|rewrite Hn; intros []].
  - done.
Qed.

(** ** The topological sort of one grouping *)

Section TopologicalSort.

Context (σ0 : heap).
Context (sorter : DirectedGraph → (Z → Z → bool) → option (list Z)).
Context (Hsort : sortContract sorter).

Lemma entries_loop_spec fuel (entries : list ptr) s0 s :
  graphWF s0 →
  forM (λ s ty, addTypeToGraph σ0 fuel s (Some ty)) s0 entries = Ok s →
  graphWF s ∧ gext s0 s ∧ (∀ e, e ∈ entries → is_Some (typeToID s !! e)) ∧
  (∀ b, is_Some (typeToID s !! b) → typeToID s0 !! b = None →
        complete σ0 s b ∧ (wfHeap σ0 → ∃ e, e ∈ entries ∧ rtc (child σ0) e b)).
Proof.
  revert s0. induction entries as [|e entries IH]; intros s0 Hwf Hrun.
  - injection Hrun as <-. split; [done|]. split; [apply gext_refl|]. split.
    + intros e He. by apply elem_of_nil in He.
    + intros b [? Hb] Hnone. congruence.
  - simpl in Hrun. apply bind_Ok in Hrun as (s1 & Hadd & Hrun).
    destruct (addTypeToGraph_spec σ0 fuel s0 (Some e) s1 Hwf Hadd)
      as (Hwf1 & Hext1 & Hroot & Hnew1).
    destruct (IH s1 Hwf1 Hrun) as (Hwf2 & Hext2 & Hin2 & Hnew2).
    split; [done|]. split; [by eapply gext_trans|]. split.
    + intros e' He'. apply elem_of_cons in He' as [->|He']; [|by apply Hin2].
      destruct (Hroot e eq_refl) as [ide Hide]. exists ide. by eapply gext_lookup.
    + intros b Hb Hnone. destruct (typeToID s1 !! b) as [idb|] eqn:Hb1.
      * destruct (Hnew1 b (mk_is_Some _ _ Hb1) Hnone) as [Hc Hr].
        split; [by eapply complete_mono|]. intros Hh.
        destruct (Hr Hh) as (a & [= <-] & Hrtc). exists e.
        split; [apply elem_of_cons; by left|done].
      * destruct (Hnew2 b Hb Hb1) as [Hc Hr]. split; [done|]. intros Hh.
        destruct (Hr Hh) as (e' & He' & Hrtc). exists e'.
        split; [apply elem_of_cons; by right|done].
Qed.

(** In a graph whose nodes are all complete, a type reached from [T] stands
    before [T] in whatever the sort returns. *)
Lemma reached_sorted_before s less sorted T U :
  graphWF s → (∀ b, is_Some (typeToID s !! b) → complete σ0 s b) →
  sorter (g s) less = Some sorted →
  tc (child σ0) T U → ∀ idT, typeToID s !! T = Some idT →
  ∃ idU, typeToID s !! U = Some idU ∧ before sorted idU idT.
Proof.
  intros Hwf Hall Hs Htc.
  destruct (Hsort (g s) less sorted (wf_closed s Hwf) Hs) as (Hnd & _ & Hedges).
  induction Htc as [T U Hc|T Y U Hc Htc IH]; intros idT HT.
  - destruct (Hall T (mk_is_Some _ _ HT) U Hc) as (idb & idc & Hb & Hcc & He).
    simplify_eq. exists idc. split; [done|by apply Hedges].
  - destruct (Hall T (mk_is_Some _ _ HT) Y Hc) as (idb & idY & Hb & HY & He).
    simplify_eq. destruct (IH idY HY) as (idU & HU & Hbefore).
    exists idU. split; [done|]. eapply before_trans; [done|exact Hbefore|by apply Hedges].
Qed.

Lemma topologicalSortTypes_spec fuel (entries : list ptr) sortedTypes named :
  topologicalSortTypes sorter σ0 fuel entries = Ok sortedTypes →
  filterNamed σ0 sortedTypes = Ok named →
  NoDup named ∧
  (∀ T U, T ∈ named → tc (child σ0) T U → isNamedAt σ0 U → before named U T) ∧
  (wfHeap σ0 → ∀ T, T ∈ named → ∃ e, e ∈ entries ∧ rtc (child σ0) e T).
Proof.
  unfold topologicalSortTypes. intros Hrun Hfilter.
  destruct (decide (length entries = 0)).
  { injection Hrun as <-. injection Hfilter as <-. split; [constructor|].
    split; [intros T U HT; by apply elem_of_nil in HT|intros _ T HT; by apply elem_of_nil in HT]. }
  apply bind_Ok in Hrun as (s & Hloop & Hrun).
  destruct (sorter (g s) (nameLess σ0 (idToType s))) as [sorted|] eqn:Hs; [|done].
  injection Hrun as <-.
  destruct (entries_loop_spec fuel entries _ s graphWF_init Hloop)
    as (Hwf & _ & _ & Hnew).
  assert (Hall : ∀ b, is_Some (typeToID s !! b) →
                      complete σ0 s b ∧ (wfHeap σ0 → ∃ e, e ∈ entries ∧ rtc (child σ0) e b))
    by (intros b Hb; apply Hnew; [done|apply lookup_empty]).
  destruct (Hsort _ _ _ (wf_closed s Hwf) Hs) as (Hnd & Hmem & Hedges).
  destruct (filterNamed_spec σ0 _ named Hfilter) as (l' & Hl' & ->).
  assert (F1 : ∀ i a, l' !! i = Some a →
                      ∃ id, sorted !! i = Some id ∧ idToType s !! id = Some a).
  { intros i a Hi. apply (f_equal (λ l, l !! i)) in Hl'.
    rewrite !list_lookup_fmap, Hi in Hl'. simpl in Hl'.
    destruct (sorted !! i) as [id|]; [|done]. exists id. split; [done|].
    simpl in Hl'. congruence. }
  assert (F2 : ∀ i id, sorted !! i = Some id →
                       ∃ a, l' !! i = Some a ∧ idToType s !! id = Some a).
  { intros i id Hi. apply (f_equal (λ l, l !! i)) in Hl'.
    rewrite !list_lookup_fmap, Hi in Hl'. simpl in Hl'.
    destruct (l' !! i) as [a|]; [|done]. exists a. split; [done|].
    simpl in Hl'. congruence. }
  assert (Hnd' : NoDup l').
  { apply NoDup_alt. intros i j a Hi Hj.
    destruct (F1 i a Hi) as (idi & Hsi & Hidi). destruct (F1 j a Hj) as (idj & Hsj & Hidj).
    apply (wf_from_to s Hwf) in Hidi, Hidj. simplify_eq. by eapply NoDup_lookup. }
  assert (Hdom : ∀ T, T ∈ l' → ∃ idT, typeToID s !! T = Some idT).
  { intros T HT. apply list_elem_of_lookup_1 in HT as [i Hi].
    destruct (F1 i T Hi) as (id & _ & Hid). exists id. by apply (wf_from_to s Hwf). }
  split; [by apply NoDup_filter|]. split.
  - intros T U HT Htc HU. apply list_elem_of_filter in HT as [HTn HT].
    destruct (Hdom T HT) as [idT HidT].
    destruct (reached_sorted_before s _ sorted T U Hwf (λ b Hb, proj1 (Hall b Hb)) Hs
                Htc idT HidT) as (idU & HidU & (i & j & Hi & Hj & Hij)).
    apply before_filter; [|done|done].
    destruct (F2 i idU Hi) as (a & Ha & Hida). destruct (F2 j idT Hj) as (b & Hb & Hidb).
    apply (wf_to_from s Hwf) in HidU, HidT. simplify_eq. by exists i, j.
  - intros Hh T HT. apply list_elem_of_filter in HT as [_ HT].
    destruct (Hdom T HT) as [idT HidT]. by apply (Hall T (mk_is_Some _ _ HidT)).
Qed.

End TopologicalSort.

(** ** Cycles in the store *)

Section CycleCheck.

Context (σ0 : heap).
Context (sorter : DirectedGraph → (Z → Z → bool) → option (list Z)).
Context (Hsort : sortContract sorter).

Lemma complete_reach s a b :
  (∀ c, is_Some (typeToID s !! c) → complete σ0 s c) →
  is_Some (typeToID s !! a) → rtc (child σ0) a b → is_Some (typeToID s !! b).
Proof.
  intros Hall Ha Hrtc. induction Hrtc as [|a c b Hc _ IH]; [done|].
  apply IH. destruct (Hall a Ha c Hc) as (_ & idc & _ & Hidc & _). by eexists.
Qed.

(** X12: the sort of lines 841-848 never succeeds on entry types that reach
    a cycle: when it returns a list, no type reached from an entry type lies
    on a cycle of fields and element types; two types that hold each other
    as fields are rejected there. *)
Lemma topologicalSortTypes_acyclic fuel (entries : list ptr) sortedTypes e T :
  topologicalSortTypes sorter σ0 fuel entries = Ok sortedTypes →
  e ∈ entries → rtc (child σ0) e T → ¬ tc (child σ0) T T.
Proof.
  unfold topologicalSortTypes. intros Hrun He Hreach Hcycle.
  destruct (decide (length entries = 0)) as [Hlen|_].
  { apply length_zero_iff_nil in Hlen. subst entries. by apply elem_of_nil in He. }
  apply bind_Ok in Hrun as (s & Hloop & Hrun).
  destruct (sorter (g s) (nameLess σ0 (idToType s))) as [sorted|] eqn:Hs; [|done].
  destruct (entries_loop_spec σ0 fuel entries _ s graphWF_init Hloop)
    as (Hwf & _ & Hin & Hnew).
  assert (Hall : ∀ b, is_Some (typeToID s !! b) → complete σ0 s b)
    by (intros b Hb; apply Hnew; [done|apply lookup_empty]).
  destruct (complete_reach s e T Hall (Hin e He) Hreach) as [idT HidT].
  destruct (reached_sorted_before σ0 sorter Hsort s _ sorted T T Hwf Hall Hs Hcycle idT HidT)
    as (idT' & HidT' & Hbefore).
  simplify_eq.
  destruct (Hsort _ _ _ (wf_closed s Hwf) Hs) as (Hnd & _ & _).
  by eapply before_irrefl.
Qed.

End CycleCheck.

Example topologicalSortTypes_cyclicHeap :
  topologicalSortTypes kahnSort cyclicHeap 10 [1%positive]
  = Err "cycle detected in type dependencies: topo: no topological ordering".
Proof. vm_compute. reflexivity. Qed.

(** ** Only arrays carry an element type *)

Lemma wfHeap_empty : wfHeap ∅.
Proof. intros a t H. by rewrite lookup_empty in H. Qed.

Lemma wfHeap_insert (σ0 : heap) a t :
  wfHeap σ0 → (is_Some (ElementType t) → Kind t = TyKindArray) → wfHeap (<[a := t]> σ0).
Proof.
  intros Hwf Ht b tb Hb. apply lookup_insert_Some in Hb as [[<- <-]|[_ Hb]]; [done|].
  by eapply Hwf.
Qed.

Lemma wfHeap_alter (σ0 : heap) a (f : Ty → Ty) :
  wfHeap σ0 → (∀ t, Kind (f t) = Kind t ∧ ElementType (f t) = ElementType t) →
  wfHeap (alter f a σ0).
Proof.
  intros Hwf Hf b tb Hb. apply lookup_alter_Some in Hb as [(_ & t & Ht & ->)|[_ Hb]].
  - destruct (Hf t) as [-> ->]. by eapply Hwf.
  - by eapply Hwf.
Qed.

Lemma forM_invariant {A S} (P : S → Prop) (body : S → A → result S) l s s' :
  forM body s l = Ok s' → P s →
  (∀ s a s', a ∈ l → P s → body s a = Ok s' → P s') →
  P s'.
Proof.
  revert s. induction l as [|a l IH]; intros s Hrun Hs Hbody.
  - by injection Hrun as <-.
  - simpl in Hrun. apply bind_Ok in Hrun as (s1 & Hstep & Hrun).
    apply (IH s1); [done|by eapply Hbody; [apply elem_of_cons; left|..]|].
    intros s2 b s3 Hb. apply Hbody, elem_of_cons. by right.
Qed.

Lemma foldl_invariant {A S} (P : S → Prop) (f : S → A → S) l s :
  (∀ s a, P s → P (f s a)) → P s → P (foldl f s l).
Proof. intros Hf. revert s. induction l as [|a l IH]; intros s Hs; simpl; auto. Qed.

Section WellFormedConversion.

Context (range : ∀ V : Type, gmap string V → list (string * V)).
Context (doc : Document).

Lemma convertProperties_wfHeap
    (convert : Parser → option SchemaRef → string → bool → result (ptr * Parser))
    (v : Schema) p fields p' :
  convertProperties range convert v p = Ok (fields, p') → wfHeap (σ p) →
  (∀ p schema name isNamed ty p',
     wfHeap (σ p) → convert p schema name isNamed = Ok (ty, p') → wfHeap (σ p')) →
  wfHeap (σ p').
Proof.
  intros Hrun Hwf Hconv.
  assert (Hstep : ∀ acc n prop acc',
            wfHeap (σ acc.2) →
            appendField convert (Required v) acc n prop = Ok acc' → wfHeap (σ acc'.2)).
  { intros acc n prop acc' Hacc Happ. unfold appendField in Happ.
    apply bind_Ok in Happ as ([field q] & Hfield & Happ). injection Happ as <-. simpl.
    apply wrap_Ok in Hfield. unfold convertField in Hfield.
    apply bind_Ok in Hfield as ([ft q1] & Hc & Hfield).
    destruct prop as [[r [sv|]]|]; try done. injection Hfield as _ <-.
    by eapply Hconv. }
  unfold convertProperties in Hrun.
  set (P := λ acc : list TyField * Parser, wfHeap (σ acc.2)).
  change (P (fields, p')). change (P ([], p)) in Hwf.
  destruct (Extensions v !! "x-coze-order") as [[| | | |order]|]; try done.
  - refine (forM_invariant P _ _ _ _ Hrun Hwf _).
    intros acc [n prop] acc' _ Hacc Happ. by eapply Hstep.
  - refine (forM_invariant P _ _ _ _ Hrun Hwf _).
    intros acc pname acc' _ Hacc Happ.
    apply bind_Ok in Happ as (n & _ & Happ).
    destruct (mjoin (Properties v !! n)); [by eapply Hstep|by injection Happ as <-].
  - refine (forM_invariant P _ _ _ _ Hrun Hwf _).
    intros acc [n prop] acc' _ Hacc Happ. by eapply Hstep.
Qed.

Lemma convertSchema_wfHeap fuel p schema name isNamed ty p' :
  wfHeap (σ p) → convertSchema range doc fuel p schema name isNamed = Ok (ty, p') →
  wfHeap (σ p').
Proof.
  revert p schema name isNamed ty p'.
  induction fuel as [|fuel IH]; intros p schema name isNamed ty p' Hwf Hrun; [done|].
  simpl in Hrun. destruct schema as [[ref [v|]]|]; try done.
  destruct (decide (ref ≠ "")).
  { destruct (namedTypes p !! getRefName ref); [by injection Hrun as _ <-|].
    destruct (Components doc); [|done]. by eapply IH. }
  set (t0 := {| Name := name |}) in *.
  assert (Hwf0 : wfHeap (<[nextPtr p := t0]> (σ p)))
    by (apply wfHeap_insert; [done|intros [? ?]; done]).
  destruct (AdditionalProperties v) as [ap|].
  { apply bind_Ok in Hrun as ([vt q] & Hv & Hrun). apply wrap_Ok in Hv.
    injection Hrun as <- <-. simpl. apply wfHeap_insert; [|intros [? ?]; done].
    eapply IH; [|exact Hv]. exact Hwf0. }
  apply bind_Ok in Hrun as ([t q] & Hbody & Hrun).
  assert (Hq : wfHeap (σ q) ∧ (is_Some (ElementType t) → Kind t = TyKindArray)).
  { destruct (Type_ v) as [|ty0 rest].
    - injection Hbody as <- <-. split; [done|intros [? ?]; done].
    - destruct (decide (ty0 = "array")).
      + destruct (Items v) as [items|].
        * apply bind_Ok in Hbody as ([et q1] & He & Hbody). apply wrap_Ok in He.
          injection Hbody as <- <-. split; [|done].
          eapply IH; [|exact He]. exact Hwf0.
        * injection Hbody as <- <-. split; [done|done].
      + destruct (decide (ty0 = "object")).
        * apply bind_Ok in Hbody as ([fields q1] & Hp & Hbody). injection Hbody as <- <-.
          split; [|intros [? ?]; done].
          refine (convertProperties_wfHeap _ v _ _ _ Hp Hwf0 _).
          intros. by eapply IH.
        * apply bind_Ok in Hbody as (evs & _ & Hbody). injection Hbody as <- <-.
          split; [done|intros [? ?]; done]. }
  destruct Hq as [Hq Ht].
  destruct isNamed; injection Hrun as <- <-; simpl; by apply wfHeap_insert.
Qed.

Lemma convertOperation_wfHeap fuel p path method op h p' :
  wfHeap (σ p) → convertOperation range doc fuel p path method op = Ok (h, p') →
  wfHeap (σ p').
Proof.
  intros Hwf Hrun. unfold convertOperation in Hrun.
  apply bind_Ok in Hrun as ([h1 p1] & Hparams & Hrun).
  assert (Hp1 : wfHeap (σ p1)).
  { set (P := λ acc : HttpHandler * Parser, wfHeap (σ acc.2)). change (P (h1, p1)).
    match type of Hparams with forM _ ?s0 _ = _ => change (P s0) in Hwf end.
    refine (forM_invariant P _ _ _ _ Hparams Hwf _).
    intros [h0 q0] [pv|] acc' _ Hacc Hstep; [|by injection Hstep as <-].
    apply bind_Ok in Hstep as ([pt q1] & Hc & Hstep). apply wrap_Ok in Hc.
    injection Hstep as <-. by eapply convertSchema_wfHeap. }
  apply bind_Ok in Hrun as ([h2 p2] & Hreq & Hrun).
  assert (Hp2 : wfHeap (σ p2)).
  { destruct (opRequestBody op ≫= firstWithSchema range) as [[ct sc]|].
    - apply bind_Ok in Hreq as ([rt q1] & Hc & Hreq). apply wrap_Ok in Hc.
      injection Hreq as _ <-. by eapply convertSchema_wfHeap.
    - by injection Hreq as _ <-. }
  destruct (Responses op !! "200" ≫= firstWithSchema range) as [[ct sc]|].
  - apply bind_Ok in Hrun as ([rt q1] & Hc & Hrun). apply wrap_Ok in Hc.
    injection Hrun as _ <-. by eapply convertSchema_wfHeap.
  - by injection Hrun as _ <-.
Qed.

Lemma processNamedTypes_wfHeap fuel p p' :
  wfHeap (σ p) → processNamedTypes range doc fuel p = Ok p' → wfHeap (σ p').
Proof.
  intros Hwf Hrun. unfold processNamedTypes in Hrun.
  destruct (Components doc) as [schemas|]; [|by injection Hrun as <-].
  refine (forM_invariant (λ q, wfHeap (σ q)) _ _ _ _ Hrun Hwf _).
  intros q [n sc] q' _ Hq Hstep. destruct (namedTypes q !! n); [by injection Hstep as <-|].
  apply bind_Ok in Hstep as ([ty q1] & Hc & Hstep). apply wrap_Ok in Hc.
  injection Hstep as <-. simpl. by eapply convertSchema_wfHeap.
Qed.

Lemma processOperations_wfHeap fuel p p' :
  wfHeap (σ p) → processOperations range doc fuel p = Ok p' → wfHeap (σ p').
Proof.
  intros Hwf Hrun. unfold processOperations in Hrun.
  refine (forM_invariant (λ q, wfHeap (σ q)) _ _ _ _ Hrun Hwf _).
  intros q [path item] q' _ Hq Hstep.
  refine (forM_invariant (λ q, wfHeap (σ q)) _ _ _ _ Hstep Hq _).
  intros q1 [method op] q2 _ Hq1 Hop.
  apply bind_Ok in Hop as ([h q3] & Hc & Hop). apply wrap_Ok in Hc.
  injection Hop as <-. simpl. by eapply convertOperation_wfHeap.
Qed.

End WellFormedConversion.

Lemma forS_invariant {A} (P : Parser → Prop) (body : Parser → A → Parser * result unit) l p :
  (∀ p a, P p → P (body p a).1) → P p → P (forS body p l).1.
Proof.
  intros Hbody. revert p. induction l as [|a l IH]; intros p Hp; simpl; [done|].
  specialize (Hbody p a Hp). destruct (body p a) as [p1 [[]| | |]]; simpl in *; auto.
Qed.

Lemma checked_Ok (o : Parser * result unit) p' : checked o = Ok p' → p' = o.1.
Proof. unfold checked. destruct o as [p [[]| | |]]; simpl; intros H; by simplify_eq. Qed.

Section WellFormedRules.

Context (range : ∀ V : Type, gmap string V → list (string * V)).
Context (config : ModuleConfig).

Lemma mapHandlers_heap f p : σ (mapHandlers range f p) = σ p.
Proof.
  unfold mapHandlers. apply (foldl_invariant (λ q, σ q = σ p)); [|done].
  by intros q [k m] Hq.
Qed.

Lemma generateUnnamedResponseTypes_wfHeap p :
  wfHeap (σ p) → wfHeap (σ (generateUnnamedResponseTypes range config p).1).
Proof.
  intros Hwf. unfold generateUnnamedResponseTypes.
  destruct (GenerateUnnamedResponseType config) as [generate|]; [|done].
  apply (forS_invariant (λ q, wfHeap (σ q))); [|done].
  intros q [key module] Hq. apply (forS_invariant (λ q, wfHeap (σ q))); [|done].
  intros q1 h Hq1. destruct (ResponseBody h) as [rb|]; [|done]. simpl.
  destruct (σ q1 !! rb) as [t|] eqn:Ht; [|done]. simpl.
  destruct (IsNamed t); [done|]. destruct (generate (σ q1) h) as [name gen].
  destruct gen; [|done]. simpl. apply wfHeap_insert; [done|]. simpl. by apply (Hq1 rb).
Qed.

Lemma changeFieldRequirements_wfHeap p :
  wfHeap (σ p) → wfHeap (σ (changeFieldRequirements range config p).1).
Proof.
  intros Hwf. unfold changeFieldRequirements.
  destruct (decide (size (ChangeFields config) = 0)); [done|].
  apply (forS_invariant (λ q, wfHeap (σ q))); [|done].
  intros q [typeName fms] Hq. destruct (namedTypes q !! typeName) as [ty|]; [|done].
  simpl. destruct (σ q !! ty) as [t|]; [|done]. simpl.
  destruct (decide (Kind t ≠ TyKindObject)); [done|].
  unfold changeFieldsOf. apply (forS_invariant (λ q, wfHeap (σ q))); [|done].
  intros q1 [f [m|]] Hq1; [|done]. simpl.
  destruct (σ q1 !! ty) as [t1|] eqn:Ht1; [|done]. simpl.
  destruct (modifyField (Fields t1) f m) as [fields|]; [|done].
  simpl. apply wfHeap_insert; [done|]. simpl. by apply (Hq1 ty).
Qed.

Lemma orderHandlers_heap p : σ (orderHandlers range config p).1 = σ p.
Proof.
  unfold orderHandlers. destruct (decide (size (HandlerOrdering config) = 0)); [done|].
  apply (forS_invariant (λ q, σ q = σ p)); [|done].
  intros q [moduleName names] Hq. by destruct (modules q !! moduleName).
Qed.

Lemma changeResponseTypes_heap p : σ (changeResponseTypes range config p).1 = σ p.
Proof.
  unfold changeResponseTypes. apply (forS_invariant (λ q, σ q = σ p)); [|done].
  intros q [handlerName responseType] Hq.
  destruct (namedTypes q !! responseType); [|done]. simpl. by rewrite mapHandlers_heap.
Qed.

Lemma renameTypes_wfHeap p : wfHeap (σ p) → wfHeap (σ (renameTypes range config p).1).
Proof.
  intros Hwf. unfold renameTypes.
  destruct (decide (size (RenameTypes config) = 0)); [done|].
  destruct (rename_check_spec p (range string (RenameTypes config)))
    as [[_ ->]|(e & _ & _ & ->)]; [|done].
  simpl. apply (foldl_invariant (λ q, wfHeap (σ q))); [|done].
  intros q [oldName newName] Hq. destruct (namedTypes q !! oldName) as [ty|]; [|done].
  simpl. by apply wfHeap_alter.
Qed.

Lemma renameHandlers_heap p : σ (renameHandlers range config p).1 = σ p.
Proof.
  unfold renameHandlers. destruct (decide (size (RenameHandlers config) = 0)); [done|].
  simpl. apply mapHandlers_heap.
Qed.

Context (sorter : DirectedGraph → (Z → Z → bool) → option (list Z)).

Lemma assignTypesToModules_wfHeap fuel p p' :
  wfHeap (σ p) → assignTypesToModules range config sorter fuel p = Ok p' → wfHeap (σ p').
Proof.
  intros Hwf Hrun. unfold assignTypesToModules in Hrun.
  assert (Hwf1 : wfHeap (σ (assignConfigured range config p))).
  { unfold assignConfigured. apply (foldl_invariant (λ q, wfHeap (σ q))); [|done].
    intros q [typeName moduleName] Hq. destruct (namedTypes q !! typeName) as [ty|]; [|done].
    assert (Halt : wfHeap (alter (λ t, withModule t moduleName) ty (σ q)))
      by (by apply wfHeap_alter).
    simpl. by destruct (modules q !! moduleName). }
  apply bind_Ok in Hrun as (hd & _ & Hrun).
  apply bind_Ok in Hrun as (q & Husage & Hrun).
  assert (Hwf2 : wfHeap (σ q)).
  { unfold assignByUsage in Husage.
    refine (forM_invariant (λ q, wfHeap (σ q)) _ _ _ _ Husage Hwf1 _).
    intros q1 [n ty] q2 _ Hq1 Hstep. apply bind_Ok in Hstep as (t & _ & Hstep).
    destruct (decide (Module_ t ≠ "")); [by injection Hstep as <-|].
    destruct (find _ _) as [[key module]|]; injection Hstep as <-; [|done].
    simpl. by apply wfHeap_alter. }
  refine (forM_invariant (λ q, wfHeap (σ q)) _ _ _ _ Hrun Hwf2 _).
  intros q1 [key module] q2 _ Hq1 Hstep. unfold sortModule in Hstep.
  destruct (decide (length (Types module) = 0)); [by injection Hstep as <-|].
  apply bind_Ok in Hstep as (st & _ & Hstep). apply bind_Ok in Hstep as (named & _ & Hstep).
  by injection Hstep as <-.
Qed.

End WellFormedRules.

(** ** Module assignment *)

Lemma elem_of_insertLeft {A} (cmp : A → A → Z) x y l :
  y ∈ insertLeft cmp x l → y = x ∨ y ∈ l.
Proof.
  induction l as [|a l IH]; simpl.
  - intros H. apply list_elem_of_singleton in H. by left.
  - destruct (cmp x a <? 0)%Z.
    + intros H. apply elem_of_cons in H as [->|H]; [right; apply elem_of_cons; by left|].
      destruct (IH H) as [->|Hin]; [by left|right; apply elem_of_cons; by right].
    + intros H. apply elem_of_cons in H as [->|H]; [by left|by right].
Qed.

Lemma elem_of_SortStableFunc {A} (cmp : A → A → Z) y l :
  y ∈ SortStableFunc cmp l → y ∈ l.
Proof.
  unfold SortStableFunc. intros H.
  apply list_elem_of_In, in_rev, list_elem_of_In in H. revert H.
  assert (Hgen : ∀ acc, y ∈ foldl (λ acc x, insertLeft cmp x acc) acc l → y ∈ acc ∨ y ∈ l).
  { induction l as [|a l IH]; intros acc; simpl; [by left|].
    intros H. destruct (IH _ H) as [Hacc|Hl]; [|right; apply elem_of_cons; by right].
    destruct (elem_of_insertLeft _ _ _ _ Hacc) as [->|Hin]; [right; apply elem_of_cons; by left|by left]. }
  intros H. destruct (Hgen [] H) as [Hnil|Hl]; [by apply elem_of_nil in Hnil|done].
Qed.

Lemma elem_of_Compact {A} `{EqDecision A} (y : A) l : y ∈ Compact l → y ∈ l.
Proof.
  induction l as [|a l IH]; [done|]. simpl. destruct l as [|b l]; [done|].
  destruct (decide (a = b)) as [->|Hne].
  - intros H. apply elem_of_cons; right. by apply IH.
  - intros H. apply elem_of_cons in H as [->|H]; [apply elem_of_cons; by left|].
    apply elem_of_cons; right. by apply IH.
Qed.

Lemma elem_of_entryTypesOf (hs : list HttpHandler) e :
  e ∈ entryTypesOf hs →
  ∃ h, h ∈ hs ∧ (RequestBody h = Some e ∨ ResponseBody h = Some e).
Proof.
  unfold entryTypesOf. intros H. apply list_elem_of_bind in H as (h & He & Hh).
  exists h. split; [done|]. apply elem_of_app in He as [He|He].
  - left. destruct (RequestBody h) as [r|]; simpl in He;
      [by apply list_elem_of_singleton in He as ->|by apply elem_of_nil in He].
  - right. destruct (ResponseBody h) as [r|]; simpl in He;
      [by apply list_elem_of_singleton in He as ->|by apply elem_of_nil in He].
Qed.

Section Assignment.

Context (range : ∀ V : Type, gmap string V → list (string * V)).
Context (config : ModuleConfig).
Context (sorter : DirectedGraph → (Z → Z → bool) → option (list Z)).

(** The loop of lines 898-931 leaves the store alone and gives each module,
    once, either its old empty list or the named part of its sort. *)
Lemma sortModules_spec fuel (L : list (string * Module)) (q p' : Parser) :
  NoDup L.*1 → (∀ key module, (key, module) ∈ L → modules q !! key = Some module) →
  forM (sortModule sorter fuel) q L = Ok p' →
  σ p' = σ q ∧
  (∀ key, key ∉ L.*1 → modules p' !! key = modules q !! key) ∧
  (∀ key module, (key, module) ∈ L →
     ∃ m', modules p' !! key = Some m' ∧ HttpHandlers m' = HttpHandlers module ∧
           (Types m' = [] ∨
            ∃ sortedTypes,
              topologicalSortTypes sorter (σ q) fuel
                (Compact (SortStableFunc addrCmp (entryTypesOf (HttpHandlers module))))
              = Ok sortedTypes ∧ filterNamed (σ q) sortedTypes = Ok (Types m'))).
Proof.
  revert q. induction L as [|[k0 m0] L IH]; intros q Hnd Hq Hrun.
  - injection Hrun as <-. split; [done|]. split; [done|].
    intros key module H. by apply elem_of_nil in H.
  - simpl in Hrun. apply bind_Ok in Hrun as (q1 & Hstep & Hrun).
    apply NoDup_cons in Hnd as [Hk0 Hnd].
    assert (Hq1 : σ q1 = σ q ∧ (∀ key, key ≠ k0 → modules q1 !! key = modules q !! key) ∧
                  ∃ m', modules q1 !! k0 = Some m' ∧ HttpHandlers m' = HttpHandlers m0 ∧
                    (Types m' = [] ∨
                     ∃ sortedTypes,
                       topologicalSortTypes sorter (σ q) fuel
                         (Compact (SortStableFunc addrCmp (entryTypesOf (HttpHandlers m0))))
                       = Ok sortedTypes ∧ filterNamed (σ q) sortedTypes = Ok (Types m'))).
    { destruct (decide (length (Types m0) = 0)) as [Hlen|Hlen].
      - injection Hstep as <-. split; [done|]. split; [done|]. exists m0.
        split; [apply Hq, elem_of_cons; by left|]. split; [done|]. left.
        by apply length_zero_iff_nil.
      - apply bind_Ok in Hstep as (sortedTypes & Hsorted & Hstep).
        apply wrap_Ok in Hsorted.
        apply bind_Ok in Hstep as (named & Hnamed & Hstep). injection Hstep as <-.
        split; [done|]. split; [intros key Hne; simpl; by rewrite lookup_insert_ne|].
        exists (setTypes m0 named). simpl. rewrite lookup_insert_eq.
        split; [done|]. split; [done|]. right. by exists sortedTypes. }
    destruct Hq1 as (Hσ1 & Hother1 & m' & Hm' & Hh' & Hgood).
    destruct (IH q1 Hnd) as (Hσ2 & Hother2 & Hall2); [|done|].
    { intros key module Hin. rewrite Hother1; [apply Hq, elem_of_cons; by right|].
      intros ->. apply Hk0. apply list_elem_of_fmap. by exists (k0, module). }
    split; [congruence|]. split.
    + intros key Hkey. rewrite fmap_cons in Hkey. apply not_elem_of_cons in Hkey as [Hne Hkey].
      rewrite Hother2 by done. by apply Hother1.
    + intros key module Hin. apply elem_of_cons in Hin as [[= -> ->]|Hin].
      * exists m'. rewrite Hother2 by done. done.
      * rewrite <- Hσ1. by apply Hall2.
Qed.

Lemma assignTypesToModules_sorted fuel (p p' : Parser) :
  enumerates range →
  assignTypesToModules range config sorter fuel p = Ok p' →
  ∀ key m, modules p' !! key = Some m →
    Types m = [] ∨
    ∃ sortedTypes,
      topologicalSortTypes sorter (σ p') fuel
        (Compact (SortStableFunc addrCmp (entryTypesOf (HttpHandlers m))))
      = Ok sortedTypes ∧ filterNamed (σ p') sortedTypes = Ok (Types m).
Proof.
  intros Hr Hrun key m Hm. unfold assignTypesToModules in Hrun.
  apply bind_Ok in Hrun as (hd & _ & Hrun).
  apply bind_Ok in Hrun as (q & _ & Hrun).
  assert (Hnd : NoDup (range Module (modules q)).*1).
  { rewrite (Hr Module (modules q)). apply NoDup_fst_map_to_list. }
  destruct (sortModules_spec fuel _ q p' Hnd) as (Hσ & Hother & Hall); [|done|].
  { intros k module Hin. by apply (enumerates_lookup range) in Hin. }
  destruct (decide (key ∈ (range Module (modules q)).*1)) as [Hin|Hout].
  - apply list_elem_of_fmap in Hin as ([k module] & -> & Hin). simpl in Hm.
    destruct (Hall k module Hin) as (m' & Hm' & Hh & Hgood).
    rewrite Hm in Hm'. injection Hm' as <-. rewrite Hσ, Hh. exact Hgood.
  - exfalso. apply Hout. rewrite (Hother key Hout) in Hm.
    apply list_elem_of_fmap. exists (key, m). split; [done|].
    by apply (enumerates_lookup range).
Qed.

(** After a successful assignment, in every module, a named type reached
    from the type at position [i] stands at a position strictly below [i]. *)
Lemma assignTypesToModules_topological (fuel : nat) (p p' : Parser)
    (key : string) (m : Module) (i : nat) (T U : ptr) :
  enumerates range → sortContract sorter →
  assignTypesToModules range config sorter fuel p = Ok p' →
  modules p' !! key = Some m → Types m !! i = Some T →
  tc (child (σ p')) T U → isNamedAt (σ p') U →
  ∃ j, j < i ∧ Types m !! j = Some U.
Proof.
  intros Hr Hsort Hrun Hm Hi Htc HU.
  destruct (assignTypesToModules_sorted fuel p p' Hr Hrun key m Hm)
    as [Hnil|(sortedTypes & Hsorted & Hnamed)].
  - rewrite Hnil in Hi. by rewrite lookup_nil in Hi.
  - destruct (topologicalSortTypes_spec (σ p') sorter Hsort fuel _ _ _ Hsorted Hnamed)
      as (Hnd & Hbefore & _).
    eapply before_index; [done| |done].
    apply Hbefore; [by eapply list_elem_of_lookup_2|done|done].
Qed.

(** After a successful assignment, in every module, each type of the list is
    reached from the request or response body of one of its handlers. *)
Lemma assignTypesToModules_reachable_only (fuel : nat) (p p' : Parser)
    (key : string) (m : Module) (T : ptr) :
  enumerates range → sortContract sorter → wfHeap (σ p) →
  assignTypesToModules range config sorter fuel p = Ok p' →
  modules p' !! key = Some m → T ∈ Types m →
  ∃ h e, h ∈ HttpHandlers m ∧ (RequestBody h = Some e ∨ ResponseBody h = Some e) ∧
         rtc (child (σ p')) e T.
Proof.
  intros Hr Hsort Hh0 Hrun Hm HT.
  pose proof (assignTypesToModules_wfHeap range config sorter fuel p p' Hh0 Hrun) as Hh.
  destruct (assignTypesToModules_sorted fuel p p' Hr Hrun key m Hm)
    as [Hnil|(sortedTypes & Hsorted & Hnamed)].
  - rewrite Hnil in HT. by apply elem_of_nil in HT.
  - destruct (topologicalSortTypes_spec (σ p') sorter Hsort fuel _ _ _ Hsorted Hnamed)
      as (_ & _ & Hreach).
    destruct (Hreach Hh T HT) as (e & He & Hrtc).
    apply elem_of_Compact, elem_of_SortStableFunc, elem_of_entryTypesOf in He
      as (h & Hin & Hbody).
    by exists h, e.
Qed.

End Assignment.

(** ** The reference sort meets the contract *)

Lemma insertLeft_Permutation {A} (cmp : A → A → Z) x l : insertLeft cmp x l ≡ₚ x :: l.
Proof.
  induction l as [|a l IH]; simpl; [done|].
  destruct (cmp x a <? 0)%Z; [|done]. rewrite IH. apply Permutation_swap.
Qed.

Lemma SortStableFunc_Permutation {A} (cmp : A → A → Z) l : SortStableFunc cmp l ≡ₚ l.
Proof.
  unfold SortStableFunc. rewrite <- Permutation_rev.
  assert (Hgen : ∀ acc, foldl (λ acc x, insertLeft cmp x acc) acc l ≡ₚ acc ++ l).
  { induction l as [|a l IH]; intros acc; simpl; [by rewrite app_nil_r|].
    rewrite IH, insertLeft_Permutation. simpl. apply Permutation_middle. }
  by rewrite Hgen.
Qed.

Lemma noPending_true edges remaining n u v :
  noPending edges remaining n = true → (u, v) ∈ edges → u ∈ remaining → v ≠ n.
Proof.
  unfold noPending. intros Hall Hin Hu Hv. rewrite forallb_forall in Hall.
  specialize (Hall (u, v)). simpl in Hall. rewrite <- list_elem_of_In in Hall.
  specialize (Hall Hin). rewrite bool_decide_true in Hall by done.
  rewrite bool_decide_true in Hall by done. done.
Qed.

Lemma kahnLoop_cons fuel edges r rest :
  kahnLoop (S fuel) edges (r :: rest) =
  match find (noPending edges (r :: rest)) (r :: rest) with
  | None => None
  | Some n => (n ::.) <$> kahnLoop fuel edges (filter (λ m, m ≠ n) (r :: rest))
  end.
Proof. reflexivity. Qed.

Lemma kahnLoop_spec fuel edges remaining out :
  NoDup remaining → kahnLoop fuel edges remaining = Some out →
  out ≡ₚ remaining ∧
  (∀ u v, (u, v) ∈ edges → u ∈ remaining → v ∈ remaining → before out u v).
Proof.
  revert remaining out. induction fuel as [|fuel IH]; intros remaining out Hnd Hrun.
  - destruct remaining; [|done]. injection Hrun as <-. split; [done|].
    intros u v _ Hu. by apply elem_of_nil in Hu.
  - destruct remaining as [|r rest].
    { injection Hrun as <-. split; [done|]. intros u v _ Hu. by apply elem_of_nil in Hu. }
    rewrite kahnLoop_cons in Hrun.
    set (rem := r :: rest) in *.
    destruct (find (noPending edges rem) rem) as [n|] eqn:Hfind; [|done].
    apply find_some in Hfind as [Hn Hready]. apply list_elem_of_In in Hn.
    destruct (kahnLoop fuel edges (filter (λ m, m ≠ n) rem)) as [out'|] eqn:Hrec; [|done].
    injection Hrun as <-.
    destruct (IH _ _ (NoDup_filter _ _ Hnd) Hrec) as [Hperm Hbefore].
    assert (Hn' : n ∉ out').
    { rewrite Hperm. intros Hin. apply list_elem_of_filter in Hin as [Hne _]. done. }
    split.
    + apply NoDup_Permutation; [|done|].
      * apply NoDup_cons. split; [done|]. rewrite Hperm. by apply NoDup_filter.
      * intros x. rewrite elem_of_cons, Hperm, list_elem_of_filter.
        destruct (decide (x = n)) as [->|Hne]; [by split; [|left]|].
        split; [intros [?|[_ ?]]; done|intros ?; right; done].
    + intros u v He Hu Hv.
      assert (Hvn : v ≠ n) by (by eapply noPending_true).
      assert (Hvout : v ∈ out') by (rewrite Hperm; by apply list_elem_of_filter).
      destruct (decide (u = n)) as [->|Hun].
      * apply list_elem_of_lookup_1 in Hvout as [k Hk].
        exists 0, (S k). split; [done|split; [done|lia]].
      * apply before_cons, Hbefore; [done| |]; by apply list_elem_of_filter.
Qed.

Lemma kahnSort_contract : sortContract kahnSort.
Proof.
  intros g0 less sorted Hclosed Hrun. unfold kahnSort in Hrun.
  set (nodes := SortStableFunc _ (elements (gNodes g0))) in *.
  assert (Hperm : nodes ≡ₚ elements (gNodes g0)) by apply SortStableFunc_Permutation.
  assert (Hnd : NoDup nodes) by (rewrite Hperm; apply NoDup_elements).
  destruct (kahnLoop_spec _ _ _ _ Hnd Hrun) as [Hout Hbefore].
  split; [by rewrite Hout|]. split.
  - intros n. by rewrite Hout, Hperm, elem_of_elements.
  - intros u v He. destruct (Hclosed u v He) as [Hu Hv].
    apply Hbefore; [by apply elem_of_elements| |]; rewrite Hperm; by apply elem_of_elements.
Qed.

(** ** A sorted grouping *)

Lemma pagedSorted_run :
  assignTypesToModules rangeAsc orphanConfig kahnSort 20 pagedParser = Ok pagedSorted.
Proof. vm_compute. reflexivity. Qed.

Lemma pagedParser_wfHeap : wfHeap (σ pagedParser).
Proof.
  assert (H : map_Forall (λ _ t, is_Some (ElementType t) → Kind t = TyKindArray)
                         (σ pagedParser))
    by (apply (bool_decide_unpack _); vm_compute; exact I).
  intros a t Ha. exact (H a t Ha).
Qed.

Example pagedSorted_order :
  ∃ j, j < 2 ∧ Types itemsModule !! j = Some 6%positive.
Proof.
  apply (assignTypesToModules_topological rangeAsc orphanConfig kahnSort 20
           pagedParser pagedSorted "items" itemsModule 2 1%positive 6%positive).
  - exact rangeAsc_enumerates.
  - exact kahnSort_contract.
  - exact pagedSorted_run.
  - vm_compute. reflexivity.
  - vm_compute. reflexivity.
  - eapply tc_l.
    { eapply (child_field _ 1%positive _ (mkField "data" 3) 3%positive);
        [vm_compute; reflexivity|reflexivity| |reflexivity].
      apply elem_of_cons; right. apply elem_of_cons; by left. }
    eapply tc_l.
    { eapply (child_field _ 3%positive _ (mkField "items" 4) 4%positive);
        [vm_compute; reflexivity|reflexivity| |reflexivity].
      apply elem_of_cons; by left. }
    apply tc_once.
    eapply (child_elem _ 4%positive _ 6%positive); [vm_compute; reflexivity|reflexivity|reflexivity].
  - vm_compute. exact I.
Qed.

Example pagedSorted_reached :
  ∃ h e, h ∈ HttpHandlers itemsModule ∧
         (RequestBody h = Some e ∨ ResponseBody h = Some e) ∧
         rtc (child (σ pagedSorted)) e 6%positive.
Proof.
  apply (assignTypesToModules_reachable_only rangeAsc orphanConfig kahnSort 20
           pagedParser pagedSorted "items" itemsModule 6%positive).
  - exact rangeAsc_enumerates.
  - exact kahnSort_contract.
  - exact pagedParser_wfHeap.
  - exact pagedSorted_run.
  - vm_compute. reflexivity.
  - apply elem_of_cons; by left.
Qed.

(** [Orphan] was put into [items] by the configuration and is not in the
    final list of [items]. *)
Example orphan_dropped :
  Module_ <$> (σ pagedSorted !! 8%positive) = Some "items"
  ∧ Types itemsModule = [6%positive; 3%positive; 1%positive].
Proof. split; vm_compute; reflexivity. Qed.

(** ** Enumeration order in the output *)

Lemma convertField_name convert p name schema required field p' :
  convertField convert p name schema required = Ok (field, p') → fName field = name.
Proof.
  unfold convertField. intros H. apply bind_Ok in H as ([ft q] & _ & H).
  destruct schema as [[r [v|]]|]; try done. by injection H as <- <-.
Qed.

Section OrderedFields.

Context (range : ∀ V : Type, gmap string V → list (string * V)).
Context (convert : Parser → option SchemaRef → string → bool → result (ptr * Parser)).

Lemma ordered_loop_names (v : Schema) (order : list Any) acc fields p' :
  forM (λ acc pname,
          propName ← assertString pname;
          match mjoin (Properties v !! propName) with
          | None => Ok acc
          | Some prop => appendField convert (Required v) acc propName (Some prop)
          end) acc order = Ok (fields, p') →
  fName <$> fields =
    (fName <$> acc.1) ++ filter (λ n, is_Some (mjoin (Properties v !! n))) (omap asString order).
Proof.
  revert acc. induction order as [|pname order IH]; intros acc Hrun.
  - injection Hrun as ->. by rewrite app_nil_r.
  - simpl in Hrun. apply bind_Ok in Hrun as (acc1 & Hstep & Hrun).
    apply bind_Ok in Hstep as (propName & Hname & Hstep).
    destruct pname as [|s| | |]; try done. injection Hname as ->. simpl.
    rewrite (IH _ Hrun). rewrite filter_cons.
    destruct (mjoin (Properties v !! propName)) as [prop|] eqn:Hprop.
    + rewrite decide_True by (by eexists).
      unfold appendField in Hstep. apply bind_Ok in Hstep as ([field q] & Hfield & Hstep).
      apply wrap_Ok, convertField_name in Hfield. injection Hstep as <-. simpl.
      rewrite fmap_app. simpl. rewrite Hfield. by rewrite <- app_assoc.
    + rewrite decide_False by (intros [? ?]; done). by injection Hstep as <-.
Qed.

Lemma convertProperties_ordered (v : Schema) (order : list Any) p fields p' :
  Extensions v !! "x-coze-order" = Some (AList order) →
  convertProperties range convert v p = Ok (fields, p') →
  fName <$> fields =
    filter (λ n, is_Some (mjoin (Properties v !! n))) (omap asString order).
Proof.
  intros Hext. unfold convertProperties. rewrite Hext. intros Hrun.
  by apply ordered_loop_names in Hrun.
Qed.

End OrderedFields.

Example ordered_fields_both_orders :
  (λ r, match r with
        | Ok (ty, p) => (λ t, fName <$> Fields t) <$> (σ p !! ty)
        | _ => None
        end)
    <$> [convertSchema rangeAsc emptyDocument 5 NewParser
           (Some (mkSchemaRef "" (Some orderedSchema))) "Bot" true;
         convertSchema rangeDesc emptyDocument 5 NewParser
           (Some (mkSchemaRef "" (Some orderedSchema))) "Bot" true]
  = [Some ["name"; "id"]; Some ["name"; "id"]].
Proof. vm_compute. reflexivity. Qed.

(** C1, as stated, fails: the same document and configuration, enumerated in
    two orders, give [Item] the fields [id, name] in one run and [name, id]
    in the other. *)
Lemma ParseOpenAPI_enumeration_counterexample :
  ¬ (∀ (range1 range2 : ∀ V : Type, gmap string V → list (string * V))
       (doc : Document) (config : ModuleConfig)
       (sorter : DirectedGraph → (Z → Z → bool) → option (list Z))
       (fuel : nat) (p : Parser) (out1 out2 : gmap string Module * heap),
       enumerates range1 → enumerates range2 → sortContract sorter →
       ParseOpenAPI range1 doc config sorter fuel p = Ok out1 →
       ParseOpenAPI range2 doc config sorter fuel p = Ok out2 →
       observe out1 = observe out2).
Proof.
  intros H.
  specialize (H rangeAsc rangeDesc pagedDocument emptyConfig kahnSort 20 NewParser
                pagedRunAsc pagedRunDesc rangeAsc_enumerates rangeDesc_enumerates
                kahnSort_contract).
  assert (H1 : ParseOpenAPI rangeAsc pagedDocument emptyConfig kahnSort 20 NewParser
               = Ok pagedRunAsc) by (vm_compute; reflexivity).
  assert (H2 : ParseOpenAPI rangeDesc pagedDocument emptyConfig kahnSort 20 NewParser
               = Ok pagedRunDesc) by (vm_compute; reflexivity).
  specialize (H H1 H2).
  apply (f_equal (λ m, m !! "items")) in H. vm_compute in H. discriminate H.
Qed.

Example field_order_follows_enumeration :
  observe pagedRunAsc !! "items"
  = Some ([("Item", ["id"; "name"]); ("ListData", ["items"; "total"]);
           ("ListResp", ["code"; "data"])], ["ListItems"])
  ∧ observe pagedRunDesc !! "items"
  = Some ([("Item", ["name"; "id"]); ("ListData", ["total"; "items"]);
           ("ListResp", ["data"; "code"])], ["ListItems"]).
Proof. split; vm_compute; reflexivity. Qed.

(** The grouping a usage-assigned type lands in follows the enumeration of
    the modules: [Shared] goes to [chats] in one run and to [bots] in the
    other, and the grouping that did not get it has no type list. *)
Example usage_assignment_follows_enumeration :
  (λ r, match r with Ok out => Some (map_to_list (observe out)) | _ => None end)
    <$> [ParseOpenAPI rangeAsc sharedDocument emptyConfig kahnSort 20 NewParser;
         ParseOpenAPI rangeDesc sharedDocument emptyConfig kahnSort 20 NewParser]
  = [Some [("chats", ([("Shared", ["id"])], ["GetChat"])); ("bots", ([], ["GetBot"]))];
     Some [("chats", ([], ["GetChat"])); ("bots", ([("Shared", ["id"])], ["GetBot"]))]].
Proof. vm_compute. reflexivity. Qed.

(** ** The whole build *)

Section WholeBuild.

Context (range : ∀ V : Type, gmap string V → list (string * V)).
Context (doc : Document) (config : ModuleConfig).
Context (sorter : DirectedGraph → (Z → Z → bool) → option (list Z)).

(** A build that succeeds ends in a successful module assignment, on a store
    in which only arrays carry an element type if that held at the start. *)
Lemma ParseOpenAPI_ends_in_assignment fuel p mods σ' :
  ParseOpenAPI range doc config sorter fuel p = Ok (mods, σ') →
  ∃ q q', (wfHeap (σ p) → wfHeap (σ q)) ∧
          assignTypesToModules range config sorter fuel q = Ok q' ∧
          mods = modules q' ∧ σ' = σ q'.
Proof.
  unfold ParseOpenAPI. intros Hrun.
  apply bind_Ok in Hrun as (p1 & H1 & Hrun). apply bind_Ok in Hrun as (p2 & H2 & Hrun).
  apply bind_Ok in Hrun as (p3 & H3 & Hrun). apply bind_Ok in Hrun as (p4 & H4 & Hrun).
  apply bind_Ok in Hrun as (p5 & H5 & Hrun). apply bind_Ok in Hrun as (p6 & H6 & Hrun).
  apply bind_Ok in Hrun as (p7 & H7 & Hrun). apply bind_Ok in Hrun as (p8 & H8 & Hrun).
  apply bind_Ok in Hrun as (p9 & H9 & Hrun). injection Hrun as <- <-.
  exists p8, p9. split; [|done]. intros Hwf.
  apply checked_Ok in H3, H4, H5, H6, H7, H8. subst p3 p4 p5 p6 p7 p8.
  rewrite renameHandlers_heap. apply renameTypes_wfHeap.
  rewrite changeResponseTypes_heap, orderHandlers_heap.
  apply changeFieldRequirements_wfHeap, generateUnnamedResponseTypes_wfHeap.
  eapply processOperations_wfHeap; [|exact H2]. by eapply processNamedTypes_wfHeap.
Qed.

(** C7: in every grouping of a build that succeeds, a named type reached from
    the type at position [i] of the final list by walking object fields and
    array element types stands in the list at a position strictly below [i]. *)
Theorem ParseOpenAPI_topological fuel p mods σ' key m i T U :
  enumerates range → sortContract sorter →
  ParseOpenAPI range doc config sorter fuel p = Ok (mods, σ') →
  mods !! key = Some m → Types m !! i = Some T →
  tc (child σ') T U → isNamedAt σ' U →
  ∃ j, j < i ∧ Types m !! j = Some U.
Proof.
  intros Hr Hsort Hrun Hm Hi Htc HU.
  destruct (ParseOpenAPI_ends_in_assignment fuel p mods σ' Hrun) as (q & q' & _ & Hq & -> & ->).
  by eapply assignTypesToModules_topological.
Qed.

(** C10: in every grouping of a build that succeeds, each type of the final
    list is reached from the request or response body of one of the
    grouping's handlers by walking object fields and array element types; a
    type put into the grouping by the configuration map and not so reached
    is therefore not in the list. The build starts from a store in which
    only arrays carry an element type, as the empty store of a new parser. *)
Theorem ParseOpenAPI_reachable_only fuel p mods σ' key m T :
  enumerates range → sortContract sorter → wfHeap (σ p) →
  ParseOpenAPI range doc config sorter fuel p = Ok (mods, σ') →
  mods !! key = Some m → T ∈ Types m →
  ∃ h e, h ∈ HttpHandlers m ∧ (RequestBody h = Some e ∨ ResponseBody h = Some e) ∧
         rtc (child σ') e T.
Proof.
  intros Hr Hsort Hwf Hrun Hm HT.
  destruct (ParseOpenAPI_ends_in_assignment fuel p mods σ' Hrun)
    as (q & q' & Hq & Hassign & -> & ->).
  exact (assignTypesToModules_reachable_only range config sorter fuel q q' key m T
           Hr Hsort (Hq Hwf) Hassign Hm HT).
Qed.

End WholeBuild.

Lemma pagedRunAsc_run :
  ParseOpenAPI rangeAsc pagedDocument emptyConfig kahnSort 20 NewParser
  = Ok (pagedRunAsc.1, pagedRunAsc.2).
Proof. vm_compute. reflexivity. Qed.

Lemma ParseOpenAPI_topological_witness :
  ∃ j, j < 2 ∧ Types pagedItems !! j = Some 1%positive.
Proof.
  apply (ParseOpenAPI_topological rangeAsc pagedDocument emptyConfig kahnSort 20 NewParser
           pagedRunAsc.1 pagedRunAsc.2 "items" pagedItems 2 4%positive 1%positive).
  - exact rangeAsc_enumerates.
  - exact kahnSort_contract.
  - exact pagedRunAsc_run.
  - vm_compute. reflexivity.
  - vm_compute. reflexivity.
  - eapply tc_l.
    { eapply (child_field _ 4%positive _ (mkField "data" 6) 6%positive);
        [vm_compute; reflexivity|reflexivity| |reflexivity].
      apply elem_of_cons; right. apply elem_of_cons; by left. }
    eapply tc_l.
    { eapply (child_field _ 6%positive _ (mkField "items" 7) 7%positive);
        [vm_compute; reflexivity|reflexivity| |reflexivity].
      apply elem_of_cons; by left. }
    apply tc_once.
    eapply (child_elem _ 7%positive _ 1%positive); [vm_compute; reflexivity|reflexivity|reflexivity].
  - vm_compute. exact I.
Defined.

Lemma ParseOpenAPI_reachable_only_witness :
  ∃ h e, h ∈ HttpHandlers pagedItems ∧
         (RequestBody h = Some e ∨ ResponseBody h = Some e) ∧
         rtc (child pagedRunAsc.2) e 1%positive.
Proof.
  apply (ParseOpenAPI_reachable_only rangeAsc pagedDocument emptyConfig kahnSort 20 NewParser
           pagedRunAsc.1 pagedRunAsc.2 "items" pagedItems 1%positive).
  - exact rangeAsc_enumerates.
  - exact kahnSort_contract.
  - exact wfHeap_empty.
  - exact pagedRunAsc_run.
  - vm_compute. reflexivity.
  - assert (Ht : Types pagedItems = [1; 6; 4]%positive) by (vm_compute; reflexivity).
    rewrite Ht. apply elem_of_cons; by left.
Defined.

(** ** Paging *)

Lemma firstArrayField_Some (σ0 : heap) (fs : list TyField) arr :
  firstArrayField σ0 fs = Ok (Some arr) →
  ∃ f a, f ∈ fs ∧ fType f = Some a ∧ σ0 !! a = Some arr ∧ Kind arr = TyKindArray.
Proof.
  induction fs as [|f fs IH]; simpl; [done|].
  destruct (fType f) as [a|] eqn:Hf; simpl; [|done].
  destruct (σ0 !! a) as [ft|] eqn:Ha; simpl; [|done].
  destruct (decide (Kind ft = TyKindArray)) as [Hk|Hk].
  - intros [= <-]. exists f, a. split; [left|done].
  - intros H. destruct (IH H) as (f' & a' & Hin & ?). exists f', a'. split; [by right|done].
Qed.

Lemma GetActualResponseBody_Some (σ0 : heap) (h : HttpHandler) body :
  GetActualResponseBody σ0 h = Ok (Some body) →
  ∃ rp t f, ResponseBody h = Some rp ∧ σ0 !! rp = Some t ∧ Kind t = TyKindObject ∧
            f ∈ Fields t ∧ fName f = "data" ∧ fType f = Some body.
Proof.
  unfold GetActualResponseBody.
  destruct (ResponseBody h) as [rp|] eqn:Hrp; [|done]. simpl.
  destruct (σ0 !! rp) as [t|] eqn:Ht; simpl; [|done].
  destruct (decide (Kind t ≠ TyKindObject)) as [|Hk]; [done|].
  destruct (find _ (Fields t)) as [f|] eqn:Hfind; [|done].
  intros [= Hb]. apply find_some in Hfind as [Hin Hn].
  apply bool_decide_eq_true in Hn.
  exists rp, t, f. repeat split; try done.
  - by destruct (Kind t); try done; exfalso; apply Hk.
  - by apply list_elem_of_In.
Qed.

(** X1: when [GetPageInfo] reports paging, the handler is a GET; the index
    and the size name are each one of the candidates (the defaults when the
    caller passes none) and the name of a query parameter, and neither is
    empty; and the item type is the element type of an array-typed field of
    the object found in the [data] field of the response body. *)
Theorem GetPageInfo_sound (σ0 : heap) (h : HttpHandler) (ic sc : list string) (pi : PageInfo) :
  GetPageInfo σ0 h ic sc = Ok (Some pi) →
  hMethod h = "GET"
  ∧ PageIndexName pi ∈ candidatesOr ic DefaultPageIndexCandidates
  ∧ PageSizeName pi ∈ candidatesOr sc DefaultPageSizeCandidates
  ∧ PageIndexName pi ∈ (fName <$> QueryParams h)
  ∧ PageSizeName pi ∈ (fName <$> QueryParams h)
  ∧ PageIndexName pi ≠ "" ∧ PageSizeName pi ≠ ""
  ∧ ∃ body bt f a arr,
      GetActualResponseBody σ0 h = Ok (Some body) ∧ σ0 !! body = Some bt ∧
      Kind bt = TyKindObject ∧ f ∈ Fields bt ∧ fType f = Some a ∧
      σ0 !! a = Some arr ∧ Kind arr = TyKindArray ∧ ItemType pi = ElementType arr.
Proof.
  unfold GetPageInfo, candidatesOr.
  set (ic' := if decide (length ic = 0) then _ else ic).
  set (sc' := if decide (length sc = 0) then _ else sc).
  destruct (decide (hMethod h ≠ "GET")) as [|Hm]; [done|].
  apply dec_stable in Hm.
  set (names := list_to_set (fName <$> QueryParams h) : gset string).
  destruct (find (λ c, bool_decide (c ∈ names)) ic') as [i|] eqn:Hi; simpl; cycle 1.
  { done. }
  destruct (find (λ c, bool_decide (c ∈ names) && bool_decide (c ≠ i)) sc')
    as [s|] eqn:Hs; simpl; cycle 1.
  { case_decide as Hn; [done|]. exfalso; apply Hn; by right. }
  destruct (decide (i = "" ∨ s = "")) as [|Hne]; [done|].
  apply find_some in Hi as [Hiin Hi]. apply bool_decide_eq_true in Hi.
  apply find_some in Hs as [Hsin Hs]. apply andb_prop in Hs as [Hs _].
  apply bool_decide_eq_true in Hs.
  unfold names in Hi, Hs. rewrite elem_of_list_to_set in Hi, Hs.
  apply list_elem_of_In in Hiin, Hsin.
  destruct (GetActualResponseBody σ0 h) as [[ab|]| | |] eqn:Hab; simpl; try done.
  destruct (σ0 !! ab) as [bt|] eqn:Hbt; simpl; [|done].
  destruct (decide (Kind bt ≠ TyKindObject)) as [|Hk]; [done|].
  apply dec_stable in Hk.
  destruct (firstArrayField σ0 (Fields bt)) as [[arr|]| | |] eqn:Harr; simpl; try done.
  intros [= <-]; simpl.
  apply firstArrayField_Some in Harr as (f & a & Hf & Hfa & Ha & Hka).
  repeat split; try done.
  - intros ->. apply Hne. by left.
  - intros ->. apply Hne. by right.
  - exists ab, bt, f, a, arr. done.
Qed.

Lemma GetPageInfo_sound_witness :
  let pi := {| ItemType := Some 6%positive; PageIndexName := "page_index";
               PageSizeName := "page_size" |} in
  GetPageInfo pagedHeap pagedHandler3 [] [] = Ok (Some pi)
  ∧ hMethod pagedHandler3 = "GET"
  ∧ PageIndexName pi ∈ candidatesOr [] DefaultPageIndexCandidates
  ∧ PageSizeName pi ∈ candidatesOr [] DefaultPageSizeCandidates.
Proof.
  intros pi.
  assert (Hrun : GetPageInfo pagedHeap pagedHandler3 [] [] = Ok (Some pi))
    by (vm_compute; reflexivity).
  split; [exact Hrun|].
  destruct (GetPageInfo_sound pagedHeap pagedHandler3 [] [] pi Hrun) as (H1 & H2 & H3 & _).
  exact (conj H1 (conj H2 H3)).
Defined.

Lemma status_fields_no_data (fs : list TyField) :
  forallb (λ f, bool_decide (fName f ∈ statusFields)) fs = true →
  find (λ f, bool_decide (fName f = "data")) fs = None.
Proof.
  induction fs as [|f fs IH]; simpl; [done|].
  intros H. apply andb_prop in H as [Hf Hfs]. apply bool_decide_eq_true in Hf.
  rewrite bool_decide_false; [by apply IH|].
  intros Hd. rewrite Hd in Hf. revert Hf. apply (bool_decide_eq_false_1 _). vm_compute.
  reflexivity.
Qed.

(** X2: a response body for which [HasOnlyStatusFields] holds has no [data]
    field: [GetActualResponseBody] returns nil for its handler and
    [GetPageInfo] reports no paging, whatever the candidates. *)
Theorem status_only_never_unwrapped (σ0 : heap) (h : HttpHandler) (rp : ptr) (t : Ty)
    (ic sc : list string) :
  ResponseBody h = Some rp → σ0 !! rp = Some t → HasOnlyStatusFields t = true →
  GetActualResponseBody σ0 h = Ok None ∧ GetPageInfo σ0 h ic sc = Ok None.
Proof.
  intros Hrp Ht Hs. unfold HasOnlyStatusFields in Hs.
  destruct (decide (Kind t ≠ TyKindObject)) as [|Hk]; [done|]. apply dec_stable in Hk.
  destruct (forallb _ (Fields t)) eqn:Hall; [|done].
  assert (Hab : GetActualResponseBody σ0 h = Ok None).
  { rewrite (GetActualResponseBody_object σ0 h rp t Hrp Ht Hk).
    by rewrite (status_fields_no_data _ Hall). }
  split; [done|]. unfold GetPageInfo. rewrite Hab. simpl.
  repeat case_decide; done.
Qed.

Lemma status_only_never_unwrapped_witness :
  ResponseBody statusHandler = Some 1%positive
  ∧ GetActualResponseBody statusHeap statusHandler = Ok None
  ∧ GetPageInfo statusHeap statusHandler [] [] = Ok None.
Proof.
  split; [reflexivity|].
  apply (status_only_never_unwrapped statusHeap statusHandler 1%positive
           (objTy "" false [mkField "code" 2; mkField "msg" 3]) [] []);
    vm_compute; reflexivity.
Defined.

(** ** Reference names *)

Lemma afterLastSlash_None (s : string) : afterLastSlash s = None ↔ hasSlash s = false.
Proof.
  induction s as [|c r IH]; simpl; [done|].
  destruct (afterLastSlash r) as [t|].
  - split; [done|]. intros H. apply orb_false_elim in H as [_ H]. apply IH in H. done.
  - destruct (Ascii.eqb c "/"); simpl; [done|]. split; [intros _; by apply IH|done].
Qed.

Lemma afterLastSlash_Some (s t : string) : afterLastSlash s = Some t → hasSlash t = false.
Proof.
  revert t. induction s as [|c r IH]; intros t; simpl; [done|].
  destruct (afterLastSlash r) as [t'|] eqn:Hr.
  - intros [= <-]. by apply IH.
  - destruct (Ascii.eqb c "/"); [|done]. intros [= <-]. by apply afterLastSlash_None.
Qed.

(** X3: [getRefName] returns what follows the last slash: its result holds
    no slash; a slash-free name put after a slash is returned as it is; and
    a reference without a slash is returned whole. *)
Theorem getRefName_spec (pre n : string) :
  hasSlash (getRefName pre) = false
  ∧ (hasSlash n = false → getRefName (pre +:+ "/" +:+ n) = n)
  ∧ (hasSlash pre = false → getRefName pre = pre).
Proof.
  unfold getRefName. split; [|split].
  - destruct (afterLastSlash pre) as [t|] eqn:H; simpl.
    + by eapply afterLastSlash_Some.
    + by apply afterLastSlash_None.
  - intros Hn. apply afterLastSlash_None in Hn.
    assert (afterLastSlash (pre +:+ "/" +:+ n) = Some n) as ->; [|done].
    induction pre as [|c r IH]; simpl.
    + change ("" +:+ n) with n. by rewrite Hn.
    + by rewrite IH.
  - intros Hp. apply afterLastSlash_None in Hp. by rewrite Hp.
Qed.

Lemma getRefName_spec_witness :
  hasSlash "Bot" = false ∧ getRefName ("#/components/schemas" +:+ "/" +:+ "Bot") = "Bot".
Proof.
  split; [reflexivity|].
  apply (getRefName_spec "#/components/schemas" "Bot"). reflexivity.
Defined.

(** ** What a conversion leaves alone *)

Lemma frameOf_refl p : frameOf p p.
Proof. repeat split; auto. lia. Qed.

Lemma frameOf_trans p q r : frameOf p q → frameOf q r → frameOf p r.
Proof.
  intros (Hm1 & Hn1 & Hh1 & Hd1 & Hr1) (Hm2 & Hn2 & Hh2 & Hd2 & Hr2).
  repeat split; auto.
  - congruence.
  - lia.
  - intros a Ha. rewrite Hh2 by lia. by apply Hh1.
Qed.

Lemma extends_refl p : extends p p.
Proof. split; [apply frameOf_refl|auto]. Qed.

Lemma extends_trans p q r : extends p q → extends q r → extends p r.
Proof.
  intros (F1 & A1 & V1) (F2 & A2 & V2). split; [by eapply frameOf_trans|auto].
Qed.

Lemma extends_alloc p t : extends p (alloc p t).2.
Proof.
  unfold alloc; simpl. split; [|split].
  - repeat split; simpl; auto.
    + lia.
    + intros a Ha. rewrite lookup_insert_ne; [done|lia].
    + intros a Ha. destruct (decide (a = nextPtr p)) as [->|].
      * rewrite lookup_insert_eq. eauto.
      * by rewrite lookup_insert_ne.
  - intros Hal a. simpl. destruct (decide (a = nextPtr p)) as [->|].
    + intros _. lia.
    + rewrite lookup_insert_ne by done. intros Ha. specialize (Hal a Ha). lia.
  - intros Hv n a Hn. simpl in *. destruct (decide (a = nextPtr p)) as [->|].
    + rewrite lookup_insert_eq. eauto.
    + rewrite lookup_insert_ne by done. by eapply Hv.
Qed.

Lemma extends_store p q ty t :
  extends p q → (nextPtr p ≤ ty)%positive → (ty < nextPtr q)%positive →
  extends p (store q ty t).
Proof.
  intros ((Hm & Hn & Hh & Hd & Hr) & Hal & Hv) Hlo Hhi. unfold store, setHeap.
  split; [|split]; simpl.
  - repeat split; simpl; auto.
    + intros a Ha. rewrite lookup_insert_ne by lia. by apply Hh.
    + intros a Ha. destruct (decide (a = ty)) as [->|].
      * rewrite lookup_insert_eq. eauto.
      * rewrite lookup_insert_ne by done. by apply Hd.
  - intros Hp a. simpl. destruct (decide (a = ty)) as [->|].
    + done.
    + rewrite lookup_insert_ne by done. by apply Hal.
  - intros Hp n a Hna. simpl in *. destruct (decide (a = ty)) as [->|].
    + rewrite lookup_insert_eq. eauto.
    + rewrite lookup_insert_ne by done. by eapply (Hv Hp).
Qed.

Lemma extends_register p q name ty :
  extends p q → is_Some (σ q !! ty) →
  extends p (setNamedTypes q (<[name := ty]> (namedTypes q))).
Proof.
  intros ((Hm & Hn & Hh & Hd & Hr) & Hal & Hv) Hty. unfold setNamedTypes.
  split; [|split]; simpl.
  - repeat split; simpl; auto.
    intros n Hn'. destruct (decide (n = name)) as [->|].
    + rewrite lookup_insert_eq. eauto.
    + rewrite lookup_insert_ne by done. by apply Hr.
  - done.
  - intros Hp n a. simpl. destruct (decide (n = name)) as [->|].
    + rewrite lookup_insert_eq. by intros [= <-].
    + rewrite lookup_insert_ne by done. by apply (Hv Hp).
Qed.

Section Frame.

Context (range : ∀ V : Type, gmap string V → list (string * V)).
Context (doc : Document).

Lemma convertProperties_extends
    (convert : Parser → option SchemaRef → string → bool → result (ptr * Parser))
    (v : Schema) p0 p fields p' :
  convertProperties range convert v p = Ok (fields, p') → extends p0 p →
  (∀ p schema name isNamed ty p',
     extends p0 p → convert p schema name isNamed = Ok (ty, p') → extends p0 p') →
  extends p0 p'.
Proof.
  intros Hrun Hwf Hconv.
  assert (Hstep : ∀ acc n prop acc',
            extends p0 acc.2 →
            appendField convert (Required v) acc n prop = Ok acc' → extends p0 acc'.2).
  { intros acc n prop acc' Hacc Happ. unfold appendField in Happ.
    apply bind_Ok in Happ as ([field q] & Hfield & Happ). injection Happ as <-. simpl.
    apply wrap_Ok in Hfield. unfold convertField in Hfield.
    apply bind_Ok in Hfield as ([ft q1] & Hc & Hfield).
    destruct prop as [[r [sv|]]|]; try done. injection Hfield as _ <-.
    by eapply Hconv. }
  unfold convertProperties in Hrun.
  set (P := λ acc : list TyField * Parser, extends p0 acc.2).
  change (P (fields, p')). change (P ([], p)) in Hwf.
  destruct (Extensions v !! "x-coze-order") as [[| | | |order]|]; try done.
  - refine (forM_invariant P _ _ _ _ Hrun Hwf _).
    intros acc [n prop] acc' _ Hacc Happ. by eapply Hstep.
  - refine (forM_invariant P _ _ _ _ Hrun Hwf _).
    intros acc pname acc' _ Hacc Happ.
    apply bind_Ok in Happ as (n & _ & Happ).
    destruct (mjoin (Properties v !! n)); [by eapply Hstep|by injection Happ as <-].
  - refine (forM_invariant P _ _ _ _ Hrun Hwf _).
    intros acc [n prop] acc' _ Hacc Happ. by eapply Hstep.
Qed.

Lemma convertSchema_extends fuel p0 p schema name isNamed ty p' :
  extends p0 p → convertSchema range doc fuel p schema name isNamed = Ok (ty, p') →
  extends p0 p' ∧ (registryValid p → is_Some (σ p' !! ty)).
Proof.
  revert p0 p schema name isNamed ty p'.
  induction fuel as [|fuel IH]; intros p0 p schema name isNamed ty p' Hext Hrun; [done|].
  simpl in Hrun. destruct schema as [[ref [v|]]|]; try done.
  destruct (decide (ref ≠ "")).
  { destruct (namedTypes p !! getRefName ref) as [existing|] eqn:Hex.
    - injection Hrun as <- <-. split; [done|]. intros Hv. by eapply Hv.
    - destruct (Components doc); [|done]. by eapply IH. }
  set (t0 := {| Name := name |}) in *.
  pose proof (extends_alloc p t0) as Ha. unfold alloc in Ha; simpl in Ha.
  set (p1 := {| σ := <[nextPtr p := t0]> (σ p) |}) in *.
  assert (Hext1 : extends p0 p1) by (by eapply extends_trans).
  assert (Hfinal : ∀ q t, extends p1 q → extends p (store q (nextPtr p) t)
                          ∧ is_Some (σ (store q (nextPtr p) t) !! nextPtr p)).
  { intros q t Hq. split.
    - apply extends_store; [by eapply extends_trans|lia|].
      destruct Hq as ((_ & Hn & _) & _). simpl in Hn. lia.
    - simpl. rewrite lookup_insert_eq. eauto. }
  destruct (AdditionalProperties v) as [ap|].
  { apply bind_Ok in Hrun as ([vt q] & Hv & Hrun). apply wrap_Ok in Hv.
    injection Hrun as <- <-.
    destruct (IH p1 p1 _ _ _ _ _ (extends_refl _) Hv) as [Hq _].
    destruct (Hfinal q (withValueType (withKind t0 TyKindMap) (Some vt)) Hq) as [H1 H2].
    split; [eapply extends_trans; [exact Hext|exact H1]|intros _; exact H2]. }
  apply bind_Ok in Hrun as ([t q] & Hbody & Hrun).
  assert (Hq : extends p1 q).
  { destruct (Type_ v) as [|ty0 rest].
    - injection Hbody as <- <-. apply extends_refl.
    - destruct (decide (ty0 = "array")).
      + destruct (Items v) as [items|].
        * apply bind_Ok in Hbody as ([et q1] & He & Hbody). apply wrap_Ok in He.
          injection Hbody as <- <-.
          exact (proj1 (IH p1 p1 _ _ _ _ _ (extends_refl _) He)).
        * injection Hbody as <- <-. apply extends_refl.
      + destruct (decide (ty0 = "object")).
        * apply bind_Ok in Hbody as ([fields q1] & Hp & Hbody). injection Hbody as <- <-.
          refine (convertProperties_extends _ v p1 _ _ _ Hp (extends_refl _) _).
          intros ? ? ? ? ? ? Hx Hc. exact (proj1 (IH _ _ _ _ _ _ _ Hx Hc)).
        * apply bind_Ok in Hbody as (evs & _ & Hbody). injection Hbody as <- <-.
          apply extends_refl. }
  destruct isNamed; injection Hrun as <- <-.
  - destruct (Hfinal q t Hq) as [H1 H2]. split.
    + eapply extends_trans; [exact Hext|].
      by apply (extends_register p (store q (nextPtr p) t)).
    + intros _. exact H2.
  - destruct (Hfinal q (withDescription t "") Hq) as [H1 H2].
    split; [eapply extends_trans; [exact Hext|exact H1]|intros _; exact H2].
Qed.

End Frame.

Lemma allocated_NewParser : allocated NewParser.
Proof. intros a [t H]. simpl in H. by rewrite lookup_empty in H. Qed.

Lemma registryValid_NewParser : registryValid NewParser.
Proof. intros n a H. simpl in H. by rewrite lookup_empty in H. Qed.

Lemma extends_subseteq p q : extends p q → allocated p → σ p ⊆ σ q.
Proof.
  intros ((_ & _ & Hh & _) & _) Hal. apply map_subseteq_spec. intros a t Ha.
  rewrite Hh; [done|]. apply Hal. eauto.
Qed.

Section Conversion.

Context (range : ∀ V : Type, gmap string V → list (string * V)).
Context (doc : Document).

(** X4: a conversion that succeeds only adds to the parser: every type of
    the store is still there, unchanged; the modules are untouched; no
    registered name is lost; and the returned address holds a type. It
    keeps the two invariants it starts from: every address in use was handed
    out by the allocator, and every registered address holds a type. *)
Theorem convertSchema_only_adds (fuel : nat) (p : Parser) (schema : option SchemaRef)
    (name : string) (isNamed : bool) (ty : ptr) (p' : Parser) :
  allocated p → registryValid p →
  convertSchema range doc fuel p schema name isNamed = Ok (ty, p') →
  σ p ⊆ σ p' ∧ modules p' = modules p
  ∧ (∀ n, is_Some (namedTypes p !! n) → is_Some (namedTypes p' !! n))
  ∧ is_Some (σ p' !! ty) ∧ allocated p' ∧ registryValid p'.
Proof.
  intros Hal Hv Hrun.
  destruct (convertSchema_extends range doc fuel p p _ _ _ _ _ (extends_refl p) Hrun)
    as [Hext Hty].
  split; [by apply extends_subseteq|].
  destruct Hext as ((Hm & _ & _ & _ & Hr) & Hal' & Hv'). auto 10.
Qed.

Lemma convertOperation_extends fuel p path method op h p' :
  convertOperation range doc fuel p path method op = Ok (h, p') → extends p p'.
Proof.
  intros Hrun. unfold convertOperation in Hrun.
  apply bind_Ok in Hrun as ([h1 p1] & Hparams & Hrun).
  assert (Hp1 : extends p p1).
  { set (P := λ acc : HttpHandler * Parser, extends p acc.2). change (P (h1, p1)).
    pose proof (extends_refl p) as H0.
    match type of Hparams with forM _ ?s0 _ = _ => change (P s0) in H0 end.
    refine (forM_invariant P _ _ _ _ Hparams H0 _).
    intros [h0 q0] [pv|] acc' _ Hacc Hstep; [|by injection Hstep as <-].
    apply bind_Ok in Hstep as ([pt q1] & Hc & Hstep). apply wrap_Ok in Hc.
    injection Hstep as <-.
    exact (proj1 (convertSchema_extends range doc _ _ _ _ _ _ _ _ Hacc Hc)). }
  apply bind_Ok in Hrun as ([h2 p2] & Hreq & Hrun).
  assert (Hp2 : extends p p2).
  { destruct (opRequestBody op ≫= firstWithSchema range) as [[ct sc]|].
    - apply bind_Ok in Hreq as ([rt q1] & Hc & Hreq). apply wrap_Ok in Hc.
      injection Hreq as _ <-.
      exact (proj1 (convertSchema_extends range doc _ _ _ _ _ _ _ _ Hp1 Hc)).
    - by injection Hreq as _ <-. }
  destruct (Responses op !! "200" ≫= firstWithSchema range) as [[ct sc]|].
  - apply bind_Ok in Hrun as ([rt q1] & Hc & Hrun). apply wrap_Ok in Hc.
    injection Hrun as _ <-.
    exact (proj1 (convertSchema_extends range doc _ _ _ _ _ _ _ _ Hp2 Hc)).
  - by injection Hrun as _ <-.
Qed.

Lemma processNamedTypes_loop fuel (L : list (string * option SchemaRef)) p p' :
  forM (λ p '(name, schema),
          match namedTypes p !! name with
          | Some _ => Ok p
          | None =>
              '(ty, p) ← wrap ("failed to convert schema " +:+ name +:+ ": err: ")
                           (convertSchema range doc fuel p schema name true);
              Ok (setNamedTypes p (<[name := ty]> (namedTypes p)))
          end) p L = Ok p' →
  (registryValid p → extends p p') ∧
  (frameOf p p') ∧
  ∀ e, e ∈ L → is_Some (namedTypes p' !! e.1).
Proof.
  revert p. induction L as [|[n sc] L IH]; intros p Hrun.
  - injection Hrun as <-. split; [intros; apply extends_refl|].
    split; [apply frameOf_refl|]. intros e He. by apply elem_of_nil in He.
  - simpl in Hrun. apply bind_Ok in Hrun as (q & Hstep & Hrun).
    destruct (IH q Hrun) as (Hext & Hfr & Hall).
    assert (Hq : (registryValid p → extends p q) ∧ frameOf p q ∧ is_Some (namedTypes q !! n)).
    { destruct (namedTypes p !! n) as [a|] eqn:Hn.
      - injection Hstep as <-. split; [intros; apply extends_refl|].
        split; [apply frameOf_refl|]. by rewrite Hn.
      - apply bind_Ok in Hstep as ([ty q1] & Hc & Hstep). apply wrap_Ok in Hc.
        injection Hstep as <-.
        destruct (convertSchema_extends range doc _ p p _ _ _ _ _ (extends_refl p) Hc)
          as [Hx Hty].
        split; [|split].
        + intros Hv. apply extends_register; [done|]. by apply Hty.
        + destruct Hx as ((Hm & Hnx & Hh & Hd & Hr) & _).
          repeat split; simpl; auto.
          intros k Hk. destruct (decide (k = n)) as [->|].
          * rewrite lookup_insert_eq. eauto.
          * rewrite lookup_insert_ne by done. by apply Hr.
        + simpl. rewrite lookup_insert_eq. eauto. }
    destruct Hq as (Hq1 & Hq2 & Hq3). split; [|split].
    + intros Hv. specialize (Hq1 Hv). eapply extends_trans; [exact Hq1|].
      apply Hext. by apply Hq1.
    + by eapply frameOf_trans.
    + intros e He. apply elem_of_cons in He as [->|He]; [|by apply Hall].
      simpl. destruct Hfr as (_ & _ & _ & _ & Hr). by apply Hr.
Qed.

Lemma processNamedTypes_extends fuel p p' :
  registryValid p → processNamedTypes range doc fuel p = Ok p' → extends p p'.
Proof.
  intros Hv Hrun. unfold processNamedTypes in Hrun.
  destruct (Components doc) as [schemas|]; [|injection Hrun as <-; apply extends_refl].
  apply processNamedTypes_loop in Hrun as (H & _). by apply H.
Qed.

(** X5: when [processNamedTypes] succeeds, every component schema of the
    document has its name registered, no earlier registration is lost, and
    the modules are untouched. *)
Theorem processNamedTypes_registers (fuel : nat) (p p' : Parser)
    (schemas : gmap string (option SchemaRef)) :
  enumerates range → Components doc = Some schemas →
  processNamedTypes range doc fuel p = Ok p' →
  (∀ n, is_Some (schemas !! n) → is_Some (namedTypes p' !! n))
  ∧ (∀ n, is_Some (namedTypes p !! n) → is_Some (namedTypes p' !! n))
  ∧ modules p' = modules p.
Proof.
  intros Hr Hc Hrun. unfold processNamedTypes in Hrun. rewrite Hc in Hrun.
  apply processNamedTypes_loop in Hrun as (_ & (Hm & _ & _ & _ & Hreg) & Hall).
  split; [|done]. intros n [s Hs].
  apply (Hall (n, s)). by apply (enumerates_lookup range).
Qed.

End Conversion.

Lemma convertSchema_only_adds_witness :
  ∃ ty p', convertSchema rangeAsc pagedDocument 10 NewParser (Some (refTo "ListResp")) "" false
             = Ok (ty, p')
           ∧ σ NewParser ⊆ σ p' ∧ is_Some (σ p' !! ty) ∧ allocated p'.
Proof.
  eexists _, _. split; [vm_compute; reflexivity|].
  match goal with |- _ ⊆ σ ?q ∧ is_Some (σ _ !! ?t) ∧ _ =>
    destruct (convertSchema_only_adds rangeAsc pagedDocument 10 NewParser
                (Some (refTo "ListResp")) "" false t q
                allocated_NewParser registryValid_NewParser)
      as (H1 & _ & _ & H2 & H3 & _)
  end; [vm_compute; reflexivity|].
  exact (conj H1 (conj H2 H3)).
Defined.

Lemma processNamedTypes_registers_witness :
  ∃ p', processNamedTypes rangeAsc pagedDocument 10 NewParser = Ok p'
        ∧ is_Some (namedTypes p' !! "Item").
Proof.
  eexists. split; [vm_compute; reflexivity|].
  match goal with |- is_Some (namedTypes ?q !! _) =>
    destruct (processNamedTypes_registers rangeAsc pagedDocument 10 NewParser q
                (default ∅ (Components pagedDocument)) rangeAsc_enumerates)
      as (H1 & _)
  end; [reflexivity|vm_compute; reflexivity|].
  apply H1. vm_compute. eauto.
Defined.

(** ** Operations and their handlers *)

Lemma forM_establishes {A S} (Q : A → S → Prop) (body : S → A → result S) l s s' :
  forM body s l = Ok s' →
  (∀ s a s', a ∈ l → body s a = Ok s' → Q a s') →
  (∀ a s b s', a ∈ l → b ∈ l → Q a s → body s b = Ok s' → Q a s') →
  ∀ a, a ∈ l → Q a s'.
Proof.
  revert s. induction l as [|b l IH]; intros s Hrun Hest Hkeep a Ha.
  - by apply elem_of_nil in Ha.
  - simpl in Hrun. apply bind_Ok in Hrun as (s1 & Hstep & Hrun).
    apply elem_of_cons in Ha as [->|Ha].
    + assert (Hq : Q b s1) by (eapply Hest; [apply elem_of_cons; by left|done]).
      refine (forM_invariant (Q b) _ _ _ _ Hrun Hq _).
      intros s2 c s3 Hc Hq2 Hb. eapply (Hkeep b s2 c); [| |done|done].
      * apply elem_of_cons. by left.
      * apply elem_of_cons. by right.
    + eapply (IH s1); [done| | |done].
      * intros s2 c s3 Hc. apply Hest, elem_of_cons. by right.
      * intros c s2 d s3 Hc Hd. apply Hkeep; apply elem_of_cons; by right.
Qed.

Section Operations.

Context (range : ∀ V : Type, gmap string V → list (string * V)).
Context (doc : Document).

Lemma params_loop_fields fuel (params : list (option OpParameter)) h0 p0 h1 p1 :
  forM (λ '(handler, p) param,
          match param with
          | None => Ok (handler, p)
          | Some pv =>
              '(paramType, p) ← wrap "failed to convert parameter schema: "
                                  (convertSchema range doc fuel p (paramSchema pv) "" false);
              Ok (appendParam handler (paramIn pv)
                    {| fName := paramName pv; fDescription := paramDescription pv;
                       fType := Some paramType; fRequired := paramRequired pv;
                       fDefault := "" |}, p)
          end)
       (h0, p0) params = Ok (h1, p1) →
  hName h1 = hName h0 ∧ hDescription h1 = hDescription h0 ∧ hPath h1 = hPath h0 ∧
  hMethod h1 = hMethod h0 ∧ RequestBody h1 = RequestBody h0 ∧
  ResponseBody h1 = ResponseBody h0 ∧
  (∃ hs, HeaderParams h1 = HeaderParams h0 ++ hs ∧
         Forall2 fieldOfParam hs (filter (λ pv, paramIn pv = "header") (omap id params))) ∧
  (∃ hs, PathParams h1 = PathParams h0 ++ hs ∧
         Forall2 fieldOfParam hs (filter (λ pv, paramIn pv = "path") (omap id params))) ∧
  (∃ hs, QueryParams h1 = QueryParams h0 ++ hs ∧
         Forall2 fieldOfParam hs (filter (λ pv, paramIn pv = "query") (omap id params))).
Proof.
  revert h0 p0. induction params as [|param params IH]; intros h0 p0 Hrun.
  - injection Hrun as <- <-. repeat split; try done; exists []; by rewrite app_nil_r.
  - simpl in Hrun. apply bind_Ok in Hrun as ([h2 p2] & Hstep & Hrun).
    destruct (IH h2 p2 Hrun) as (E1 & E2 & E3 & E4 & E5 & E6 & (hh & Hh & Fh) & (hp & Hp & Fp)
                                 & (hq & Hq & Fq)).
    destruct param as [pv|]; [|injection Hstep as <- <-; csimpl; eauto 20].
    apply bind_Ok in Hstep as ([pt q1] & Hc & Hstep). injection Hstep as <- <-.
    simpl in *. csimpl.
    set (f := {| fName := paramName pv |}) in *.
    assert (Hf : fieldOfParam f pv) by (repeat split; simpl; eauto).
    repeat split; try done.
    + rewrite filter_cons. destruct (decide (paramIn pv = "header")) as [He|He].
      * rewrite Hh. destruct (decide (paramIn pv = "header")); [|done].
        exists (f :: hh). rewrite <- app_assoc. split; [done|by constructor].
      * rewrite Hh. destruct (decide (paramIn pv = "header")); [done|]. eauto.
    + rewrite filter_cons. destruct (decide (paramIn pv = "path")) as [He|He].
      * rewrite Hp. destruct (decide (paramIn pv = "path")); [|done].
        exists (f :: hp). rewrite <- app_assoc. split; [done|by constructor].
      * rewrite Hp. destruct (decide (paramIn pv = "path")); [done|]. eauto.
    + rewrite filter_cons. destruct (decide (paramIn pv = "query")) as [He|He].
      * rewrite Hq. destruct (decide (paramIn pv = "query")); [|done].
        exists (f :: hq). rewrite <- app_assoc. split; [done|by constructor].
      * rewrite Hq. destruct (decide (paramIn pv = "query")); [done|]. eauto.
Qed.

(** X6: the handler [convertOperation] returns carries the operation's id,
    description, path and method; its header, path and query parameters are
    the parameters the operation declares for that location, in declaration
    order, each with the declared name, description and required flag; and
    it has a request body (a response body) exactly when the request body
    (the [200] response) has a media type with a schema. *)
Theorem convertOperation_handler (fuel : nat) (p : Parser) (path method : string)
    (op : Operation) (h : HttpHandler) (p' : Parser) :
  convertOperation range doc fuel p path method op = Ok (h, p') →
  handlerOf h path method op
  ∧ Forall2 fieldOfParam (HeaderParams h) (declaredParams "header" op)
  ∧ Forall2 fieldOfParam (PathParams h) (declaredParams "path" op)
  ∧ Forall2 fieldOfParam (QueryParams h) (declaredParams "query" op)
  ∧ (is_Some (RequestBody h) ↔ is_Some (opRequestBody op ≫= firstWithSchema range))
  ∧ (is_Some (ResponseBody h) ↔ is_Some (Responses op !! "200" ≫= firstWithSchema range)).
Proof.
  intros Hrun. unfold convertOperation in Hrun.
  apply bind_Ok in Hrun as ([h1 p1] & Hparams & Hrun).
  apply params_loop_fields in Hparams
    as (E1 & E2 & E3 & E4 & E5 & E6 & (hh & Hh & Fh) & (hp & Hp & Fp) & (hq & Hq & Fq)).
  simpl in *. subst hh hp hq.
  apply bind_Ok in Hrun as ([h2 p2] & Hreq & Hrun).
  assert (H2 : hName h2 = hName h1 ∧ hDescription h2 = hDescription h1 ∧
               hPath h2 = hPath h1 ∧ hMethod h2 = hMethod h1 ∧
               HeaderParams h2 = HeaderParams h1 ∧ PathParams h2 = PathParams h1 ∧
               QueryParams h2 = QueryParams h1 ∧ ResponseBody h2 = ResponseBody h1 ∧
               (is_Some (RequestBody h2) ↔
                is_Some (opRequestBody op ≫= firstWithSchema range))).
  { destruct (opRequestBody op ≫= firstWithSchema range) as [[ct sc]|].
    - apply bind_Ok in Hreq as ([rt q1] & Hc & Hreq). injection Hreq as <- <-. simpl.
      repeat split; eauto.
    - injection Hreq as <- <-. repeat split; try done; rewrite ?E5; by intros [? ?]. }
  destruct H2 as (F1 & F2 & F3 & F4 & F5 & F6 & F7 & F8 & F9).
  assert (H3 : hName h = hName h2 ∧ hDescription h = hDescription h2 ∧
               hPath h = hPath h2 ∧ hMethod h = hMethod h2 ∧
               HeaderParams h = HeaderParams h2 ∧ PathParams h = PathParams h2 ∧
               QueryParams h = QueryParams h2 ∧ RequestBody h = RequestBody h2 ∧
               (is_Some (ResponseBody h) ↔
                is_Some (Responses op !! "200" ≫= firstWithSchema range))).
  { destruct (Responses op !! "200" ≫= firstWithSchema range) as [[ct sc]|].
    - apply bind_Ok in Hrun as ([rt q1] & Hc & Hrun). injection Hrun as <- <-. simpl.
      repeat split; eauto.
    - injection Hrun as <- <-. repeat split; try done; rewrite ?F8, ?E6; by intros [? ?]. }
  destruct H3 as (G1 & G2 & G3 & G4 & G5 & G6 & G7 & G8 & G9).
  unfold handlerOf, declaredParams.
  split; [repeat split; congruence|].
  split; [by rewrite G5, F5|]. split; [by rewrite G6, F6|]. split; [by rewrite G7, F7|].
  split; [by rewrite G8|done].
Qed.

Lemma convertOperation_handlerOf fuel p path method op h p' :
  convertOperation range doc fuel p path method op = Ok (h, p') →
  handlerOf h path method op.
Proof.
  intros Hrun. unfold convertOperation in Hrun.
  apply bind_Ok in Hrun as ([h1 p1] & Hparams & Hrun).
  apply params_loop_fields in Hparams as (E1 & E2 & E3 & E4 & _). simpl in *.
  apply bind_Ok in Hrun as ([h2 p2] & Hreq & Hrun).
  assert (H2 : handlerOf h2 path method op).
  { destruct (opRequestBody op ≫= firstWithSchema range) as [[ct sc]|].
    - apply bind_Ok in Hreq as ([rt q1] & Hc & Hreq). by injection Hreq as <- <-.
    - by injection Hreq as <- <-. }
  destruct (Responses op !! "200" ≫= firstWithSchema range) as [[ct sc]|].
  - apply bind_Ok in Hrun as ([rt q1] & Hc & Hrun). by injection Hrun as <- <-.
  - by injection Hrun as <- <-.
Qed.

Lemma operation_step fuel q path method op q' :
  ('(handler, p) ← wrap ("failed to convert operation " +:+ OperationID op +:+ ": ")
                     (convertOperation range doc fuel q path method op);
   let moduleName :=
     if decide (0 < length (Tags op)) then joinDot (Tags op) else "default" in
   let module :=
     default {| mName := moduleName; HttpHandlers := []; Types := [] |}
             (modules p !! moduleName) in
   Ok (setModules p (<[moduleName := appendHandler module handler]> (modules p)))) = Ok q' →
  ∃ h, handlerOf h path method op ∧
       modules q' = <[moduleNameOf op :=
                        appendHandler (default {| mName := moduleNameOf op;
                                                  HttpHandlers := []; Types := [] |}
                                               (modules q !! moduleNameOf op)) h]> (modules q).
Proof.
  intros Hrun. apply bind_Ok in Hrun as ([h q0] & Hc & Hrun). apply wrap_Ok in Hc.
  injection Hrun as <-. exists h.
  split; [by eapply convertOperation_handlerOf|].
  apply convertOperation_extends in Hc as ((Hm & _) & _). simpl. by rewrite Hm.
Qed.

(** X7: after [processOperations], a module holds the handlers it had,
    followed by handlers of operations of the document tagged for it; its
    type list and name are as before (a module created on the way is named
    by its key and has no types); and no module is lost. *)
Theorem processOperations_sound (fuel : nat) (p p' : Parser) :
  enumerates range → processOperations range doc fuel p = Ok p' →
  (∀ key m', modules p' !! key = Some m' → moduleGrown doc p key m')
  ∧ (∀ key, is_Some (modules p !! key) → is_Some (modules p' !! key)).
Proof.
  intros Hr Hrun.
  set (Inv := λ q : Parser, ∀ key,
         match modules q !! key with
         | Some m' => moduleGrown doc p key m'
         | None => modules p !! key = None
         end).
  assert (H0 : Inv p).
  { intros key. destruct (modules p !! key) as [m|] eqn:Hm; [|done].
    exists []. unfold moduleGrown. rewrite Hm. simpl. by rewrite app_nil_r. }
  assert (Hfin : Inv p').
  { unfold processOperations in Hrun.
    refine (forM_invariant Inv _ _ _ _ Hrun H0 _).
    intros q [path item] q' Hin Hq Hstep.
    apply (enumerates_lookup range) in Hin; [|done].
    refine (forM_invariant Inv _ _ _ _ Hstep Hq _).
    intros q1 [method op] q2 Hin2 Hq1 Hop.
    apply (enumerates_lookup range) in Hin2; [|done].
    apply operation_step in Hop as (h & Hh & Hmods).
    intros key. rewrite Hmods. destruct (decide (key = moduleNameOf op)) as [->|Hne].
    - rewrite lookup_insert_eq. specialize (Hq1 (moduleNameOf op)).
      assert (Hfrom : fromOperation doc (moduleNameOf op) h)
        by (by exists path, item, method, op).
      destruct (modules q1 !! moduleNameOf op) as [m|]; simpl.
      + destruct Hq1 as (new & H1 & H2 & H3 & H4). exists (new ++ [h]). simpl.
        rewrite H1, app_assoc. split; [done|]. split; [|done].
        apply Forall_app. split; [done|]. by constructor.
      + exists [h]. rewrite Hq1. simpl. split; [done|]. split; [|done]. by constructor.
    - rewrite lookup_insert_ne by done. apply Hq1. }
  split.
  - intros key m' Hm. specialize (Hfin key). by rewrite Hm in Hfin.
  - intros key [m Hm]. specialize (Hfin key). destruct (modules p' !! key); [eauto|].
    congruence.
Qed.

(** X8: after [processOperations], every operation of the document has a
    handler, with its id, description, path and method, in the module its
    tags name ([default] when it has none). *)
Theorem processOperations_complete (fuel : nat) (p p' : Parser) (path method : string)
    (item : gmap string Operation) (op : Operation) :
  enumerates range → processOperations range doc fuel p = Ok p' →
  Paths doc !! path = Some item → item !! method = Some op →
  ∃ m h, modules p' !! moduleNameOf op = Some m ∧ h ∈ HttpHandlers m ∧
         handlerOf h path method op.
Proof.
  intros Hr Hrun Hpath Hop.
  set (Has := λ (path method : string) (op : Operation) (q : Parser),
         ∃ m h, modules q !! moduleNameOf op = Some m ∧ h ∈ HttpHandlers m ∧
                handlerOf h path method op).
  assert (Hkeep : ∀ path method op q path' method' op' q',
            Has path method op q →
            ('(handler, p) ← wrap ("failed to convert operation " +:+ OperationID op' +:+ ": ")
                               (convertOperation range doc fuel q path' method' op');
             let moduleName :=
               if decide (0 < length (Tags op')) then joinDot (Tags op') else "default" in
             let module :=
               default {| mName := moduleName; HttpHandlers := []; Types := [] |}
                       (modules p !! moduleName) in
             Ok (setModules p (<[moduleName := appendHandler module handler]> (modules p))))
            = Ok q' →
            Has path method op q').
  { intros pa me o q pa' me' o' q' (m & h & Hm & Hh & Hof) Hstep.
    apply operation_step in Hstep as (h' & _ & Hmods). unfold Has. rewrite Hmods.
    destruct (decide (moduleNameOf o = moduleNameOf o')) as [He|Hne].
    - rewrite He, lookup_insert_eq. rewrite <- He, Hm. simpl.
      eexists _, h. split; [done|]. split; [|done]. simpl. apply elem_of_app. by left.
    - rewrite lookup_insert_ne by done. eauto. }
  set (Q := λ (e : string * gmap string Operation) (q : Parser),
         ∀ method op, e.2 !! method = Some op → Has e.1 method op q).
  unfold processOperations in Hrun.
  assert (HQ : Q (path, item) p').
  { refine (forM_establishes Q _ _ _ _ Hrun _ _ (path, item) _).
    - intros q [pa it] q' Hin Hstep me o Ho. simpl in *.
      set (Q2 := λ (e : string * Operation) (q : Parser), Has pa e.1 e.2 q).
      refine (forM_establishes Q2 _ _ _ _ Hstep _ _ (me, o) _).
      + intros q1 [me1 o1] q2 _ Hs. unfold Q2. simpl.
        apply operation_step in Hs as (h & Hh & Hmods). unfold Has. rewrite Hmods.
        rewrite lookup_insert_eq. eexists _, h. split; [done|]. split; [|done].
        simpl. apply elem_of_app. right. by apply list_elem_of_singleton.
      + intros [me1 o1] q1 [me2 o2] q2 _ _ Hq Hs. unfold Q2 in *. simpl in *.
        by eapply Hkeep.
      + by apply (enumerates_lookup range).
    - intros [pa it] q [pa2 it2] q' _ _ Hq Hstep me o Ho. simpl in *.
      refine (forM_invariant (Has pa me o) _ _ _ _ Hstep (Hq me o Ho) _).
      intros q1 [me1 o1] q2 _ Hq1 Hs. by eapply Hkeep.
    - by apply (enumerates_lookup range). }
  by apply (HQ method op).
Qed.

End Operations.

Lemma processOperations_complete_witness :
  ∃ p', processOperations rangeAsc pagedDocument 10 NewParser = Ok p'
        ∧ ∃ m h, modules p' !! moduleNameOf listItems = Some m ∧ h ∈ HttpHandlers m ∧
                 handlerOf h "/items" "GET" listItems.
Proof.
  eexists. split; [vm_compute; reflexivity|].
  eapply (processOperations_complete rangeAsc pagedDocument 10 NewParser _ "/items" "GET"
            {[ "GET" := listItems ]} listItems rangeAsc_enumerates);
    vm_compute; reflexivity.
Defined.

Lemma processOperations_sound_witness :
  ∃ p', processOperations rangeAsc pagedDocument 10 NewParser = Ok p'
        ∧ ∀ key m', modules p' !! key = Some m' → moduleGrown pagedDocument NewParser key m'.
Proof.
  eexists. split; [vm_compute; reflexivity|].
  eapply (processOperations_sound rangeAsc pagedDocument 10 NewParser _ rangeAsc_enumerates).
  vm_compute; reflexivity.
Defined.

Lemma convertOperation_handler_witness :
  ∃ h p', convertOperation rangeAsc pagedDocument 10 NewParser "/items" "GET" listItems
            = Ok (h, p')
          ∧ handlerOf h "/items" "GET" listItems
          ∧ Forall2 fieldOfParam (QueryParams h) (declaredParams "query" listItems).
Proof.
  eexists _, _. split; [vm_compute; reflexivity|].
  match goal with |- handlerOf ?h _ _ _ ∧ _ =>
    destruct (convertOperation_handler rangeAsc pagedDocument 10 NewParser "/items" "GET"
                listItems h _ ltac:(vm_compute; reflexivity)) as (H1 & _ & _ & H2 & _)
  end.
  exact (conj H1 H2).
Defined.

(** ** The order of the lists *)

Lemma forM_app {A S} (body : S → A → result S) s l1 l2 :
  forM body s (l1 ++ l2) = forM body s l1 ≫= (λ s', forM body s' l2).
Proof.
  revert s. induction l1 as [|a l1 IH]; intros s; simpl; [done|].
  destruct (body s a); simpl; auto.
Qed.

Lemma forM_fmap {A B S} (f : A → B) (body : S → B → result S) s l :
  forM body s (f <$> l) = forM (λ s a, body s (f a)) s l.
Proof.
  revert s. induction l as [|a l IH]; intros s; simpl; [done|].
  destruct (body s (f a)); simpl; auto.
Qed.

Lemma bind_congr {A B} (r1 r2 : result A) (f g : A → result B) :
  r1 = r2 → (∀ a, f a = g a) → r1 ≫= f = r2 ≫= g.
Proof. intros -> H. destruct r2; simpl; auto. Qed.

Lemma forM_ext {A S} (body1 body2 : S → A → result S) s l :
  (∀ s a, body1 s a = body2 s a) → forM body1 s l = forM body2 s l.
Proof.
  intros H. revert s. induction l as [|a l IH]; intros s; simpl; [done|].
  rewrite H. destruct (body2 s a); simpl; auto.
Qed.

Section ListOrder.

Context (range : ∀ V : Type, gmap string V → list (string * V)).
Context (doc : Document).

Lemma unordered_loop_names
    (convert : Parser → option SchemaRef → string → bool → result (ptr * Parser))
    (required : list string) (props : list (string * option SchemaRef)) acc fields p' :
  forM (λ acc '(propName, prop), appendField convert required acc propName prop) acc props
    = Ok (fields, p') →
  fName <$> fields = (fName <$> acc.1) ++ props.*1.
Proof.
  revert acc. induction props as [|[n prop] props IH]; intros acc Hrun.
  - injection Hrun as ->. by rewrite app_nil_r.
  - simpl in Hrun. apply bind_Ok in Hrun as (acc1 & Hstep & Hrun).
    rewrite (IH _ Hrun). unfold appendField in Hstep.
    apply bind_Ok in Hstep as ([field q] & Hfield & Hstep).
    apply wrap_Ok, convertField_name in Hfield. injection Hstep as <-. simpl.
    rewrite fmap_app. simpl. rewrite Hfield. by rewrite <- app_assoc.
Qed.

Lemma convertProperties_unordered
    (convert : Parser → option SchemaRef → string → bool → result (ptr * Parser))
    (v : Schema) p fields p' :
  Extensions v !! "x-coze-order" = None ∨ Extensions v !! "x-coze-order" = Some ANil →
  convertProperties range convert v p = Ok (fields, p') →
  fName <$> fields = (range _ (Properties v)).*1.
Proof.
  intros Hext. unfold convertProperties. intros Hrun.
  assert (H : forM (λ acc '(propName, prop),
                      appendField convert (Required v) acc propName prop)
                   ([], p) (range _ (Properties v)) = Ok (fields, p'))
    by (destruct Hext as [Hext|Hext]; by rewrite Hext in Hrun).
  by apply unordered_loop_names in H.
Qed.

Lemma processOperations_flat fuel p :
  processOperations range doc fuel p =
  forM (operationStep range doc fuel) p (operationsOf range doc).
Proof.
  unfold processOperations, operationsOf. revert p.
  induction (range _ (Paths doc)) as [|[path item] paths IH]; intros p; [done|].
  simpl. rewrite forM_app, forM_fmap.
  apply bind_congr; [|exact IH].
  apply forM_ext. by intros q [method op].
Qed.

Lemma handlers_loop fuel (ops : list (string * string * Operation)) p p' key m :
  forM (operationStep range doc fuel) p ops = Ok p' →
  modules p' !! key = Some m →
  ∃ new, HttpHandlers m = default [] (HttpHandlers <$> modules p !! key) ++ new ∧
         Forall2 (λ h '(path, method, op), handlerOf h path method op) new
                 (filter (λ e, moduleNameOf e.2 = key) ops).
Proof.
  revert p. induction ops as [|[[path method] op] ops IH]; intros p Hrun Hm.
  - injection Hrun as <-. rewrite Hm. exists []. simpl. by rewrite app_nil_r.
  - simpl in Hrun. apply bind_Ok in Hrun as (p1 & Hstep & Hrun).
    destruct (IH p1 Hrun Hm) as (new & Hnew & Hall).
    apply operation_step in Hstep as (h & Hh & Hmods).
    rewrite Hmods in Hnew. rewrite filter_cons. simpl.
    destruct (decide (moduleNameOf op = key)) as [<-|Hne].
    + rewrite lookup_insert_eq in Hnew. simpl in Hnew.
      exists (h :: new). split; [|by constructor].
      rewrite Hnew, <- app_assoc. simpl.
      by destruct (modules p !! moduleNameOf op).
    + rewrite lookup_insert_ne in Hnew by done. by exists new.
Qed.

End ListOrder.

Lemma runOf_twoRuns (doc : Document) :
  (is_Ok (ParseOpenAPI rangeAsc doc emptyConfig kahnSort 20 NewParser)
   && is_Ok (ParseOpenAPI rangeDesc doc emptyConfig kahnSort 20 NewParser)) = true →
  twoRuns doc emptyConfig (runOf rangeAsc doc) (runOf rangeDesc doc).
Proof.
  intros H. apply andb_prop in H as [H1 H2].
  exists rangeAsc, rangeDesc, kahnSort, 20.
  split; [exact rangeAsc_enumerates|]. split; [exact rangeDesc_enumerates|].
  split; [exact kahnSort_contract|]. unfold runOf.
  split; [by destruct (ParseOpenAPI rangeAsc _ _ _ _ _)|
          by destruct (ParseOpenAPI rangeDesc _ _ _ _ _)].
Qed.

(** C1, as the code has it: the lists of a build follow the order in which
    the run enumerates maps. In every run, the fields of a converted object
    that declares [x-coze-order] come in the declared order (those it has a
    property for); the fields of an object whose [x-coze-order] is absent or
    nil come in the order in which the run enumerates its properties; and
    [processOperations] puts the handlers of a grouping behind those it had,
    in the order in which the run enumerates the paths and, within a path,
    the methods. Two runs on one document and one configuration that
    enumerate differently can therefore differ: in the field order of a
    type, in the handler order of a grouping, and in the grouping a type
    assigned by usage is put into. *)
Theorem ParseOpenAPI_order_across_runs :
  (∀ (range : ∀ V : Type, gmap string V → list (string * V)) doc fuel p v name isNamed
     order ty p',
     AdditionalProperties v = None →
     (∃ rest, Type_ v = "object" :: rest) →
     Extensions v !! "x-coze-order" = Some (AList order) →
     convertSchema range doc fuel p (Some (mkSchemaRef "" (Some v))) name isNamed
       = Ok (ty, p') →
     ∃ t, σ p' !! ty = Some t ∧
          fName <$> Fields t =
            filter (λ n, is_Some (mjoin (Properties v !! n))) (omap asString order))
  ∧ (∀ (range : ∀ V : Type, gmap string V → list (string * V)) doc fuel p v name isNamed
       ty p',
       AdditionalProperties v = None →
       (∃ rest, Type_ v = "object" :: rest) →
       Extensions v !! "x-coze-order" = None ∨ Extensions v !! "x-coze-order" = Some ANil →
       convertSchema range doc fuel p (Some (mkSchemaRef "" (Some v))) name isNamed
         = Ok (ty, p') →
       ∃ t, σ p' !! ty = Some t ∧ fName <$> Fields t = (range _ (Properties v)).*1)
  ∧ (∀ (range : ∀ V : Type, gmap string V → list (string * V)) doc fuel p p' key m,
       processOperations range doc fuel p = Ok p' →
       modules p' !! key = Some m →
       ∃ new, HttpHandlers m = default [] (HttpHandlers <$> modules p !! key) ++ new ∧
              Forall2 (λ h '(path, method, op), handlerOf h path method op) new
                      (filter (λ e, moduleNameOf e.2 = key) (operationsOf range doc)))
  ∧ (∃ doc config out1 out2 key ts1 ts2 hs,
       twoRuns doc config out1 out2 ∧
       observe out1 !! key = Some (ts1, hs) ∧ observe out2 !! key = Some (ts2, hs) ∧
       ts1.*1 = ts2.*1 ∧ ts1.*2 ≠ ts2.*2)
  ∧ (∃ doc config out1 out2 key ts hs1 hs2,
       twoRuns doc config out1 out2 ∧
       observe out1 !! key = Some (ts, hs1) ∧ observe out2 !! key = Some (ts, hs2) ∧
       hs1 ≠ hs2)
  ∧ (∃ doc config out1 out2 key ts1 ts2 hs,
       twoRuns doc config out1 out2 ∧
       observe out1 !! key = Some (ts1, hs) ∧ observe out2 !! key = Some (ts2, hs) ∧
       ts1.*1 ≠ ts2.*1).
Proof.
  split; [|split; [|split; [|split; [|split]]]].
  - intros range doc fuel p v name isNamed order ty p' Hap [rest Hty] Hext Hrun.
    destruct fuel as [|fuel]; [done|]. simpl in Hrun.
    rewrite Hap, Hty in Hrun. simpl in Hrun.
    apply bind_Ok in Hrun as ([t q] & Hbody & Hrun).
    apply bind_Ok in Hbody as ([fields q1] & Hprops & Hbody).
    injection Hbody as <- <-.
    apply (convertProperties_ordered range _ v order) in Hprops; [|done].
    destruct isNamed; injection Hrun as <- <-; simpl; rewrite lookup_insert_eq;
      eexists; (split; [reflexivity|exact Hprops]).
  - intros range doc fuel p v name isNamed ty p' Hap [rest Hty] Hext Hrun.
    destruct fuel as [|fuel]; [done|]. simpl in Hrun.
    rewrite Hap, Hty in Hrun. simpl in Hrun.
    apply bind_Ok in Hrun as ([t q] & Hbody & Hrun).
    apply bind_Ok in Hbody as ([fields q1] & Hprops & Hbody).
    injection Hbody as <- <-.
    apply (convertProperties_unordered range _ v) in Hprops; [|done].
    destruct isNamed; injection Hrun as <- <-; simpl; rewrite lookup_insert_eq;
      eexists; (split; [reflexivity|exact Hprops]).
  - intros range doc fuel p p' key m Hrun Hm.
    rewrite processOperations_flat in Hrun. by eapply handlers_loop.
  - exists pagedDocument, emptyConfig, (runOf rangeAsc pagedDocument),
      (runOf rangeDesc pagedDocument), "items",
      [("Item", ["id"; "name"]); ("ListData", ["items"; "total"]);
       ("ListResp", ["code"; "data"])],
      [("Item", ["name"; "id"]); ("ListData", ["total"; "items"]);
       ("ListResp", ["data"; "code"])], ["ListItems"].
    split; [apply runOf_twoRuns; vm_compute; reflexivity|].
    split; [vm_compute; reflexivity|]. split; [vm_compute; reflexivity|].
    split; [reflexivity|discriminate].
  - exists pairedDocument, emptyConfig, (runOf rangeAsc pairedDocument),
      (runOf rangeDesc pairedDocument), "bots",
      [("Shared", ["id"])], ["GetChat"; "GetBot"], ["GetBot"; "GetChat"].
    split; [apply runOf_twoRuns; vm_compute; reflexivity|].
    split; [vm_compute; reflexivity|]. split; [vm_compute; reflexivity|]. discriminate.
  - exists sharedDocument, emptyConfig, (runOf rangeAsc sharedDocument),
      (runOf rangeDesc sharedDocument), "chats", [("Shared", ["id"])], [], ["GetChat"].
    split; [apply runOf_twoRuns; vm_compute; reflexivity|].
    split; [vm_compute; reflexivity|]. split; [vm_compute; reflexivity|]. discriminate.
Qed.

Lemma ParseOpenAPI_order_across_runs_witness :
  ∃ t, σ orderedRun.2 !! orderedRun.1 = Some t ∧
       fName <$> Fields t =
         filter (λ n, is_Some (mjoin (Properties orderedSchema !! n)))
                (omap asString [AString "name"; AString "missing"; AString "id"]).
Proof.
  apply (proj1 ParseOpenAPI_order_across_runs rangeDesc emptyDocument 5 NewParser
           orderedSchema "Bot" true [AString "name"; AString "missing"; AString "id"]
           orderedRun.1 orderedRun.2).
  - reflexivity.
  - by eexists.
  - reflexivity.
  - vm_compute. reflexivity.
Defined.

(** ** A larger recursion bound gives the same result *)

Lemma fuelLe_refl {A} (r : result A) : fuelLe r r.
Proof. by intros _. Qed.

Lemma fuelLe_trans {A} (r1 r2 r3 : result A) : fuelLe r1 r2 → fuelLe r2 r3 → fuelLe r1 r3.
Proof. intros H1 H2 Hn. pose proof (H1 Hn) as E. rewrite <- E. apply H2. by rewrite E. Qed.

Lemma fuelLe_bind {A B} (r1 r2 : result A) (f1 f2 : A → result B) :
  fuelLe r1 r2 → (∀ a, fuelLe (f1 a) (f2 a)) → fuelLe (r1 ≫= f1) (r2 ≫= f2).
Proof.
  intros Hr Hf Hn. destruct r1 as [a| | |]; simpl in *; try done.
  - rewrite Hr by done. simpl. by apply Hf.
  - by rewrite Hr.
  - by rewrite Hr.
Qed.

Lemma fuelLe_wrap {A} pre (r1 r2 : result A) : fuelLe r1 r2 → fuelLe (wrap pre r1) (wrap pre r2).
Proof. intros Hr Hn. destruct r1; simpl in *; try done; by rewrite Hr. Qed.

Lemma fuelLe_forM {A S} (b1 b2 : S → A → result S) l s :
  (∀ s a, a ∈ l → fuelLe (b1 s a) (b2 s a)) → fuelLe (forM b1 s l) (forM b2 s l).
Proof.
  revert s. induction l as [|a l IH]; intros s Hb; simpl; [apply fuelLe_refl|].
  apply fuelLe_bind; [apply Hb, elem_of_cons; by left|].
  intros s1. apply IH. intros s2 b Hin. apply Hb, elem_of_cons. by right.
Qed.

Lemma not_OutOfFuel_bind {A B} (r : result A) (f : A → result B) :
  r ≠ OutOfFuel → (∀ a, r = Ok a → f a ≠ OutOfFuel) → r ≫= f ≠ OutOfFuel.
Proof. intros Hr Hf. destruct r; simpl; try done. by apply Hf. Qed.

Lemma not_OutOfFuel_wrap {A} pre (r : result A) : r ≠ OutOfFuel → wrap pre r ≠ OutOfFuel.
Proof. by destruct r. Qed.

Lemma not_OutOfFuel_forM {A S} (P : S → Prop) (body : S → A → result S) l s :
  P s →
  (∀ s a, a ∈ l → P s → body s a ≠ OutOfFuel ∧ ∀ s', body s a = Ok s' → P s') →
  forM body s l ≠ OutOfFuel.
Proof.
  revert s. induction l as [|a l IH]; intros s Hs Hb; simpl; [done|].
  destruct (Hb s a) as [Hne Hnext]; [apply elem_of_cons; by left|done|].
  apply not_OutOfFuel_bind; [done|]. intros s1 Hs1. apply IH; [by apply Hnext|].
  intros s2 b Hin. apply Hb, elem_of_cons. by right.
Qed.

Lemma assertString_not_OutOfFuel a : assertString a ≠ OutOfFuel.
Proof. by destruct a. Qed.

Lemma convertEnum_not_OutOfFuel v : convertEnum v ≠ OutOfFuel.
Proof.
  unfold convertEnum. destruct (Extensions v !! "x-coze-enum-names") as [[| | | |names]|]; try done.
  case_decide; [|done].
  apply (not_OutOfFuel_forM (λ _, True)); [done|].
  intros acc [ev n] _ _. split; [|done].
  apply not_OutOfFuel_bind; [apply assertString_not_OutOfFuel|done].
Qed.

Section Fuel.

Context (range : ∀ V : Type, gmap string V → list (string * V)).
Context (doc : Document).

Lemma fuelLe_convertField c1 c2 p name schema required :
  (∀ p s n b, fuelLe (c1 p s n b) (c2 p s n b)) →
  fuelLe (convertField c1 p name schema required) (convertField c2 p name schema required).
Proof.
  intros Hc. unfold convertField. apply fuelLe_bind; [apply Hc|].
  intros [ft q]. apply fuelLe_refl.
Qed.

Lemma fuelLe_appendField c1 c2 required acc n prop :
  (∀ p s n b, fuelLe (c1 p s n b) (c2 p s n b)) →
  fuelLe (appendField c1 required acc n prop) (appendField c2 required acc n prop).
Proof.
  intros Hc. unfold appendField. apply fuelLe_bind.
  - by apply fuelLe_wrap, fuelLe_convertField.
  - intros [f q]. apply fuelLe_refl.
Qed.

Lemma fuelLe_convertProperties c1 c2 v p :
  (∀ p s n b, fuelLe (c1 p s n b) (c2 p s n b)) →
  fuelLe (convertProperties range c1 v p) (convertProperties range c2 v p).
Proof.
  intros Hc. unfold convertProperties.
  destruct (Extensions v !! "x-coze-order") as [[| | | |order]|]; try apply fuelLe_refl.
  - apply fuelLe_forM. intros acc [n prop] _. by apply fuelLe_appendField.
  - apply fuelLe_forM. intros acc pname _.
    apply fuelLe_bind; [apply fuelLe_refl|]. intros n.
    destruct (mjoin (Properties v !! n)); [by apply fuelLe_appendField|apply fuelLe_refl].
  - apply fuelLe_forM. intros acc [n prop] _. by apply fuelLe_appendField.
Qed.

Lemma convertSchema_unfold fuel p schema name isNamed :
  convertSchema range doc (S fuel) p schema name isNamed =
    match schema with
    | None => Err "nil schema. s=null"
    | Some (mkSchemaRef _ None) => Err "nil schema value. v=null"
    | Some (mkSchemaRef ref (Some v)) =>
      if decide (ref ≠ "") then
        let refName := getRefName ref in
        match namedTypes p !! refName with
        | Some existing => Ok (existing, p)
        | None =>
            match Components doc with
            | None => Panic "invalid memory address or nil pointer dereference"
            | Some schemas =>
                convertSchema range doc fuel p (mjoin (schemas !! refName)) refName true
            end
        end
      else
        let t0 :=
          {| Name := name;
             Description := Choose (bool_decide (Title v ≠ "")) (Title v) (sDescription v);
             Kind := TyKindUnset; Module_ := "";
             PrimitiveKind_ := PrimitiveUnknown; EnumValues := []; Fields := [];
             ElementType := None; ValueType := None; IsNamed := isNamed |} in
        let '(ty, p) := alloc p t0 in
        match AdditionalProperties v with
        | Some ap =>
            '(valueType, p) ← wrap "failed to convert map value type: "
                                (convertSchema range doc fuel p (Some ap) "" false);
            Ok (ty, store p ty (withValueType (withKind t0 TyKindMap) (Some valueType)))
        | None =>
            '(t, p) ←
              match Type_ v with
              | [] => Ok (t0, p)
              | ty0 :: _ =>
                if decide (ty0 = "array") then
                  match Items v with
                  | Some items =>
                      '(elementType, p) ← wrap "failed to convert array element type: "
                                            (convertSchema range doc fuel p (Some items) "" false);
                      Ok (withElementType (withKind t0 TyKindArray) (Some elementType), p)
                  | None => Ok (withKind t0 TyKindArray, p)
                  end
                else if decide (ty0 = "object") then
                  '(fields, p) ← convertProperties range (convertSchema range doc fuel) v p;
                  Ok (withFields (withKind t0 TyKindObject) fields, p)
                else
                  evs ← convertEnum v;
                  Ok (withPrimitive (withKind t0 TyKindPrimitive)
                                    (convertPrimitiveType (Type_ v) (Format v)) evs, p)
              end;
            if isNamed then
              Ok (ty, setNamedTypes (store p ty t) (<[name := ty]> (namedTypes p)))
            else
              Ok (ty, store p ty (withDescription t ""))
        end
    end.
Proof. reflexivity. Qed.

Lemma fuelLe_convertSchema_S fuel p schema name isNamed :
  fuelLe (convertSchema range doc fuel p schema name isNamed)
         (convertSchema range doc (S fuel) p schema name isNamed).
Proof.
  revert p schema name isNamed.
  induction fuel as [|fuel IH]; intros p schema name isNamed; [by intros ?|].
  rewrite (convertSchema_unfold (S fuel)), (convertSchema_unfold fuel).
  set (c2 := convertSchema range doc (S fuel)) in *.
  set (c1 := convertSchema range doc fuel) in *.
  clearbody c1 c2.
  destruct schema as [[ref [v|]]|]; try apply fuelLe_refl.
  destruct (decide (ref ≠ "")).
  { simpl. destruct (namedTypes p !! getRefName ref); [apply fuelLe_refl|].
    destruct (Components doc); [apply IH|apply fuelLe_refl]. }
  simpl. destruct (AdditionalProperties v) as [ap|].
  { apply fuelLe_bind; [apply fuelLe_wrap, IH|]. intros [vt q]. apply fuelLe_refl. }
  apply fuelLe_bind; [|intros [t q]; apply fuelLe_refl].
  destruct (Type_ v) as [|ty0 rest]; [apply fuelLe_refl|].
  destruct (decide (ty0 = "array")).
  { destruct (Items v); [|apply fuelLe_refl].
    apply fuelLe_bind; [apply fuelLe_wrap, IH|]. intros [et q]. apply fuelLe_refl. }
  destruct (decide (ty0 = "object")); [|apply fuelLe_refl].
  apply fuelLe_bind; [|intros [fs q]; apply fuelLe_refl].
  apply fuelLe_convertProperties. intros. apply IH.
Qed.

Lemma fuelLe_convertSchema (fuel fuel' : nat) p schema name isNamed :
  (fuel ≤ fuel')%nat →
  fuelLe (convertSchema range doc fuel p schema name isNamed)
         (convertSchema range doc fuel' p schema name isNamed).
Proof.
  induction 1 as [|fuel' _ IH]; [apply fuelLe_refl|].
  eapply fuelLe_trans; [exact IH|apply fuelLe_convertSchema_S].
Qed.

End Fuel.

Section Termination.

Context (range : ∀ V : Type, gmap string V → list (string * V)).
Context (Hrange : enumerates range).
Context (doc : Document).

Lemma convertField_not_OutOfFuel c p name schema required :
  c p schema "" false ≠ OutOfFuel → convertField c p name schema required ≠ OutOfFuel.
Proof.
  intros Hc. unfold convertField. apply not_OutOfFuel_bind; [done|].
  intros [ft q] _. by destruct schema as [[r [v|]]|].
Qed.

Lemma appendField_not_OutOfFuel c required acc n prop :
  c acc.2 prop "" false ≠ OutOfFuel → appendField c required acc n prop ≠ OutOfFuel.
Proof.
  intros Hc. unfold appendField. apply not_OutOfFuel_bind.
  - by apply not_OutOfFuel_wrap, convertField_not_OutOfFuel.
  - by intros [f q] _.
Qed.

Lemma convertProperties_not_OutOfFuel c v p :
  (∀ q k prop, Properties v !! k = Some prop → c q prop "" false ≠ OutOfFuel) →
  convertProperties range c v p ≠ OutOfFuel.
Proof.
  intros Hc. unfold convertProperties.
  destruct (Extensions v !! "x-coze-order") as [[| | | |order]|]; try done.
  - apply (not_OutOfFuel_forM (λ _, True)); [done|]. intros acc [n prop] Hin _.
    split; [|done]. apply appendField_not_OutOfFuel. eapply Hc.
    by apply (enumerates_lookup range) in Hin.
  - apply (not_OutOfFuel_forM (λ _, True)); [done|]. intros acc pname _ _.
    split; [|done]. apply not_OutOfFuel_bind; [apply assertString_not_OutOfFuel|].
    intros n _. destruct (Properties v !! n) as [[prop|]|] eqn:Hn; simpl; try done.
    apply appendField_not_OutOfFuel. by eapply Hc.
  - apply (not_OutOfFuel_forM (λ _, True)); [done|]. intros acc [n prop] Hin _.
    split; [|done]. apply appendField_not_OutOfFuel. eapply Hc.
    by apply (enumerates_lookup range) in Hin.
Qed.

Lemma convertSchema_returns_at (n : nat) p schema name isNamed :
  unfolds doc n schema → convertSchema range doc n p schema name isNamed ≠ OutOfFuel.
Proof.
  revert p schema name isNamed.
  induction n as [|n IH]; intros p schema name isNamed Hu; [done|].
  rewrite convertSchema_unfold. simpl in Hu.
  destruct schema as [[ref [v|]]|]; try done.
  destruct (decide (ref ≠ "")).
  { simpl. destruct (namedTypes p !! getRefName ref); [done|].
    destruct (Components doc); [by apply IH|done]. }
  simpl. destruct (AdditionalProperties v) as [ap|].
  { apply not_OutOfFuel_bind; [by apply not_OutOfFuel_wrap, IH|]. by intros [vt q] _. }
  apply not_OutOfFuel_bind; [|intros [t q] _; by destruct isNamed].
  destruct (Type_ v) as [|ty0 rest]; [done|].
  destruct (decide (ty0 = "array")).
  { destruct (Items v); [|done].
    apply not_OutOfFuel_bind; [by apply not_OutOfFuel_wrap, IH|]. by intros [et q] _. }
  destruct (decide (ty0 = "object")).
  - apply not_OutOfFuel_bind; [|by intros [fs q] _].
    apply convertProperties_not_OutOfFuel. intros q k prop Hk. apply IH. by apply (Hu k).
  - apply not_OutOfFuel_bind; [apply convertEnum_not_OutOfFuel|done].
Qed.

Lemma convertSchema_returns (n fuel : nat) p schema name isNamed :
  unfolds doc n schema → (n ≤ fuel)%nat →
  convertSchema range doc fuel p schema name isNamed ≠ OutOfFuel
  ∧ convertSchema range doc fuel p schema name isNamed
    = convertSchema range doc n p schema name isNamed.
Proof.
  intros Hu Hle. pose proof (convertSchema_returns_at n p schema name isNamed Hu) as Hn.
  pose proof (fuelLe_convertSchema range doc n fuel p schema name isNamed Hle Hn) as E.
  split; [by rewrite E|done].
Qed.

End Termination.

Lemma firstWithSchema_Some range (content : gmap string MediaType) ct schema :
  enumerates range → firstWithSchema range content = Some (ct, schema) →
  ∃ mt, content !! ct = Some mt ∧ mtSchema mt = Some schema.
Proof.
  intros Hr Hf. unfold firstWithSchema in Hf.
  apply head_Some_elem_of in Hf. apply list_elem_of_omap in Hf as ([ct' c] & Hin & Hc).
  destruct (mtSchema c) as [s|] eqn:Hs; [|done]. injection Hc as -> ->.
  exists c. split; [|done]. by apply (enumerates_lookup range) in Hin.
Qed.

Section Termination2.

Context (range : ∀ V : Type, gmap string V → list (string * V)).
Context (Hrange : enumerates range).
Context (doc : Document).

Lemma fuelLe_convertOperation (n fuel : nat) p path method op :
  (n ≤ fuel)%nat →
  fuelLe (convertOperation range doc n p path method op)
         (convertOperation range doc fuel p path method op).
Proof.
  intros Hle. unfold convertOperation.
  apply fuelLe_bind.
  { apply fuelLe_forM. intros [h q] [pv|] _; [|apply fuelLe_refl].
    apply fuelLe_bind; [by apply fuelLe_wrap, fuelLe_convertSchema|].
    intros [pt q1]. apply fuelLe_refl. }
  intros [h1 p1]. apply fuelLe_bind.
  { destruct (opRequestBody op ≫= firstWithSchema range) as [[ct sc]|]; [|apply fuelLe_refl].
    apply fuelLe_bind; [by apply fuelLe_wrap, fuelLe_convertSchema|].
    intros [rt q1]. apply fuelLe_refl. }
  intros [h2 p2].
  destruct (Responses op !! "200" ≫= firstWithSchema range) as [[ct sc]|]; [|apply fuelLe_refl].
  apply fuelLe_bind; [by apply fuelLe_wrap, fuelLe_convertSchema|].
  intros [rt q1]. apply fuelLe_refl.
Qed.

Lemma convertOperation_returns_at (n : nat) p path method op :
  opUnfolds doc n op → convertOperation range doc n p path method op ≠ OutOfFuel.
Proof.
  intros (Hparams & Hreq & Hresp). unfold convertOperation.
  apply not_OutOfFuel_bind.
  { apply (not_OutOfFuel_forM (λ _, True)); [done|].
    intros [h q] [pv|] Hin _; [|done]. split; [|done].
    apply not_OutOfFuel_bind; [|by intros [pt q1] _].
    apply not_OutOfFuel_wrap, convertSchema_returns_at; [done|].
    rewrite Forall_forall in Hparams. by apply (Hparams (Some pv)). }
  intros [h1 p1] _. apply not_OutOfFuel_bind.
  { destruct (opRequestBody op) as [content|] eqn:Hc; simpl; [|done].
    destruct (firstWithSchema range content) as [[ct sc]|] eqn:Hf; [|done].
    apply firstWithSchema_Some in Hf as (mt & Hmt & Hs); [|done].
    apply not_OutOfFuel_bind; [|by intros [rt q1] _].
    apply not_OutOfFuel_wrap, convertSchema_returns_at; [done|].
    rewrite <- Hs. by apply (Hreq ct). }
  intros [h2 p2] _.
  destruct (Responses op !! "200") as [content|] eqn:Hc; simpl; [|done].
  destruct (firstWithSchema range content) as [[ct sc]|] eqn:Hf; [|done].
  apply firstWithSchema_Some in Hf as (mt & Hmt & Hs); [|done].
  apply not_OutOfFuel_bind; [|by intros [rt q1] _].
  apply not_OutOfFuel_wrap, convertSchema_returns_at; [done|].
  rewrite <- Hs. by apply (Hresp ct).
Qed.

Lemma fuelLe_processNamedTypes (n fuel : nat) p :
  (n ≤ fuel)%nat →
  fuelLe (processNamedTypes range doc n p) (processNamedTypes range doc fuel p).
Proof.
  intros Hle. unfold processNamedTypes.
  destruct (Components doc) as [schemas|]; [|apply fuelLe_refl].
  apply fuelLe_forM. intros q [name sc] _.
  destruct (namedTypes q !! name); [apply fuelLe_refl|].
  apply fuelLe_bind; [by apply fuelLe_wrap, fuelLe_convertSchema|].
  intros [ty q1]. apply fuelLe_refl.
Qed.

Lemma processNamedTypes_returns_at (n : nat) p :
  docUnfolds doc n → processNamedTypes range doc n p ≠ OutOfFuel.
Proof.
  intros [Hc _]. unfold processNamedTypes.
  destruct (Components doc) as [schemas|] eqn:Hs; [|done].
  apply (not_OutOfFuel_forM (λ _, True)); [done|].
  intros q [name sc] Hin _. split; [|done].
  destruct (namedTypes q !! name); [done|].
  apply not_OutOfFuel_bind; [|by intros [ty q1] _].
  apply not_OutOfFuel_wrap, convertSchema_returns_at; [done|].
  apply (Hc name). by apply (enumerates_lookup range) in Hin.
Qed.

Lemma fuelLe_processOperations (n fuel : nat) p :
  (n ≤ fuel)%nat →
  fuelLe (processOperations range doc n p) (processOperations range doc fuel p).
Proof.
  intros Hle. unfold processOperations.
  apply fuelLe_forM. intros q [path item] _.
  apply fuelLe_forM. intros q1 [method op] _.
  apply fuelLe_bind; [by apply fuelLe_wrap, fuelLe_convertOperation|].
  intros [h q2]. apply fuelLe_refl.
Qed.

Lemma processOperations_returns_at (n : nat) p :
  docUnfolds doc n → processOperations range doc n p ≠ OutOfFuel.
Proof.
  intros [_ Ho]. unfold processOperations.
  apply (not_OutOfFuel_forM (λ _, True)); [done|].
  intros q [path item] Hin _. split; [|done].
  apply (enumerates_lookup range) in Hin; [|done].
  apply (not_OutOfFuel_forM (λ _, True)); [done|].
  intros q1 [method op] Hin1 _. split; [|done].
  apply (enumerates_lookup range) in Hin1; [|done].
  apply not_OutOfFuel_bind; [|by intros [h q2] _].
  apply not_OutOfFuel_wrap, convertOperation_returns_at. by apply (Ho path item Hin method).
Qed.

End Termination2.

(** ** The walks over the type graph return *)

Lemma deref_not_OutOfFuel (σ0 : heap) p : deref σ0 p ≠ OutOfFuel.
Proof. destruct p as [a|]; simpl; [|done]. by destruct (σ0 !! a). Qed.

Lemma unvisited_shrinks (σ0 : heap) (a : ptr) (X : gset positive) (fuel : nat) :
  is_Some (σ0 !! a) → a ∉ X → size (dom σ0 ∖ X) < S fuel →
  size (dom σ0 ∖ ({[a]} ∪ X)) < fuel.
Proof.
  intros Ha Hn Hs.
  assert (dom σ0 ∖ ({[a]} ∪ X) ⊂ dom σ0 ∖ X) as Hsub%subset_size; [|lia].
  apply elem_of_dom in Ha. split.
  - intros x Hx. apply elem_of_difference in Hx as [Hx Hn'].
    apply elem_of_difference. split; [done|]. intros Hx'. apply Hn', elem_of_union. by right.
  - intros Hsup. assert (Hin : a ∈ dom σ0 ∖ X) by (by apply elem_of_difference).
    apply Hsup, elem_of_difference in Hin as [_ Hin]. apply Hin, elem_of_union. left.
    by apply elem_of_singleton.
Qed.

Lemma unvisited_mono (σ0 : heap) (X Y : gset positive) (fuel : nat) :
  X ⊆ Y → size (dom σ0 ∖ X) < fuel → size (dom σ0 ∖ Y) < fuel.
Proof.
  intros Hsub Hs.
  assert (dom σ0 ∖ Y ⊆ dom σ0 ∖ X) as Hle%subseteq_size; [|lia].
  intros x Hx. apply elem_of_difference in Hx as [Hx Hn]. apply elem_of_difference.
  split; [done|]. intros Hx'. by apply Hn, Hsub.
Qed.

Lemma collectFromType_mono (σ0 : heap) fuel deps t d :
  collectFromType σ0 fuel deps t = Ok d → deps ⊆ d.
Proof.
  revert deps t d. induction fuel as [|fuel IH]; intros deps t d Hrun; [done|].
  simpl in Hrun. destruct t as [a|]; [|by injection Hrun as <-].
  destruct (decide (a ∈ deps)); [by injection Hrun as <-|].
  destruct (σ0 !! a) as [ty|]; [|done]. simpl in Hrun.
  assert (Hd : {[a]} ∪ deps ⊆ d); [|by etrans; [apply union_subseteq_r|]].
  destruct (Kind ty); try (injection Hrun as <-; done).
  - refine (forM_invariant (λ d, {[a]} ∪ deps ⊆ d) _ _ _ _ Hrun _ _); [done|].
    intros d1 f d2 _ Hd1 Hstep. apply IH in Hstep. by etrans.
  - by apply IH in Hrun.
Qed.

Lemma collectFromType_returns (σ0 : heap) fuel deps t :
  size (dom σ0 ∖ deps) < fuel → collectFromType σ0 fuel deps t ≠ OutOfFuel.
Proof.
  revert deps t. induction fuel as [|fuel IH]; intros deps t Hs; [lia|].
  simpl. destruct t as [a|]; [|done].
  destruct (decide (a ∈ deps)); [done|].
  destruct (σ0 !! a) as [ty|] eqn:Ha; [|done]. simpl.
  assert (Hs' : size (dom σ0 ∖ ({[a]} ∪ deps)) < fuel)
    by (apply unvisited_shrinks; eauto).
  destruct (Kind ty); try done.
  - apply (not_OutOfFuel_forM (λ d, {[a]} ∪ deps ⊆ d)); [done|].
    intros d f _ Hd. split.
    + apply IH. by eapply unvisited_mono.
    + intros d' Hstep. apply collectFromType_mono in Hstep. by etrans.
  - by apply IH.
Qed.

Lemma collectHandlerTypes_returns (σ0 : heap) fuel h deps :
  size σ0 < fuel → collectHandlerTypes σ0 fuel h deps ≠ OutOfFuel.
Proof.
  intros Hs.
  assert (Hany : ∀ d t, collectFromType σ0 fuel d t ≠ OutOfFuel).
  { intros d t. apply collectFromType_returns.
    assert (dom σ0 ∖ d ⊆ dom σ0) as Hle%subseteq_size
      by (intros x Hx; by apply elem_of_difference in Hx as [Hx _]).
    rewrite size_dom in Hle. lia. }
  assert (Hloop : ∀ d (l : list TyField),
            forM (λ deps param, collectFromType σ0 fuel deps (fType param)) d l ≠ OutOfFuel).
  { intros d l. apply (not_OutOfFuel_forM (λ _, True)); [done|]. intros; split; [apply Hany|done]. }
  unfold collectHandlerTypes.
  apply not_OutOfFuel_bind; [apply Hany|]. intros d1 _.
  apply not_OutOfFuel_bind; [apply Hany|]. intros d2 _.
  apply not_OutOfFuel_bind; [apply Hloop|]. intros d3 _.
  apply not_OutOfFuel_bind; [apply Hloop|]. intros d4 _. apply Hloop.
Qed.

Lemma AddNode_not_OutOfFuel g0 n : AddNode g0 n ≠ OutOfFuel.
Proof. unfold AddNode. by case_decide. Qed.

Lemma edgeFrom_returns s dep id :
  edgeFrom s dep id ≠ OutOfFuel ∧ ∀ s', edgeFrom s dep id = Ok s' → typeToID s' = typeToID s.
Proof.
  unfold edgeFrom. destruct (typeToID s !! dep) as [d|]; [|split; [done|by intros ? [= <-]]].
  unfold SetEdge. case_decide; simpl; [done|]. split; [done|]. by intros ? [= <-].
Qed.

Lemma addField_returns (add : GraphState → option ptr → result GraphState) (σ0 : heap)
    (X : gmap positive Z) (fuel : nat) id s f :
  (∀ s ty, X ⊆ typeToID s →
     add s ty ≠ OutOfFuel ∧ ∀ s', add s ty = Ok s' → typeToID s ⊆ typeToID s') →
  X ⊆ typeToID s →
  addField add σ0 id s f ≠ OutOfFuel
  ∧ ∀ s', addField add σ0 id s f = Ok s' → typeToID s ⊆ typeToID s'.
Proof.
  intros Hadd Hs. unfold addField.
  destruct (Hadd s (fType f) Hs) as [H1 H1'].
  split.
  - apply not_OutOfFuel_bind; [done|]. intros s1 Hs1.
    destruct (fType f) as [ft|]; [|done].
    destruct (edgeFrom_returns s1 ft id) as [H2 H2'].
    apply not_OutOfFuel_bind; [done|]. intros s2 Hs2.
    apply not_OutOfFuel_bind; [apply deref_not_OutOfFuel|]. intros fty _.
    destruct (ElementType fty) as [elem|]; [|done].
    assert (Hs2' : X ⊆ typeToID s2).
    { rewrite (H2' _ Hs2). etrans; [exact Hs|]. by apply H1'. }
    destruct (Hadd s2 (Some elem) Hs2') as [H3 _].
    apply not_OutOfFuel_bind; [done|]. intros s3 _. apply edgeFrom_returns.
  - intros s' Hrun. apply bind_Ok in Hrun as (s1 & Hs1 & Hrun).
    pose proof (H1' _ Hs1) as Hm1.
    destruct (fType f) as [ft|]; [|by injection Hrun as <-].
    apply bind_Ok in Hrun as (s2 & Hs2 & Hrun).
    pose proof (proj2 (edgeFrom_returns s1 ft id) _ Hs2) as E2.
    apply bind_Ok in Hrun as (fty & _ & Hrun).
    destruct (ElementType fty) as [elem|]; [|injection Hrun as <-; by rewrite E2].
    apply bind_Ok in Hrun as (s3 & Hs3 & Hrun).
    assert (Hs2' : X ⊆ typeToID s2) by (rewrite E2; by etrans).
    pose proof (proj2 (Hadd s2 (Some elem) Hs2') _ Hs3) as Hm3.
    rewrite (proj2 (edgeFrom_returns s3 elem id) _ Hrun).
    etrans; [exact Hm1|]. by rewrite <- E2.
Qed.

Lemma addTypeToGraph_returns (σ0 : heap) fuel s ty :
  size (dom σ0 ∖ dom (typeToID s)) < fuel →
  addTypeToGraph σ0 fuel s ty ≠ OutOfFuel
  ∧ ∀ s', addTypeToGraph σ0 fuel s ty = Ok s' → typeToID s ⊆ typeToID s'.
Proof.
  revert s ty. induction fuel as [|fuel IH]; intros s ty Hs; [lia|].
  simpl. destruct ty as [a|]; [|split; [done|by intros ? [= <-]]].
  destruct (typeToID s !! a) as [ida|] eqn:Hid; [split; [done|by intros ? [= <-]]|].
  destruct (AddNode (g s) (nextID s)) as [g'| | |] eqn:Hnode; simpl; try done.
  2: { by apply AddNode_not_OutOfFuel in Hnode. }
  set (s1 := {| g := g'; typeToID := <[a := nextID s]> (typeToID s) |}).
  assert (Hsub1 : typeToID s ⊆ typeToID s1) by (by apply insert_subseteq).
  destruct (σ0 !! a) as [t|] eqn:Ha; simpl; [|done].
  assert (Hs1 : size (dom σ0 ∖ dom (typeToID s1)) < fuel).
  { simpl. rewrite dom_insert_L. apply unvisited_shrinks; [eauto| |done].
    by apply not_elem_of_dom. }
  assert (Hadd : ∀ s2 ty2, typeToID s1 ⊆ typeToID s2 →
            addTypeToGraph σ0 fuel s2 ty2 ≠ OutOfFuel
            ∧ ∀ s', addTypeToGraph σ0 fuel s2 ty2 = Ok s' → typeToID s2 ⊆ typeToID s').
  { intros s2 ty2 Hsub. apply IH. eapply unvisited_mono; [|exact Hs1]. by apply subseteq_dom. }
  destruct (Kind t); try (split; [done|by intros ? [= <-]]).
  - split.
    + apply (not_OutOfFuel_forM (λ s2, typeToID s1 ⊆ typeToID s2)); [done|].
      intros s2 f _ Hs2. destruct (addField_returns _ σ0 _ fuel (nextID s) s2 f Hadd Hs2)
        as [H1 H2].
      split; [done|]. intros s3 Hs3. etrans; [exact Hs2|]. by apply H2.
    + intros s' Hrun. etrans; [exact Hsub1|].
      refine (forM_invariant (λ s2, typeToID s1 ⊆ typeToID s2) _ _ _ _ Hrun _ _); [done|].
      intros s2 f s3 _ Hs2 Hstep. etrans; [exact Hs2|].
      by apply (addField_returns _ σ0 _ fuel (nextID s) s2 f Hadd Hs2).
  - destruct (ElementType t) as [elem|]; [|split; [done|by intros ? [= <-]]].
    destruct (Hadd s1 (Some elem)) as [H1 H2]; [done|]. split.
    + apply not_OutOfFuel_bind; [done|]. intros s2 _. apply edgeFrom_returns.
    + intros s' Hrun. apply bind_Ok in Hrun as (s2 & Hs2 & Hrun).
      rewrite (proj2 (edgeFrom_returns s2 elem (nextID s)) _ Hrun).
      etrans; [exact Hsub1|]. by apply H2.
Qed.

Lemma topologicalSortTypes_returns sorter (σ0 : heap) fuel entries :
  size σ0 < fuel → topologicalSortTypes sorter σ0 fuel entries ≠ OutOfFuel.
Proof.
  intros Hs. unfold topologicalSortTypes. case_decide; [done|].
  apply not_OutOfFuel_bind.
  - apply (not_OutOfFuel_forM (λ _, True)); [done|]. intros s ty _ _. split; [|done].
    apply addTypeToGraph_returns.
    assert (dom σ0 ∖ dom (typeToID s) ⊆ dom σ0) as Hle%subseteq_size
      by (intros x Hx; by apply elem_of_difference in Hx as [Hx _]).
    rewrite size_dom in Hle. lia.
  - intros s _. by destruct (sorter _ _).
Qed.

Lemma filterNamed_not_OutOfFuel (σ0 : heap) l : filterNamed σ0 l ≠ OutOfFuel.
Proof.
  induction l as [|[a|] l IH]; simpl; try done.
  destruct (σ0 !! a); simpl; [|done]. by apply not_OutOfFuel_bind.
Qed.

Section AssignmentReturns.

Context (range : ∀ V : Type, gmap string V → list (string * V)).
Context (config : ModuleConfig).
Context (sorter : DirectedGraph → (Z → Z → bool) → option (list Z)).

Lemma assignConfigured_dom p : dom (σ (assignConfigured range config p)) = dom (σ p).
Proof.
  unfold assignConfigured. apply (foldl_invariant (λ q, dom (σ q) = dom (σ p))); [|done].
  intros q [typeName moduleName] Hq. destruct (namedTypes q !! typeName) as [ty|]; [|done].
  simpl. destruct (modules _ !! moduleName); simpl; by rewrite dom_alter_L.
Qed.

Lemma assignTypesToModules_not_OutOfFuel (fuel : nat) (p : Parser) :
  size (σ p) < fuel → assignTypesToModules range config sorter fuel p ≠ OutOfFuel.
Proof.
  intros Hs. unfold assignTypesToModules.
  set (p1 := assignConfigured range config p).
  assert (Hd1 : dom (σ p1) = dom (σ p)) by apply assignConfigured_dom.
  assert (Hs1 : size (σ p1) < fuel) by (by rewrite <- size_dom, Hd1, size_dom).
  apply not_OutOfFuel_bind.
  { unfold handlerDepsOf. apply (not_OutOfFuel_forM (λ _, True)); [done|].
    intros hd [key module] _ _. split; [|done].
    apply (not_OutOfFuel_forM (λ _, True)); [done|]. intros hd1 [i h] _ _. split; [|done].
    apply not_OutOfFuel_bind; [by apply collectHandlerTypes_returns|done]. }
  intros hd _. apply not_OutOfFuel_bind.
  { unfold assignByUsage. apply (not_OutOfFuel_forM (λ _, True)); [done|].
    intros q [n ty] _ _. split; [|done].
    apply not_OutOfFuel_bind; [apply deref_not_OutOfFuel|]. intros t _.
    case_decide; [done|]. by destruct (find _ _) as [[k m]|]. }
  intros q Hq.
  assert (Hdq : dom (σ q) = dom (σ p1)).
  { unfold assignByUsage in Hq.
    refine (forM_invariant (λ q, dom (σ q) = dom (σ p1)) _ _ _ _ Hq _ _); [done|].
    intros q1 [n ty] q2 _ Hq1 Hstep. apply bind_Ok in Hstep as (t & _ & Hstep).
    case_decide; [by injection Hstep as <-|].
    destruct (find _ _) as [[k m]|]; injection Hstep as <-; [|done].
    simpl. by rewrite dom_alter_L. }
  apply (not_OutOfFuel_forM (λ q, dom (σ q) = dom (σ p1))); [done|].
  intros q1 [key module] _ Hq1. unfold sortModule.
  case_decide; [split; [done|by intros ? [= <-]]|]. split.
  - apply not_OutOfFuel_bind.
    { apply not_OutOfFuel_wrap, topologicalSortTypes_returns.
      by rewrite <- size_dom, Hq1, size_dom. }
    intros st _. apply not_OutOfFuel_bind; [apply filterNamed_not_OutOfFuel|done].
  - intros q2 Hstep. apply bind_Ok in Hstep as (st & _ & Hstep).
    apply bind_Ok in Hstep as (named & _ & Hstep). by injection Hstep as <-.
Qed.

End AssignmentReturns.

(** ** The rules return *)

Lemma forS_not_OutOfFuel {A} (body : Parser → A → Parser * result unit) l p :
  (∀ p a, (body p a).2 ≠ OutOfFuel) → (forS body p l).2 ≠ OutOfFuel.
Proof.
  intros Hb. revert p. induction l as [|a l IH]; intros p; simpl; [done|].
  specialize (Hb p a). destruct (body p a) as [p1 [[]| | |]]; simpl in *; auto.
Qed.

Lemma withR_not_OutOfFuel {A} p (r : result A) (k : A → Parser * result unit) :
  r ≠ OutOfFuel → (∀ a, (k a).2 ≠ OutOfFuel) → (withR p r k).2 ≠ OutOfFuel.
Proof. intros Hr Hk. destruct r; simpl; auto. Qed.

Lemma checked_not_OutOfFuel (o : Parser * result unit) :
  o.2 ≠ OutOfFuel → checked o ≠ OutOfFuel.
Proof. unfold checked. by destruct o as [p [[]| | |]]. Qed.

Section RulesReturn.

Context (range : ∀ V : Type, gmap string V → list (string * V)).
Context (config : ModuleConfig).

Lemma generateUnnamedResponseTypes_returns p :
  (generateUnnamedResponseTypes range config p).2 ≠ OutOfFuel.
Proof.
  unfold generateUnnamedResponseTypes.
  destruct (GenerateUnnamedResponseType config) as [generate|]; [|done].
  apply forS_not_OutOfFuel. intros q [key module]. apply forS_not_OutOfFuel. intros q1 h.
  destruct (ResponseBody h) as [rb|]; [|done].
  apply withR_not_OutOfFuel; [apply deref_not_OutOfFuel|]. intros t.
  destruct (IsNamed t); [done|]. destruct (generate (σ q1) h) as [name gen]. by destruct gen.
Qed.

Lemma changeFieldRequirements_returns p :
  (changeFieldRequirements range config p).2 ≠ OutOfFuel.
Proof.
  unfold changeFieldRequirements. case_decide; [done|].
  apply forS_not_OutOfFuel. intros q [typeName fms].
  destruct (namedTypes q !! typeName) as [ty|]; [|done].
  apply withR_not_OutOfFuel; [apply deref_not_OutOfFuel|]. intros t.
  case_decide; [done|]. unfold changeFieldsOf. apply forS_not_OutOfFuel.
  intros q1 [f [m|]]; [|done].
  apply withR_not_OutOfFuel; [apply deref_not_OutOfFuel|]. intros t1.
  by destruct (modifyField _ _ _).
Qed.

Lemma orderHandlers_returns p : (orderHandlers range config p).2 ≠ OutOfFuel.
Proof.
  unfold orderHandlers. case_decide; [done|].
  apply forS_not_OutOfFuel. intros q [moduleName names]. by destruct (modules q !! moduleName).
Qed.

Lemma changeResponseTypes_returns p : (changeResponseTypes range config p).2 ≠ OutOfFuel.
Proof.
  unfold changeResponseTypes. apply forS_not_OutOfFuel. intros q [hn rt].
  by destruct (namedTypes q !! rt).
Qed.

Lemma renameTypes_returns p : (renameTypes range config p).2 ≠ OutOfFuel.
Proof.
  unfold renameTypes. case_decide; [done|].
  destruct (rename_check_spec p (range string (RenameTypes config)))
    as [[_ ->]|(e & _ & _ & ->)]; done.
Qed.

Lemma renameHandlers_returns p : (renameHandlers range config p).2 ≠ OutOfFuel.
Proof. unfold renameHandlers. by case_decide. Qed.

End RulesReturn.

(** ** More fuel, same result: the walks over the type graph *)

Lemma collectFromType_unfold (σ0 : heap) fuel deps t :
  collectFromType σ0 (S fuel) deps t =
    match t with
    | None => Ok deps
    | Some a =>
      if decide (a ∈ deps) then Ok deps
      else
        let deps := {[a]} ∪ deps in
        ty ← deref σ0 (Some a);
        match Kind ty with
        | TyKindObject => forM (λ deps field, collectFromType σ0 fuel deps (fType field))
                               deps (Fields ty)
        | TyKindArray => collectFromType σ0 fuel deps (ElementType ty)
        | _ => Ok deps
        end
    end.
Proof. reflexivity. Qed.

Lemma fuelLe_collectFromType_S (σ0 : heap) fuel deps t :
  fuelLe (collectFromType σ0 fuel deps t) (collectFromType σ0 (S fuel) deps t).
Proof.
  revert deps t. induction fuel as [|fuel IH]; intros deps t; [by intros ?|].
  rewrite (collectFromType_unfold σ0 (S fuel)), (collectFromType_unfold σ0 fuel).
  set (c2 := collectFromType σ0 (S fuel)) in *.
  set (c1 := collectFromType σ0 fuel) in *. clearbody c1 c2.
  destruct t as [a|]; [|apply fuelLe_refl].
  case_decide; [apply fuelLe_refl|].
  apply fuelLe_bind; [apply fuelLe_refl|]. intros ty.
  destruct (Kind ty); try apply fuelLe_refl; [|apply IH].
  apply fuelLe_forM. intros d f _. apply IH.
Qed.

Lemma fuelLe_collectFromType (σ0 : heap) (n fuel : nat) deps t :
  (n ≤ fuel)%nat → fuelLe (collectFromType σ0 n deps t) (collectFromType σ0 fuel deps t).
Proof.
  induction 1 as [|fuel' _ IH]; [apply fuelLe_refl|].
  eapply fuelLe_trans; [exact IH|apply fuelLe_collectFromType_S].
Qed.

Lemma fuelLe_collectHandlerTypes (σ0 : heap) (n fuel : nat) h deps :
  (n ≤ fuel)%nat →
  fuelLe (collectHandlerTypes σ0 n h deps) (collectHandlerTypes σ0 fuel h deps).
Proof.
  intros Hle. unfold collectHandlerTypes.
  assert (Hloop : ∀ d (l : list TyField),
            fuelLe (forM (λ deps param, collectFromType σ0 n deps (fType param)) d l)
                   (forM (λ deps param, collectFromType σ0 fuel deps (fType param)) d l)).
  { intros d l. apply fuelLe_forM. intros. by apply fuelLe_collectFromType. }
  apply fuelLe_bind; [by apply fuelLe_collectFromType|]. intros d1.
  apply fuelLe_bind; [by apply fuelLe_collectFromType|]. intros d2.
  apply fuelLe_bind; [apply Hloop|]. intros d3.
  apply fuelLe_bind; [apply Hloop|]. intros d4. apply Hloop.
Qed.

Lemma addTypeToGraph_unfold (σ0 : heap) fuel s ty :
  addTypeToGraph σ0 (S fuel) s ty =
    match ty with
    | None => Ok s
    | Some a =>
      match typeToID s !! a with
      | Some _ => Ok s
      | None =>
        let id := nextID s in
        g' ← AddNode (g s) id;
        let s := {| g := g'; typeToID := <[a := id]> (typeToID s);
                    idToType := <[id := a]> (idToType s); nextID := (id + 1)%Z |} in
        t ← deref σ0 (Some a);
        match Kind t with
        | TyKindObject => forM (addField (addTypeToGraph σ0 fuel) σ0 id) s (Fields t)
        | TyKindArray =>
            match ElementType t with
            | None => Ok s
            | Some elem =>
                s ← addTypeToGraph σ0 fuel s (Some elem);
                edgeFrom s elem id
            end
        | _ => Ok s
        end
      end
    end.
Proof. reflexivity. Qed.

Lemma fuelLe_addField add1 add2 (σ0 : heap) id s f :
  (∀ s ty, fuelLe (add1 s ty) (add2 s ty)) →
  fuelLe (addField add1 σ0 id s f) (addField add2 σ0 id s f).
Proof.
  intros Hadd. unfold addField. apply fuelLe_bind; [apply Hadd|]. intros s1.
  destruct (fType f) as [ft|]; [|apply fuelLe_refl].
  apply fuelLe_bind; [apply fuelLe_refl|]. intros s2.
  apply fuelLe_bind; [apply fuelLe_refl|]. intros fty.
  destruct (ElementType fty); [|apply fuelLe_refl].
  apply fuelLe_bind; [apply Hadd|]. intros s3. apply fuelLe_refl.
Qed.

Lemma fuelLe_addTypeToGraph_S (σ0 : heap) fuel s ty :
  fuelLe (addTypeToGraph σ0 fuel s ty) (addTypeToGraph σ0 (S fuel) s ty).
Proof.
  revert s ty. induction fuel as [|fuel IH]; intros s ty; [by intros ?|].
  rewrite (addTypeToGraph_unfold σ0 (S fuel)), (addTypeToGraph_unfold σ0 fuel).
  set (c2 := addTypeToGraph σ0 (S fuel)) in *.
  set (c1 := addTypeToGraph σ0 fuel) in *. clearbody c1 c2.
  destruct ty as [a|]; [|apply fuelLe_refl].
  destruct (typeToID s !! a); [apply fuelLe_refl|].
  apply fuelLe_bind; [apply fuelLe_refl|]. intros g'.
  apply fuelLe_bind; [apply fuelLe_refl|]. intros t.
  destruct (Kind t); try apply fuelLe_refl.
  - apply fuelLe_forM. intros s1 f _. by apply fuelLe_addField.
  - destruct (ElementType t); [|apply fuelLe_refl].
    apply fuelLe_bind; [apply IH|]. intros s1. apply fuelLe_refl.
Qed.

Lemma fuelLe_addTypeToGraph (σ0 : heap) (n fuel : nat) s ty :
  (n ≤ fuel)%nat → fuelLe (addTypeToGraph σ0 n s ty) (addTypeToGraph σ0 fuel s ty).
Proof.
  induction 1 as [|fuel' _ IH]; [apply fuelLe_refl|].
  eapply fuelLe_trans; [exact IH|apply fuelLe_addTypeToGraph_S].
Qed.

Lemma fuelLe_topologicalSortTypes sorter (σ0 : heap) (n fuel : nat) entries :
  (n ≤ fuel)%nat →
  fuelLe (topologicalSortTypes sorter σ0 n entries) (topologicalSortTypes sorter σ0 fuel entries).
Proof.
  intros Hle. unfold topologicalSortTypes. case_decide; [apply fuelLe_refl|].
  apply fuelLe_bind; [|intros s; apply fuelLe_refl].
  apply fuelLe_forM. intros s ty _. by apply fuelLe_addTypeToGraph.
Qed.

Section FuelAssignment.

Context (range : ∀ V : Type, gmap string V → list (string * V)).
Context (config : ModuleConfig).
Context (sorter : DirectedGraph → (Z → Z → bool) → option (list Z)).

Lemma fuelLe_assignTypesToModules (n fuel : nat) p :
  (n ≤ fuel)%nat →
  fuelLe (assignTypesToModules range config sorter n p)
         (assignTypesToModules range config sorter fuel p).
Proof.
  intros Hle. unfold assignTypesToModules.
  apply fuelLe_bind.
  { unfold handlerDepsOf. apply fuelLe_forM. intros hd [key module] _.
    apply fuelLe_forM. intros hd1 [i h] _.
    apply fuelLe_bind; [by apply fuelLe_collectHandlerTypes|]. intros d. apply fuelLe_refl. }
  intros hd. apply fuelLe_bind; [apply fuelLe_refl|]. intros q.
  apply fuelLe_forM. intros q1 [key module] _. unfold sortModule.
  case_decide; [apply fuelLe_refl|].
  apply fuelLe_bind; [by apply fuelLe_wrap, fuelLe_topologicalSortTypes|].
  intros st. apply fuelLe_refl.
Qed.

(** X10: [assignTypesToModules] returns on every store, one with cyclic
    types included: the walks of [collectHandlerTypes] and [addTypeToGraph]
    stop at the types they have seen. A recursion bound above the number of
    types in the store is never reached, and a larger bound gives the same
    result. *)
Theorem assignTypesToModules_returns (fuel fuel' : nat) (p : Parser) :
  size (σ p) < fuel → (fuel ≤ fuel')%nat →
  assignTypesToModules range config sorter fuel p ≠ OutOfFuel
  ∧ assignTypesToModules range config sorter fuel' p
    = assignTypesToModules range config sorter fuel p.
Proof.
  intros Hs Hle.
  pose proof (assignTypesToModules_not_OutOfFuel range config sorter fuel p Hs) as Hne.
  split; [done|]. by apply fuelLe_assignTypesToModules.
Qed.

End FuelAssignment.

(** ** The whole build returns *)

Section BuildReturns.

Context (range : ∀ V : Type, gmap string V → list (string * V)).
Context (doc : Document) (config : ModuleConfig).
Context (sorter : DirectedGraph → (Z → Z → bool) → option (list Z)).

Ltac stop_at r := exists 0, r; split; [done|intros; reflexivity].

Lemma rules_and_assignment_return (p2 : Parser) :
  ∃ (N : nat) r, r ≠ OutOfFuel ∧ ∀ fuel : nat, (N ≤ fuel)%nat →
    (p ← checked (generateUnnamedResponseTypes range config p2);
     p ← checked (changeFieldRequirements range config p);
     p ← checked (orderHandlers range config p);
     p ← checked (changeResponseTypes range config p);
     p ← checked (renameTypes range config p);
     p ← checked (renameHandlers range config p);
     p ← assignTypesToModules range config sorter fuel p;
     Ok (modules p, σ p)) = r.
Proof.
  unfold mbind, result_bind.
  pose proof (checked_not_OutOfFuel _ (generateUnnamedResponseTypes_returns range config p2)) as H3.
  destruct (checked (generateUnnamedResponseTypes range config p2)) as [p3|m|m|];
    [|by stop_at (@Err (gmap string Module * heap) m)
     |by stop_at (@Panic (gmap string Module * heap) m)|done].
  cbv beta iota.
  pose proof (checked_not_OutOfFuel _ (changeFieldRequirements_returns range config p3)) as H4.
  destruct (checked (changeFieldRequirements range config p3)) as [p4|m|m|];
    [|by stop_at (@Err (gmap string Module * heap) m)
     |by stop_at (@Panic (gmap string Module * heap) m)|done].
  cbv beta iota.
  pose proof (checked_not_OutOfFuel _ (orderHandlers_returns range config p4)) as H5.
  destruct (checked (orderHandlers range config p4)) as [p5|m|m|];
    [|by stop_at (@Err (gmap string Module * heap) m)
     |by stop_at (@Panic (gmap string Module * heap) m)|done].
  cbv beta iota.
  pose proof (checked_not_OutOfFuel _ (changeResponseTypes_returns range config p5)) as H6.
  destruct (checked (changeResponseTypes range config p5)) as [p6|m|m|];
    [|by stop_at (@Err (gmap string Module * heap) m)
     |by stop_at (@Panic (gmap string Module * heap) m)|done].
  cbv beta iota.
  pose proof (checked_not_OutOfFuel _ (renameTypes_returns range config p6)) as H7.
  destruct (checked (renameTypes range config p6)) as [p7|m|m|];
    [|by stop_at (@Err (gmap string Module * heap) m)
     |by stop_at (@Panic (gmap string Module * heap) m)|done].
  cbv beta iota.
  pose proof (checked_not_OutOfFuel _ (renameHandlers_returns range config p7)) as H8.
  destruct (checked (renameHandlers range config p7)) as [p8|m|m|];
    [|by stop_at (@Err (gmap string Module * heap) m)
     |by stop_at (@Panic (gmap string Module * heap) m)|done].
  cbv beta iota.
  set (N := S (size (σ p8))).
  pose proof (assignTypesToModules_not_OutOfFuel range config sorter N p8 ltac:(unfold N; lia)) as H9.
  exists N, (match assignTypesToModules range config sorter N p8 with
             | Ok p => Ok (modules p, σ p)
             | Err e => Err e
             | Panic m => Panic m
             | OutOfFuel => OutOfFuel
             end).
  split.
  - by destruct (assignTypesToModules range config sorter N p8).
  - intros fuel Hf.
    by rewrite (fuelLe_assignTypesToModules range config sorter N fuel p8 Hf H9).
Qed.

(** X11: on a document whose schemas all unfold within [n] levels, the
    build returns: there is a recursion bound from which on the result is
    the same, and it is a value, an error or a panic of the Go program. *)
Theorem ParseOpenAPI_returns (n : nat) (p : Parser) :
  enumerates range → docUnfolds doc n →
  ∃ (N : nat) r, r ≠ OutOfFuel ∧
         ∀ fuel : nat, (N ≤ fuel)%nat → ParseOpenAPI range doc config sorter fuel p = r.
Proof.
  intros Hr Hd.
  pose proof (processNamedTypes_returns_at range Hr doc n p Hd) as H1.
  assert (E1 : ∀ fuel : nat, (n ≤ fuel)%nat →
            processNamedTypes range doc fuel p = processNamedTypes range doc n p)
    by (intros; by apply fuelLe_processNamedTypes).
  destruct (processNamedTypes range doc n p) as [p1|msg|msg|] eqn:R1; [| | |done].
  2: { exists n, (Err msg). split; [done|]. intros fuel Hf. unfold ParseOpenAPI.
       by rewrite (E1 fuel Hf). }
  2: { exists n, (Panic msg). split; [done|]. intros fuel Hf. unfold ParseOpenAPI.
       by rewrite (E1 fuel Hf). }
  pose proof (processOperations_returns_at range Hr doc n p1 Hd) as H2.
  assert (E2 : ∀ fuel : nat, (n ≤ fuel)%nat →
            processOperations range doc fuel p1 = processOperations range doc n p1)
    by (intros; by apply fuelLe_processOperations).
  destruct (processOperations range doc n p1) as [p2|msg|msg|] eqn:R2; [| | |done].
  2: { exists n, (Err msg). split; [done|]. intros fuel Hf. unfold ParseOpenAPI.
       rewrite (E1 fuel Hf). simpl. by rewrite (E2 fuel Hf). }
  2: { exists n, (Panic msg). split; [done|]. intros fuel Hf. unfold ParseOpenAPI.
       rewrite (E1 fuel Hf). simpl. by rewrite (E2 fuel Hf). }
  destruct (rules_and_assignment_return p2) as (N & r & Hne & Hrest).
  exists (n `max` N), r. split; [done|]. intros fuel Hf. unfold ParseOpenAPI.
  rewrite (E1 fuel) by lia. simpl. rewrite (E2 fuel) by lia. simpl.
  apply Hrest. lia.
Qed.

End BuildReturns.

(** X9: on a schema that unfolds within [n] levels (no component reaches
    itself through references), [convertSchema] returns under every
    recursion bound of at least [n], with the same result. *)
Theorem convertSchema_terminates (range : ∀ V : Type, gmap string V → list (string * V))
    (doc : Document) (n fuel : nat) (p : Parser) (schema : option SchemaRef) (name : string)
    (isNamed : bool) :
  enumerates range → unfolds doc n schema → (n ≤ fuel)%nat →
  convertSchema range doc fuel p schema name isNamed ≠ OutOfFuel
  ∧ convertSchema range doc fuel p schema name isNamed
    = convertSchema range doc n p schema name isNamed.
Proof. intros Hr Hu Hle. by apply convertSchema_returns. Qed.

Lemma convertSchema_terminates_witness :
  unfolds pagedDocument 8 (Some (refTo "ListResp"))
  ∧ convertSchema rangeAsc pagedDocument 20 NewParser (Some (refTo "ListResp")) "" false
    ≠ OutOfFuel.
Proof.
  assert (Hu : unfolds pagedDocument 8 (Some (refTo "ListResp")))
    by (apply (bool_decide_unpack _); vm_compute; exact I).
  split; [exact Hu|].
  apply (convertSchema_terminates rangeAsc pagedDocument 8 20 NewParser
           (Some (refTo "ListResp")) "" false rangeAsc_enumerates Hu).
  lia.
Defined.

Lemma assignTypesToModules_returns_witness :
  assignTypesToModules rangeAsc orphanConfig kahnSort 20 pagedParser ≠ OutOfFuel
  ∧ assignTypesToModules rangeAsc orphanConfig kahnSort 50 pagedParser
    = assignTypesToModules rangeAsc orphanConfig kahnSort 20 pagedParser.
Proof.
  apply (assignTypesToModules_returns rangeAsc orphanConfig kahnSort 20 50 pagedParser).
  - vm_compute. lia.
  - lia.
Defined.

Lemma ParseOpenAPI_returns_witness :
  docUnfolds pagedDocument 8
  ∧ ∃ (N : nat) r, r ≠ OutOfFuel ∧
      ∀ fuel : nat, (N ≤ fuel)%nat →
        ParseOpenAPI rangeAsc pagedDocument emptyConfig kahnSort fuel NewParser = r.
Proof.
  assert (Hd : docUnfolds pagedDocument 8)
    by (apply (bool_decide_unpack _); vm_compute; exact I).
  split; [exact Hd|].
  exact (ParseOpenAPI_returns rangeAsc pagedDocument emptyConfig kahnSort 8 NewParser
           rangeAsc_enumerates Hd).
Defined.

(** ** The type list of a grouping is complete *)

Lemma elem_of_Compact_2 {A} `{EqDecision A} (y : A) l : y ∈ l → y ∈ Compact l.
Proof.
  induction l as [|a l IH]; [done|]. simpl. destruct l as [|b l].
  - done.
  - intros H. apply elem_of_cons in H as [->|H].
    + destruct (decide (a = b)) as [->|Hne].
      * apply IH. apply elem_of_cons. by left.
      * apply elem_of_cons. by left.
    + destruct (decide (a = b)) as [->|Hne]; [by apply IH|].
      apply elem_of_cons. right. by apply IH.
Qed.

Lemma elem_of_entryTypesOf_2 (hs : list HttpHandler) h e :
  h ∈ hs → RequestBody h = Some e ∨ ResponseBody h = Some e → e ∈ entryTypesOf hs.
Proof.
  intros Hh Hbody. unfold entryTypesOf. apply list_elem_of_bind. exists h. split; [|done].
  apply elem_of_app. destruct Hbody as [-> | ->]; [left|right]; simpl;
    apply elem_of_cons; by left.
Qed.

Section SortComplete.

Context (σ0 : heap).
Context (sorter : DirectedGraph → (Z → Z → bool) → option (list Z)).
Context (Hsort : sortContract sorter).

Lemma topologicalSortTypes_complete fuel (entries : list ptr) sortedTypes named e T :
  topologicalSortTypes sorter σ0 fuel entries = Ok sortedTypes →
  filterNamed σ0 sortedTypes = Ok named →
  e ∈ entries → rtc (child σ0) e T → isNamedAt σ0 T → T ∈ named.
Proof.
  unfold topologicalSortTypes. intros Hrun Hfilter He Hreach HT.
  destruct (decide (length entries = 0)) as [Hlen|_].
  { apply length_zero_iff_nil in Hlen. subst entries. by apply elem_of_nil in He. }
  apply bind_Ok in Hrun as (s & Hloop & Hrun).
  destruct (sorter (g s) (nameLess σ0 (idToType s))) as [sorted|] eqn:Hs; [|done].
  injection Hrun as <-.
  destruct (entries_loop_spec σ0 fuel entries _ s graphWF_init Hloop)
    as (Hwf & _ & Hin & Hnew).
  assert (Hall : ∀ b, is_Some (typeToID s !! b) → complete σ0 s b)
    by (intros b Hb; apply Hnew; [done|apply lookup_empty]).
  destruct (complete_reach σ0 s e T Hall (Hin e He) Hreach) as [idT HidT].
  destruct (Hsort _ _ _ (wf_closed s Hwf) Hs) as (_ & Hmem & _).
  assert (Hid : idT ∈ sorted).
  { apply Hmem, (wf_nodes s Hwf). exists T. by apply (wf_to_from s Hwf). }
  destruct (filterNamed_spec σ0 _ named Hfilter) as (l' & Hl' & ->).
  apply list_elem_of_filter. split; [done|].
  apply list_elem_of_lookup_1 in Hid as [i Hi].
  apply (f_equal (λ l, l !! i)) in Hl'.
  rewrite !list_lookup_fmap, Hi in Hl'. simpl in Hl'.
  rewrite (wf_to_from s Hwf T idT HidT) in Hl'.
  destruct (l' !! i) as [a|] eqn:Ha; [|done]. injection Hl' as ->.
  by eapply list_elem_of_lookup_2.
Qed.

End SortComplete.

Section TypeLists.

Context (range : ∀ V : Type, gmap string V → list (string * V)).
Context (doc : Document) (config : ModuleConfig).
Context (sorter : DirectedGraph → (Z → Z → bool) → option (list Z)).

(** X13: in a build that succeeds, the type list of a grouping that was
    given at least one type lists no type twice, lists named types only,
    and lists every named type reached from the request or response body of
    one of the grouping's handlers by walking object fields and array
    element types. *)
Theorem ParseOpenAPI_types_complete (fuel : nat) (p : Parser)
    (mods : gmap string Module) (σ' : heap) (key : string) (m : Module) :
  enumerates range → sortContract sorter →
  ParseOpenAPI range doc config sorter fuel p = Ok (mods, σ') →
  mods !! key = Some m → Types m ≠ [] →
  NoDup (Types m)
  ∧ (∀ T, T ∈ Types m → isNamedAt σ' T)
  ∧ (∀ h e T, h ∈ HttpHandlers m →
       RequestBody h = Some e ∨ ResponseBody h = Some e →
       rtc (child σ') e T → isNamedAt σ' T → T ∈ Types m).
Proof.
  intros Hr Hsort Hrun Hm Hne.
  destruct (ParseOpenAPI_ends_in_assignment range doc config sorter fuel p mods σ' Hrun)
    as (q & q' & _ & Hassign & -> & ->).
  destruct (assignTypesToModules_sorted range config sorter fuel q q' Hr Hassign key m Hm)
    as [Hnil|(sortedTypes & Hsorted & Hnamed)]; [done|].
  destruct (topologicalSortTypes_spec (σ q') sorter Hsort fuel _ _ _ Hsorted Hnamed)
    as (Hnd & _ & _).
  split; [done|]. split.
  - intros T HT. destruct (filterNamed_spec (σ q') _ _ Hnamed) as (l' & _ & Hl').
    rewrite Hl' in HT. by apply list_elem_of_filter in HT as [HT _].
  - intros h e T Hh Hbody Hreach HT.
    eapply (topologicalSortTypes_complete (σ q') sorter Hsort); [done|done| |done|done].
    apply elem_of_Compact_2. rewrite SortStableFunc_Permutation.
    by eapply elem_of_entryTypesOf_2.
Qed.

End TypeLists.

Lemma ParseOpenAPI_types_complete_witness :
  NoDup (Types pagedItems) ∧ 1%positive ∈ Types pagedItems.
Proof.
  destruct (ParseOpenAPI_types_complete rangeAsc pagedDocument emptyConfig kahnSort 20
              NewParser pagedRunAsc.1 pagedRunAsc.2 "items" pagedItems
              rangeAsc_enumerates kahnSort_contract pagedRunAsc_run)
    as (Hnd & _ & Hall); [vm_compute; reflexivity|vm_compute; discriminate|].
  split; [exact Hnd|].
  assert (Hhs : HttpHandlers pagedItems = [pagedItemsHandler]) by (vm_compute; reflexivity).
  apply (Hall pagedItemsHandler 4%positive 1%positive).
  - rewrite Hhs. apply elem_of_cons. left. reflexivity.
  - right. reflexivity.
  - eapply rtc_l.
    { eapply (child_field _ 4%positive _ (mkField "data" 6) 6%positive);
        [vm_compute; reflexivity|reflexivity| |reflexivity].
      apply elem_of_cons; right. apply elem_of_cons; left. reflexivity. }
    eapply rtc_l.
    { eapply (child_field _ 6%positive _ (mkField "items" 7) 7%positive);
        [vm_compute; reflexivity|reflexivity| |reflexivity].
      apply elem_of_cons; left. reflexivity. }
    eapply rtc_l; [|apply rtc_refl].
    eapply (child_elem _ 7%positive _ 1%positive); [vm_compute; reflexivity|reflexivity|reflexivity].
  - vm_compute. exact I.
Defined.

Lemma topologicalSortTypes_acyclic_witness : ¬ tc (child pagedHeap) 1%positive 1%positive.
Proof.
  apply (topologicalSortTypes_acyclic pagedHeap kahnSort kahnSort_contract 20 [1%positive]
           pagedSortedTypes 1%positive 1%positive).
  - vm_compute. reflexivity.
  - apply elem_of_cons. left. reflexivity.
  - apply rtc_refl.
Defined.

(** ** Rules over the handlers *)

Lemma reordered_refl p : reordered p p.
Proof.
  repeat split. intros key. by destruct (modules p !! key).
Qed.

Section HandlerRules.

Context (range : ∀ V : Type, gmap string V → list (string * V)).
Context (config : ModuleConfig).

(** X14: [orderHandlers] moves handlers within their grouping and does
    nothing else, also when it stops at a grouping it does not find: the
    store, the registry and the set of groupings are as before, and each
    grouping has its name, its types and a permutation of its handlers. *)
Theorem orderHandlers_permutes (p : Parser) :
  reordered p (orderHandlers range config p).1.
Proof.
  unfold orderHandlers. destruct (decide (size (HandlerOrdering config) = 0));
    [apply reordered_refl|].
  apply (forS_invariant (reordered p)); [|apply reordered_refl].
  intros q [moduleName names] (Hσ & Hn & Hx & Hmods).
  destruct (modules q !! moduleName) as [module|] eqn:Hmod; [|done]. simpl.
  split; [done|]. split; [done|]. split; [done|]. intros key. simpl.
  specialize (Hmods key). destruct (decide (key = moduleName)) as [->|Hne].
  - rewrite lookup_insert_eq. rewrite Hmod in Hmods.
    destruct (modules p !! moduleName) as [m|]; [|done].
    destruct Hmods as (Hperm & Ht & Hname). simpl.
    split; [|done]. by rewrite SortStableFunc_Permutation.
  - by rewrite lookup_insert_ne.
Qed.

Lemma mapHandlers_loop (f : HttpHandler → HttpHandler) (L : list (string * Module)) p :
  NoDup L.*1 →
  let q := foldl (λ p '(key, module),
                    setModules p (<[key := setHandlers module (f <$> HttpHandlers module)]>
                                    (modules p))) p L in
  σ q = σ p ∧ namedTypes q = namedTypes p ∧ nextPtr q = nextPtr p ∧
  (∀ key m, (key, m) ∈ L → modules q !! key = Some (mapModule f m)) ∧
  (∀ key, key ∉ L.*1 → modules q !! key = modules p !! key).
Proof.
  revert p. induction L as [|[k m] L IH]; intros p Hnd; simpl.
  - repeat split; try done. intros key m' H. by apply elem_of_nil in H.
  - apply NoDup_cons in Hnd as [Hk Hnd].
    destruct (IH (setModules p (<[k := setHandlers m (f <$> HttpHandlers m)]> (modules p)))
                Hnd) as (Hσ & Hn & Hx & Hin & Hout).
    split; [done|]. split; [done|]. split; [done|]. split.
    + intros key m' H. apply elem_of_cons in H as [[= -> ->]|H]; [|by apply Hin].
      rewrite (Hout k Hk). simpl. by rewrite lookup_insert_eq.
    + intros key Hkey. apply not_elem_of_cons in Hkey as [Hne Hkey].
      rewrite (Hout key Hkey). simpl. by rewrite lookup_insert_ne.
Qed.

Lemma mapHandlers_spec (f : HttpHandler → HttpHandler) p :
  enumerates range →
  σ (mapHandlers range f p) = σ p ∧ namedTypes (mapHandlers range f p) = namedTypes p ∧
  nextPtr (mapHandlers range f p) = nextPtr p ∧
  modules (mapHandlers range f p) = mapModule f <$> modules p.
Proof.
  intros Hr. unfold mapHandlers.
  assert (Hnd : NoDup (range Module (modules p)).*1).
  { rewrite (Hr Module (modules p)). apply NoDup_fst_map_to_list. }
  destruct (mapHandlers_loop f _ p Hnd) as (Hσ & Hn & Hx & Hin & Hout).
  split; [done|]. split; [done|]. split; [done|].
  apply map_eq. intros key. rewrite lookup_fmap.
  destruct (modules p !! key) as [m|] eqn:Hm; simpl.
  - apply Hin. by apply (enumerates_lookup range).
  - rewrite Hout; [done|]. intros Hkey.
    apply list_elem_of_fmap in Hkey as ([k m] & -> & Hkm).
    apply (enumerates_lookup range) in Hkm; [|done]. simpl in Hm. congruence.
Qed.

Lemma mapModule_id (m : Module) : mapModule (λ h, h) m = m.
Proof. unfold mapModule, setHandlers. rewrite list_fmap_id. by destruct m. Qed.

(** X15: [renameHandlers] never fails and renames all handlers at once:
    each handler whose name, as it was before the rule, is a key of the
    rename map gets the name the map gives, in whatever order the groupings
    are enumerated; the handlers keep their place, and the store, the
    registry and the types of the groupings are untouched. *)
Theorem renameHandlers_spec (p : Parser) :
  enumerates range →
  (renameHandlers range config p).2 = Ok ()
  ∧ σ (renameHandlers range config p).1 = σ p
  ∧ namedTypes (renameHandlers range config p).1 = namedTypes p
  ∧ modules (renameHandlers range config p).1 = mapModule (renamedHandler config) <$> modules p.
Proof.
  intros Hr. unfold renameHandlers.
  destruct (decide (size (RenameHandlers config) = 0)) as [Hz|Hnz]; simpl.
  - split; [done|]. split; [done|]. split; [done|].
    apply map_size_empty_inv in Hz.
    apply map_eq. intros key. rewrite lookup_fmap.
    destruct (modules p !! key) as [m|]; simpl; [|done]. f_equal.
    rewrite <- (mapModule_id m) at 1. unfold mapModule. f_equal.
    apply list_fmap_ext. intros i h _. unfold renamedHandler. by rewrite Hz, lookup_empty.
  - destruct (mapHandlers_spec (renamedHandler config) p Hr) as (Hσ & Hn & _ & Hm).
    done.
Qed.

Lemma mapModule_compose (f g : HttpHandler → HttpHandler) (M : gmap string Module) :
  mapModule g <$> (mapModule f <$> M) = mapModule (λ h, g (f h)) <$> M.
Proof.
  rewrite <- map_fmap_compose. apply map_fmap_ext. intros k m _.
  unfold mapModule, setHandlers. simpl. by rewrite <- list_fmap_compose.
Qed.

(** One handler under the entries of the response map, taken in turn. *)
Lemma retyped_fold (p : Parser) (L : list (string * string)) (h : HttpHandler) :
  NoDup L.*1 →
  let h' := foldl (λ h '(handlerName, responseType),
                     if decide (hName h = handlerName)
                     then setResponseBody h (namedTypes p !! responseType) else h) h L in
  hName h' = hName h ∧
  (∀ rt, (hName h, rt) ∈ L → h' = setResponseBody h (namedTypes p !! rt)) ∧
  (hName h ∉ L.*1 → h' = h).
Proof.
  revert h. induction L as [|[hn rt] L IH]; intros h Hnd; simpl.
  - split; [done|]. split; [|done]. intros rt' H. by apply elem_of_nil in H.
  - apply NoDup_cons in Hnd as [Hk Hnd].
    destruct (decide (hName h = hn)) as [<-|Hne].
    + destruct (IH (setResponseBody h (namedTypes p !! rt)) Hnd) as (Hname & _ & Hout).
      simpl in *. split; [done|]. split.
      * intros rt' H. apply elem_of_cons in H as [[= ->]|H]; [by apply Hout|].
        exfalso. apply Hk. apply list_elem_of_fmap. by exists (hName h, rt').
      * intros H. exfalso. apply H. apply elem_of_cons. by left.
    + destruct (IH h Hnd) as (Hname & Hin & Hout). split; [done|]. split.
      * intros rt' H. apply elem_of_cons in H as [[= ? ?]|H]; [done|by apply Hin].
      * intros H. apply Hout. intros H'. apply H. apply elem_of_cons. by right.
Qed.

Lemma changeResponseTypes_loop (p0 : Parser) (L : list (string * string)) (q : Parser) :
  namedTypes q = namedTypes p0 → enumerates range →
  (∀ hn rt, (hn, rt) ∈ L → is_Some (namedTypes p0 !! rt)) →
  let o := forS (λ p '(handlerName, responseType),
                   match namedTypes p !! responseType with
                   | None => (p, Err ("type " +:+ responseType +:+ " not found for handler "
                                      +:+ handlerName))
                   | Some newType =>
                       (mapHandlers range
                          (λ h, if decide (hName h = handlerName)
                                then setResponseBody h (Some newType) else h) p, Ok ())
                   end) q L in
  o.2 = Ok () ∧ σ o.1 = σ q ∧ namedTypes o.1 = namedTypes q ∧
  modules o.1 =
    mapModule (λ h, foldl (λ h '(handlerName, responseType),
                             if decide (hName h = handlerName)
                             then setResponseBody h (namedTypes p0 !! responseType) else h)
                          h L) <$> modules q.
Proof.
  intros Hn Hr. revert q Hn. induction L as [|[hn rt] L IH]; intros q Hn Hall; simpl.
  - split; [done|]. split; [done|]. split; [done|].
    apply map_eq. intros key. rewrite lookup_fmap.
    destruct (modules q !! key) as [m|]; simpl; [|done]. by rewrite mapModule_id.
  - destruct (Hall hn rt) as [newType Hnew]; [apply elem_of_cons; by left|].
    rewrite Hn, Hnew.
    set (f := λ h, if decide (hName h = hn) then setResponseBody h (Some newType) else h).
    destruct (mapHandlers_spec f q Hr) as (Hσ1 & Hn1 & _ & Hm1).
    destruct (IH (mapHandlers range f q)) as (Ho & Hσ2 & Hn2 & Hm2); [congruence| |].
    { intros hn' rt' H. apply (Hall hn' rt'). apply elem_of_cons. by right. }
    split; [done|]. split; [congruence|]. split; [congruence|].
    rewrite Hm2, Hm1, mapModule_compose. done.
Qed.

(** X16: when every type the response map names is registered,
    [changeResponseTypes] succeeds, and each handler whose name is a key of
    the map answers with the type registered under the name the map gives,
    in whatever order the map and the groupings are enumerated; the other
    handlers, the store, the registry and the types of the groupings are
    untouched. *)
Theorem changeResponseTypes_spec (p : Parser) :
  enumerates range →
  (∀ handlerName responseType,
     ChangeHttpHandlerResponseType config !! handlerName = Some responseType →
     is_Some (namedTypes p !! responseType)) →
  (changeResponseTypes range config p).2 = Ok ()
  ∧ σ (changeResponseTypes range config p).1 = σ p
  ∧ namedTypes (changeResponseTypes range config p).1 = namedTypes p
  ∧ modules (changeResponseTypes range config p).1
    = mapModule (retypedHandler config p) <$> modules p.
Proof.
  intros Hr Hall. unfold changeResponseTypes.
  set (L := range string (ChangeHttpHandlerResponseType config)).
  assert (Hnd : NoDup L.*1).
  { unfold L. rewrite (Hr string _). apply NoDup_fst_map_to_list. }
  destruct (changeResponseTypes_loop p L p eq_refl Hr) as (Ho & Hσ & Hn & Hm).
  { intros hn rt H. apply (Hall hn rt). by apply (enumerates_lookup range) in H. }
  split; [done|]. split; [done|]. split; [done|]. rewrite Hm.
  apply map_fmap_ext. intros key m _. unfold mapModule. f_equal.
  apply list_fmap_ext. intros i h _.
  destruct (retyped_fold p L h Hnd) as (_ & Hin & Hout). unfold retypedHandler.
  destruct (ChangeHttpHandlerResponseType config !! hName h) as [rt|] eqn:Hrt.
  - apply Hin. by apply (enumerates_lookup range).
  - apply Hout. intros H. apply list_elem_of_fmap in H as ([hn rt] & Hhn & H).
    apply (enumerates_lookup range) in H; [|done]. simpl in Hhn. congruence.
Qed.

(** X17: when the response map names a type that is not registered,
    [changeResponseTypes] returns the error of line 403 for an entry whose
    type is not registered, and leaves the store and the registry as they
    were. *)
Theorem changeResponseTypes_fails (p : Parser) (handlerName responseType : string) :
  enumerates range →
  ChangeHttpHandlerResponseType config !! handlerName = Some responseType →
  namedTypes p !! responseType = None →
  σ (changeResponseTypes range config p).1 = σ p
  ∧ namedTypes (changeResponseTypes range config p).1 = namedTypes p
  ∧ ∃ hn rt, ChangeHttpHandlerResponseType config !! hn = Some rt ∧
             namedTypes p !! rt = None ∧
             (changeResponseTypes range config p).2
             = Err ("type " +:+ rt +:+ " not found for handler " +:+ hn).
Proof.
  intros Hr Hcfg Hmiss. unfold changeResponseTypes.
  set (L := range string (ChangeHttpHandlerResponseType config)).
  assert (HinL : (handlerName, responseType) ∈ L) by (by apply (enumerates_lookup range)).
  assert (HL : ∀ hn rt, (hn, rt) ∈ L → ChangeHttpHandlerResponseType config !! hn = Some rt)
    by (intros hn rt H; by apply (enumerates_lookup range) in H).
  clearbody L. clear Hcfg.
  assert (Hgen : ∀ q, namedTypes q = namedTypes p →
    let o := forS (λ p '(handlerName, responseType),
                     match namedTypes p !! responseType with
                     | None => (p, Err ("type " +:+ responseType +:+ " not found for handler "
                                        +:+ handlerName))
                     | Some newType =>
                         (mapHandlers range
                            (λ h, if decide (hName h = handlerName)
                                  then setResponseBody h (Some newType) else h) p, Ok ())
                     end) q L in
    σ o.1 = σ q ∧ namedTypes o.1 = namedTypes q ∧
    ∃ hn rt, (hn, rt) ∈ L ∧ namedTypes p !! rt = None ∧
             o.2 = Err ("type " +:+ rt +:+ " not found for handler " +:+ hn)).
  { induction L as [|[hn rt] L IH]; intros q Hn; [by apply elem_of_nil in HinL|]. simpl.
    rewrite Hn. destruct (namedTypes p !! rt) as [newType|] eqn:Hrt.
    - apply elem_of_cons in HinL as [[= -> ->]|HinL]; [congruence|].
      set (f := λ h, if decide (hName h = hn) then setResponseBody h (Some newType) else h).
      destruct (mapHandlers_spec f q Hr) as (Hσ1 & Hn1 & _).
      destruct (IH HinL) with (q := mapHandlers range f q)
        as (Hσ2 & Hn2 & hn' & rt' & Hin' & Hnone & Herr).
      { intros hn' rt' H. apply HL. apply elem_of_cons. by right. }
      { congruence. }
      split; [congruence|]. split; [congruence|].
      exists hn', rt'. split; [apply elem_of_cons; by right|done].
    - simpl. split; [done|]. split; [done|]. exists hn, rt.
      split; [apply elem_of_cons; by left|done]. }
  destruct (Hgen p eq_refl) as (Hσ & Hn & hn & rt & Hin & Hnone & Herr).
  split; [done|]. split; [done|]. exists hn, rt. split; [by apply HL|done].
Qed.

End HandlerRules.

Lemma renameHandlers_spec_witness :
  (renameHandlers rangeDesc zooRename zooParser).2 = Ok ()
  ∧ modules (renameHandlers rangeDesc zooRename zooParser).1
    = mapModule (renamedHandler zooRename) <$> modules zooParser.
Proof.
  destruct (renameHandlers_spec rangeDesc zooRename zooParser rangeDesc_enumerates)
    as (H1 & _ & _ & H2).
  exact (conj H1 H2).
Defined.

(** [Alpha] and [Beta] trade names in one pass. *)
Example renameHandlers_swap :
  (λ m, hName <$> HttpHandlers m) <$> modules (renameHandlers rangeAsc zooRename zooParser).1
  = {[ "zoo" := ["Zebra"; "Beta"; "Alpha"] ]}.
Proof. vm_compute. reflexivity. Qed.

Lemma changeResponseTypes_spec_witness :
  (changeResponseTypes rangeAsc itemResponse pagedParser).2 = Ok ()
  ∧ modules (changeResponseTypes rangeAsc itemResponse pagedParser).1
    = mapModule (retypedHandler itemResponse pagedParser) <$> modules pagedParser.
Proof.
  destruct (changeResponseTypes_spec rangeAsc itemResponse pagedParser rangeAsc_enumerates)
    as (H1 & _ & _ & H2).
  - intros hn rt H. simpl in H. apply lookup_singleton_Some in H as [_ <-].
    exists 6%positive. reflexivity.
  - exact (conj H1 H2).
Defined.

Lemma changeResponseTypes_fails_witness :
  ∃ hn rt, (changeResponseTypes rangeAsc itemResponse zooParser).2
           = Err ("type " +:+ rt +:+ " not found for handler " +:+ hn).
Proof.
  destruct (changeResponseTypes_fails rangeAsc itemResponse zooParser "ListItems" "Item"
              rangeAsc_enumerates)
    as (_ & _ & hn & rt & _ & _ & H); [reflexivity|reflexivity|].
  by exists hn, rt.
Defined.
